(** * A shallow embedding of cqlshlib/copyutil.py (COPY TO / COPY FROM)

    The first part follows the layout of the Python module: the import
    error handler, the boolean converter, the retry policy, the export
    coordinator, the readers, the feeder, the import worker and the timestamp
    converter.  Python integers are [Z], [str] values are [string],
    dictionaries are [gmap]s, exceptions are a result type, and objects
    mutated in place are records threaded through the functions that mutate
    them.  The second part holds the properties. *)

From Stdlib Require Import ZArith String Ascii List Bool Lia.
From stdpp Require Import gmap strings list pretty.

Local Open Scope string_scope.
Local Open Scope list_scope.
Local Open Scope Z_scope.

(** ** Python preliminaries *)

(** [len(l)] as a Python integer. *)
Definition len {A} (l : list A) : Z := Z.of_nat (length l).

(** Outcome of a call that may raise: the name of the exception class is
    what [ImportTaskError] records. *)
Inductive res (A : Type) : Type :=
| Ok (a : A)
| Raise (exc : string) (message : string).
Arguments Ok {A} a.
Arguments Raise {A} exc message.

(** [s.startswith(p)]. *)
Definition startswith (s p : string) : bool := String.prefix p s.

(** [repr(s)] of a [str]: between apostrophes, or between double quotes
    when [s] has an apostrophe and no double quote; the quote character and
    the backslash are escaped, tab, line feed and carriage return are written
    as [\t], [\n] and [\r], and the other bytes outside the printable ASCII
    range as [\xNN]. *)
Definition double_quote : ascii := "034"%char.

Fixpoint contains_char (c : ascii) (s : string) : bool :=
  match s with
  | EmptyString => false
  | String c' s' => Ascii.eqb c c' || contains_char c s'
  end.

Definition hex_digit (n : nat) : ascii :=
  ascii_of_nat (if (n <? 10)%nat then 48 + n else 87 + n).

Definition repr_char (quote c : ascii) : string :=
  let n := nat_of_ascii c in
  if Ascii.eqb c quote || Ascii.eqb c "\"%char then String "\"%char (String c EmptyString)
  else if (n =? 9)%nat then "\t"
  else if (n =? 10)%nat then "\n"
  else if (n =? 13)%nat then "\r"
  else if (n <? 32)%nat || (127 <=? n)%nat
       then String "\"%char (String "x"%char
              (String (hex_digit (n / 16)) (String (hex_digit (n mod 16)) EmptyString)))
  else String c EmptyString.

Fixpoint repr_chars (quote : ascii) (s : string) : string :=
  match s with
  | EmptyString => EmptyString
  | String c s' => (repr_char quote c ++ repr_chars quote s')%string
  end.

Definition py_repr (s : string) : string :=
  let quote := if contains_char "'"%char s && negb (contains_char double_quote s)
               then double_quote else "'"%char in
  String quote (repr_chars quote s ++ String quote EmptyString)%string.

(** A parsed CSV row: the list of its fields. *)
Definition row := list string.

(** ** ImportTaskError and ImportErrorHandler *)

Module ErrorHandler.

Record ImportTaskError := mkImportTaskError {
  name : string;
  msg : string;
  rows : list row;
  attempts : Z;
  final : bool
}.

(** [ImportTaskError.__init__(name, msg, rows=None, attempts=1, final=True)]:
    a missing or empty [rows] becomes the empty list. *)
Definition ImportTaskError_init (name msg : string) (rows : option (list row))
    (attempts : option Z) (final : option bool) : ImportTaskError :=
  {| name := name;
     msg := msg;
     rows := match rows with Some (r :: rs) => r :: rs | _ => [] end;
     attempts := default 1 attempts;
     final := default true final |}.

Definition is_parse_error (err : ImportTaskError) : bool :=
  startswith (name err) "ValueError" || startswith (name err) "TypeError" ||
  startswith (name err) "ParseError" || startswith (name err) "IndexError" ||
  startswith (name err) "ReadError".

(** The handler's counters and options; [err_file] is the content appended
    to the error file so far, one CSV row per failed input row. *)
Record ImportErrorHandler := mkImportErrorHandler {
  max_attempts : Z;
  max_parse_errors : Z;
  max_insert_errors : Z;
  err_file : list row;
  parse_errors : Z;
  insert_errors : Z;
  num_rows_failed : Z
}.

Definition max_exceeded (h : ImportErrorHandler) : bool :=
  if (max_insert_errors h <? insert_errors h) && (0 <=? max_insert_errors h) then true
  else if (max_parse_errors h <? parse_errors h) && (0 <=? max_parse_errors h) then true
  else false.

Definition add_failed_rows (rs : list row) (h : ImportErrorHandler) : ImportErrorHandler :=
  {| max_attempts := max_attempts h;
     max_parse_errors := max_parse_errors h;
     max_insert_errors := max_insert_errors h;
     err_file := err_file h ++ rs;
     parse_errors := parse_errors h;
     insert_errors := insert_errors h;
     num_rows_failed := num_rows_failed h + len rs |}.

Definition add_parse_errors (n : Z) (h : ImportErrorHandler) : ImportErrorHandler :=
  {| max_attempts := max_attempts h;
     max_parse_errors := max_parse_errors h;
     max_insert_errors := max_insert_errors h;
     err_file := err_file h;
     parse_errors := parse_errors h + n;
     insert_errors := insert_errors h;
     num_rows_failed := num_rows_failed h |}.

Definition add_insert_errors (n : Z) (h : ImportErrorHandler) : ImportErrorHandler :=
  {| max_attempts := max_attempts h;
     max_parse_errors := max_parse_errors h;
     max_insert_errors := max_insert_errors h;
     err_file := err_file h;
     parse_errors := parse_errors h;
     insert_errors := insert_errors h + n;
     num_rows_failed := num_rows_failed h |}.

(** [handle_error]; the lines printed on the shell's error stream are not
    part of the state. *)
Definition handle_error (err : ImportTaskError) (h : ImportErrorHandler) : ImportErrorHandler :=
  if is_parse_error err then
    add_failed_rows (rows err) (add_parse_errors (len (rows err)) h)
  else
    let h1 := add_insert_errors (len (rows err)) h in
    if negb (final err) then h1 else add_failed_rows (rows err) h1.

(** The five error-name prefixes the specification lists. *)
Definition parse_error_names : list string :=
  ["ValueError"; "TypeError"; "ParseError"; "IndexError"; "ReadError"].

End ErrorHandler.

(** ** String helpers used by the converters *)

(** [c.lower()] on one byte: the ASCII capitals move to the small letters. *)
Definition is_upper (c : ascii) : bool :=
  let n := nat_of_ascii c in (65 <=? n)%nat && (n <=? 90)%nat.

Definition lower_ascii (c : ascii) : ascii :=
  if is_upper c then ascii_of_nat (nat_of_ascii c + 32) else c.

(** [s.lower()]. *)
Fixpoint lower (s : string) : string :=
  match s with
  | EmptyString => EmptyString
  | String c s' => String (lower_ascii c) (lower s')
  end.

(** Two bytes are the same letter up to case when they are equal or one is
    the capital of the other. *)
Definition same_letter (a b : ascii) : Prop :=
  a = b \/
  (is_upper a = true /\ nat_of_ascii b = (nat_of_ascii a + 32)%nat) \/
  (is_upper b = true /\ nat_of_ascii a = (nat_of_ascii b + 32)%nat).

(** Equality of strings up to the case of their letters, stated position by
    position and without reference to [lower]. *)
Inductive eq_nocase : string -> string -> Prop :=
| eq_nocase_nil : eq_nocase EmptyString EmptyString
| eq_nocase_cons a b s t :
    same_letter a b -> eq_nocase s t -> eq_nocase (String a s) (String b t).

Definition same_letterb (a b : ascii) : bool :=
  Ascii.eqb a b ||
  (is_upper a && Nat.eqb (nat_of_ascii b) (nat_of_ascii a + 32)) ||
  (is_upper b && Nat.eqb (nat_of_ascii a) (nat_of_ascii b + 32)).

Definition all_ascii : list ascii := List.map ascii_of_nat (List.seq 0 256).

(** ** ImportConversion: the converters of [_get_converter] *)

Module Conversion.

(** [CopyTask.check_options]: the boolean styles must be exactly two,
    different and non-empty; otherwise [ValueError]. *)
Definition check_options (bool_styles : list string) : bool :=
  match bool_styles with
  | [s0; s1] => negb (String.eqb s0 s1) && negb (String.eqb s0 "") && negb (String.eqb s1 "")
  | _ => false
  end.

(** [convert_bool]: [True if v.lower() == self.boolean_styles[0].lower() else False].
    Indexing an empty list raises [IndexError]. *)
Definition convert_bool (boolean_styles : list string) (v : string) : res bool :=
  match boolean_styles !! 0%nat with
  | Some s0 => Ok (if String.eqb (lower v) (lower s0) then true else false)
  | None => Raise "IndexError" "list index out of range"
  end.

End Conversion.

(** ** ExpBackoffRetryPolicy *)

Module RetryPolicy.

(** The driver's decisions [RetryPolicy.RETRY] and [RetryPolicy.RETHROW]. *)
Inductive decision := RETRY | RETHROW.

(** What a timeout handler hands back: the decision, the consistency level
    to retry at ([None] when giving up) and the calls to [time.sleep] it made,
    in seconds. *)
Record outcome (C : Type) := mkOutcome {
  decided : decision;
  consistency_level : option C;
  sleeps : list Z
}.
Arguments mkOutcome {C} _ _ _.
Arguments decided {C} _.
Arguments consistency_level {C} _.
Arguments sleeps {C} _.

(** Seconds spent sleeping. *)
Definition slept {C} (o : outcome C) : Z := fold_right Z.add 0 (sleeps o).

(** [random.randrange(start, stop)]: the generator supplies an arbitrary
    integer [draw], reduced to the interval; an empty interval raises
    [ValueError]. *)
Definition randrange (start stop : Z) (draw : Z) : res Z :=
  if start <? stop then Ok (start + draw mod (stop - start))
  else Raise "ValueError" "empty range for randrange()".

(** [backoff]: -1 when the attempts are used up, else a random number of
    seconds below [2^(retry_num + 1)]. *)
Definition backoff (max_attempts retry_num : Z) (draw : Z) : res Z :=
  if max_attempts <=? retry_num then Ok (-1)
  else randrange 0 (2 ^ (retry_num + 1)) draw.

Definition _handle_timeout {C} (max_attempts : Z) (consistency : C) (retry_num : Z)
    (draw : Z) : res (outcome C) :=
  match backoff max_attempts retry_num draw with
  | Raise e m => Raise e m
  | Ok delay =>
      if 0 <? delay then Ok (mkOutcome RETRY (Some consistency) [delay])
      else if delay =? 0 then Ok (mkOutcome RETRY (Some consistency) [])
      else Ok (mkOutcome RETHROW None [])
  end.

(** The query and the response counts the driver passes are not used. *)
Definition on_read_timeout {C Q} (max_attempts : Z) (query : Q) (consistency : C)
    (required_responses received_responses : Z) (data_retrieved : bool)
    (retry_num : Z) (draw : Z) : res (outcome C) :=
  _handle_timeout max_attempts consistency retry_num draw.

Definition on_write_timeout {C Q W} (max_attempts : Z) (query : Q) (consistency : C)
    (write_type : W) (required_responses received_responses : Z)
    (retry_num : Z) (draw : Z) : res (outcome C) :=
  _handle_timeout max_attempts consistency retry_num draw.

End RetryPolicy.

(** ** ExportTask: token ranges and the coordinator's bookkeeping *)

(** [s.endswith(p)]. *)
Definition endswith (s p : string) : bool :=
  (String.length p <=? String.length s)%nat &&
  String.eqb (substring (String.length s - String.length p) (String.length p) s) p.

(** Python 2 orders [None] before every integer; [a > b] is [py_lt b a]. *)
Definition py_lt (a b : option Z) : bool :=
  match a, b with
  | None, None => false
  | None, Some _ => true
  | Some _, None => false
  | Some x, Some y => x <? y
  end.

(** Truth value of an optional integer: [None] and [0] are false. *)
Definition truthy (t : option Z) : bool :=
  match t with
  | Some v => negb (v =? 0)
  | None => false
  end.

Module ExportTask.

(** A token range [(from, to]]; [None] at either end means unbounded. *)
Definition token_range : Type := option Z * option Z.

(** The driver's [Host], as far as [make_range_data] reads it. *)
Record replica := mkReplica {
  address : string;
  is_up : bool;
  datacenter : string
}.

(** The per-range dictionary [{'hosts': ..., 'attempts': ..., 'rows': ...}]. *)
Record range_info := mkRangeInfo {
  hosts : list string;
  attempts : Z;
  rows : Z
}.

(** What [get_ranges] prints on the shell's error stream. *)
Inductive range_error :=
| BeginBelowMin (begin_token min_token : option Z)
| BeginAfterEnd (begin_token end_token : option Z)
| NoRangesFound (begin_token end_token : option Z).

Definition get_min_token (partitioner : string) : option Z :=
  if endswith partitioner "RandomPartitioner" then Some (-1)
  else if endswith partitioner "Murmur3Partitioner" then Some (- 2 ^ 63)
  else None.

(** [ring.sort()]: the ring items ordered by token value. *)
Fixpoint insert_sorted {A} (x : Z * A) (l : list (Z * A)) : list (Z * A) :=
  match l with
  | [] => [x]
  | y :: l' => if x.1 <? y.1 then x :: y :: l' else y :: insert_sorted x l'
  end.

Definition ring_sort {A} (l : list (Z * A)) : list (Z * A) :=
  fold_right insert_sorted [] l.

Section GetRanges.

(** The shell's host and data centre, the partitioner's minimum token and
    the option values [begintoken] and [endtoken] ([None] when empty). *)
Variables (hostname local_dc : string).
Variable min_token : option Z.
Variables (begin_token end_token : option Z).

(** The intersection of [(prev, curr)] with [(begin_token, end_token)]. *)
Definition make_range (prev curr : option Z) : option token_range :=
  let ret := (prev, curr) in
  let clipped :=
    if truthy begin_token then
      if py_lt ret.2 begin_token then None
      else if py_lt ret.1 begin_token then Some (begin_token, ret.2)
      else Some ret
    else Some ret in
  match clipped with
  | None => None
  | Some ret =>
      if truthy end_token then
        if py_lt end_token ret.1 then None
        else if py_lt end_token ret.2 then Some (ret.1, end_token)
        else Some ret
      else Some ret
  end.

(** [make_range_data(replicas=None)]; a missing argument and an empty list
    of replicas both take the fallback. *)
Definition make_range_data (replicas : list replica) : range_info :=
  let hs := List.map address
              (List.filter (fun r => is_up r && String.eqb (datacenter r) local_dc) replicas) in
  {| hosts := match hs with [] => [hostname] | _ => hs end;
     attempts := 0;
     rows := 0 |}.

(** The variables of the loop over the ring. *)
Record walk := mkWalk {
  ranges : gmap token_range range_info;
  first_range_data : option range_info;
  previous : option Z
}.

(** One iteration of [for token, replicas in ring]. *)
Definition walk_step (w : walk) (item : Z * list replica) : walk :=
  let '(token, replicas) := item in
  let first := match first_range_data w with
               | None => Some (make_range_data replicas)
               | Some d => Some d
               end in
  if decide (Some token = min_token) then mkWalk (ranges w) first (previous w)
  else
    match make_range (previous w) (Some token) with
    | None => mkWalk (ranges w) first (previous w)
    | Some current_range =>
        mkWalk (<[current_range := make_range_data replicas]> (ranges w))
               first (Some token)
    end.

Definition walk_ring (ring : list (Z * list replica)) : walk :=
  fold_left walk_step ring (mkWalk ∅ None None).

(** The last ring interval, queried on the replicas of the first token. *)
Definition wrap_around (w : walk) : gmap token_range range_info :=
  match previous w, first_range_data w with
  | Some p, Some d =>
      if negb (truthy end_token) || py_lt (Some p) end_token
      then <[(Some p, end_token) := d]> (ranges w)
      else ranges w
  | _, _ => ranges w
  end.

(** [get_ranges]: the dictionary of ranges and the errors printed.
    [token_map] tells whether the driver metadata has a token map and
    [ring] is the keyspace's ring as the shell returns it. *)
Definition get_ranges (token_map : bool) (ring : list (Z * list replica))
    : gmap token_range range_info * list range_error :=
  if truthy begin_token && py_lt begin_token min_token
  then (∅, [BeginBelowMin begin_token min_token])
  else if truthy begin_token && truthy end_token && py_lt end_token begin_token
  then (∅, [BeginAfterEnd begin_token end_token])
  else if negb token_map || negb (bool_decide (is_Some min_token))
  then ({[ (begin_token, end_token) := make_range_data [] ]}, [])
  else
    let result :=
      match ring_sort ring with
      | [] => {[ (begin_token, end_token) := make_range_data [] ]}
      | [item] => {[ (begin_token, end_token) := make_range_data item.2 ]}
      | sorted => wrap_around (walk_ring sorted)
      end in
    (result,
     match map_to_list result with
     | [] => [NoRangesFound begin_token end_token]
     | _ => []
     end).

End GetRanges.

(** The tokens a range selects: the export worker queries
    [token(pk) > from AND token(pk) <= to], dropping a bound that is [None]. *)
Definition in_range (r : token_range) (t : Z) : Prop :=
  match r.1 with Some lo => lo < t | None => True end /\
  match r.2 with Some hi => t <= hi | None => True end.

Definition in_rangeb (r : token_range) (t : Z) : bool :=
  match r.1 with Some lo => lo <? t | None => true end &&
  match r.2 with Some hi => t <=? hi | None => true end.

(** A token is covered by a dictionary of ranges when one of its keys
    selects it. *)
Definition covered (m : gmap token_range range_info) (t : Z) : Prop :=
  exists r d, m !! r = Some d /\ in_range r t.

Definition coveredb (m : gmap token_range range_info) (t : Z) : bool :=
  existsb (fun kv => in_rangeb kv.1 t) (map_to_list m).

(** The window the options ask for, [(begintoken, endtoken]]: an option
    that is unset does not restrict. *)
Definition window (begin_token end_token : option Z) : token_range :=
  (begin_token, end_token).

(** The bounds that [make_range] applies: it tests each bound by its truth
    value, so a bound that is unset, or zero, does not restrict. *)
Definition applied_window (begin_token end_token : option Z) : token_range :=
  (if truthy begin_token then begin_token else None,
   if truthy end_token then end_token else None).

(** *** A three-token Murmur3 ring *)

Definition murmur3 : string := "org.apache.cassandra.dht.Murmur3Partitioner".
Definition node1 : replica := mkReplica "10.0.0.1" true "dc1".
Definition ring_5_10_20 : list (Z * list replica) :=
  [(5, [node1]); (10, [node1]); (20, [node1])].

Definition ring_5_10 : list (Z * list replica) := [(5, [node1]); (10, [node1])].

(** *** export_records: dispatch and retry bookkeeping *)

(** The second component of a message from a worker: [None], an exception,
    or a chunk of CSV data with its number of rows. *)
Inductive result :=
| Finished
| Failure (error : string)
| Partial (data : string) (num : Z).

Definition message : Type := option token_range * result.

(** The coordinator's variables: the dictionary of ranges, what was sent on
    which worker channel, what went to the writer, the meter's count and the
    two counters of finished requests. *)
Record coordinator := mkCoordinator {
  range_map : gmap token_range range_info;
  sent : list (Z * (token_range * range_info));
  written : list (string * Z);
  exported : Z;
  succeeded : Z;
  failed : Z
}.

Definition bump_attempts (d : range_info) : range_info :=
  mkRangeInfo (hosts d) (attempts d + 1) (rows d).

Definition add_rows (num : Z) (d : range_info) : range_info :=
  mkRangeInfo (hosts d) (attempts d) (rows d + num).

Section Coordinator.

Variables (max_attempts num_processes : Z).

(** [send_work]: the range goes out with its dictionary as it is at that
    moment, then its [attempts] is incremented; [i] walks round the
    channels. *)
Fixpoint send_work_from (i : Z) (tokens_to_send : list token_range)
    (c : coordinator) : res coordinator :=
  match tokens_to_send with
  | [] => Ok c
  | token_range :: rest =>
      if negb (i <? num_processes) then Raise "IndexError" "list index out of range"
      else
        match range_map c !! token_range with
        | None => Raise "KeyError" ""
        | Some d =>
            send_work_from (if i <? num_processes - 1 then i + 1 else 0) rest
              (mkCoordinator (<[token_range := bump_attempts d]> (range_map c))
                             (sent c ++ [(i, (token_range, d))])
                             (written c) (exported c) (succeeded c) (failed c))
        end
  end.

Definition send_work (tokens_to_send : list token_range) (c : coordinator)
    : res coordinator :=
  send_work_from 0 tokens_to_send c.

(** The body of [for token_range, result in self.inmsg.recv(...)]. *)
Definition handle_result (c : coordinator) (m : message) : res coordinator :=
  match m with
  | (None, Finished) =>
      Ok (mkCoordinator (range_map c) (sent c) (written c) (exported c)
                        (succeeded c + 1) (failed c))
  | (None, Failure _) => Ok c
  | (Some token_range, Failure _) =>
      match range_map c !! token_range with
      | None => Raise "KeyError" ""
      | Some d =>
          if (attempts d <? max_attempts) && (rows d =? 0)
          then send_work [token_range] c
          else Ok (mkCoordinator (range_map c) (sent c) (written c) (exported c)
                                 (succeeded c) (failed c + 1))
      end
  | (Some _, Finished) => Raise "TypeError" "'NoneType' object is not iterable"
  | (None, Partial _ _) => Raise "KeyError" ""
  | (Some token_range, Partial data num) =>
      match range_map c !! token_range with
      | None => Raise "KeyError" ""
      | Some d =>
          Ok (mkCoordinator (<[token_range := add_rows num d]> (range_map c))
                            (sent c) (written c ++ [(data, num)]) (exported c + num)
                            (succeeded c) (failed c))
      end
  end.

(** The messages of one [recv], in order. *)
Fixpoint handle_results (c : coordinator) (ms : list message) : res coordinator :=
  match ms with
  | [] => Ok c
  | m :: rest =>
      match handle_result c m with
      | Ok c' => handle_results c' rest
      | Raise e t => Raise e t
      end
  end.

(** The receive loop: each element of [batches] is what one [recv] returns
    together with whether all worker processes were alive when the loop
    condition was tested. *)
Fixpoint receive_loop (total_requests : Z) (batches : list (bool * list message))
    (c : coordinator) : res coordinator :=
  match batches with
  | [] => Ok c
  | (alive, ms) :: rest =>
      if (failed c + succeeded c <? total_requests) && alive then
        match handle_results c ms with
        | Ok c' => receive_loop total_requests rest c'
        | Raise e t => Raise e t
        end
      else Ok c
  end.

Definition export_records (ranges : gmap token_range range_info)
    (batches : list (bool * list message)) : res coordinator :=
  let total_requests := Z.of_nat (size ranges) in
  match send_work (map_to_list ranges).*1 (mkCoordinator ranges [] [] 0 0 0) with
  | Ok c => receive_loop total_requests batches c
  | Raise e t => Raise e t
  end.

End Coordinator.

(** Every range keeps its entry and its [attempts] does not go down. *)
Definition attempts_le (m m' : gmap token_range range_info) : Prop :=
  forall r d, m !! r = Some d -> exists d', m' !! r = Some d' /\ attempts d <= attempts d'.

(** What the coordinator has sent since an earlier state: only ranges that
    had no rows and attempts left when they went out. *)
Definition resent_only_without_rows (max_attempts : Z) (c c' : coordinator) : Prop :=
  exists new, sent c' = sent c ++ new /\
    forall i r d, (i, (r, d)) ∈ new -> rows d = 0 /\ attempts d < max_attempts.

(** A run on one range: the first attempt fails before any row arrived and
    is retried, the second delivers two rows and then fails for good. *)
Definition whole_ring : token_range := (None, None).
Definition one_range : gmap token_range range_info :=
  {[ whole_ring := mkRangeInfo ["10.0.0.1"] 0 0 ]}.
Definition one_range_run : list (bool * list message) :=
  [(true, [(Some whole_ring, Failure "timeout")]);
   (true, [(Some whole_ring, Partial "1,a" 2); (Some whole_ring, Failure "timeout")])].

End ExportTask.

(** ** FilesReader and PipeReader *)

(** A call that mutates the object it is called on and may raise: the
    object's new state is there in both cases. *)
Definition effect (S A : Type) : Type := res A * S.

Module FilesReader.

(** An open file: its lines still to be read. *)
Definition source : Type := list string.

(** [sources] is what the generator of [get_source] has yet to yield; a
    file that could not be opened is yielded as [None]. *)
Record reader := mkReader {
  chunk_size : Z;
  header : bool;
  max_rows : Z;
  skip_rows : Z;
  sources : list (option source);
  num_sources : Z;
  current_source : option source;
  num_read : Z
}.

Definition set_source (r : reader) (srcs : list (option source)) (n : Z)
    (cur : option source) : reader :=
  mkReader (chunk_size r) (header r) (max_rows r) (skip_rows r) srcs n cur (num_read r).

Definition exhausted (r : reader) : bool :=
  match current_source r with Some _ => false | None => true end.

(** The [while self.current_source is None] loop of [next_source]. *)
Fixpoint open_next (srcs : list (option source)) (n : Z)
    : option source * list (option source) * Z :=
  match srcs with
  | [] => (None, [], n)
  | None :: rest => open_next rest n
  | Some f :: rest => (Some f, rest, n + 1)
  end.

(** [next_source]: [StopIteration] escapes when the header line of an empty
    file is asked for. *)
Definition next_source (r : reader) : effect reader bool :=
  let '(cur, rest, n) := open_next (sources r) (num_sources r) in
  match cur with
  | None => (Ok false, set_source r rest n None)
  | Some f =>
      if header r then
        match f with
        | [] => (Raise "StopIteration" "", set_source r rest n (Some []))
        | _ :: f' => (Ok true, set_source r rest n (Some f'))
        end
      else (Ok true, set_source r rest n (Some f))
  end.

Definition start (r : reader) : effect reader bool := next_source r.

Definition take_row (r : reader) (rest : source) : reader :=
  mkReader (chunk_size r) (header r) (max_rows r) (skip_rows r) (sources r)
           (num_sources r) (Some rest) (num_read r + 1).

(** The [for i in xrange(...)] loop of [read_rows]; [n] iterations are
    left and [rows] is the list built so far. *)
Fixpoint read_loop (n : nat) (r : reader) (rows : list string)
    : effect reader (list string) :=
  match n with
  | O => (Ok rows, r)
  | S n' =>
      match current_source r with
      | None => (Raise "AttributeError" "'NoneType' object has no attribute 'next'", r)
      | Some [] =>
          match next_source r with
          | (Ok _, r') => (Ok rows, r')
          | (Raise e m, r') => (Raise e m, r')
          end
      | Some (row :: rest) =>
          let r1 := take_row r rest in
          if (0 <=? max_rows r1) && (max_rows r1 <? num_read r1) then
            match next_source r1 with
            | (Ok _, r2) => (Ok rows, r2)
            | (Raise _ _, r2) =>
                match next_source r2 with
                | (Ok _, r3) => (Ok rows, r3)
                | (Raise e m, r3) => (Raise e m, r3)
                end
            end
          else if skip_rows r1 <? num_read r1 then read_loop n' r1 (rows ++ [row])
          else read_loop n' r1 rows
      end
  end.

(** [filter(None, rows)] drops the empty strings. *)
Definition nonempty (s : string) : bool := negb (String.eqb s "").

Definition read_rows (max_rows : Z) (r : reader) : effect reader (list string) :=
  match current_source r with
  | None => (Ok [], r)
  | Some _ =>
      match read_loop (Z.to_nat (Z.min max_rows (chunk_size r))) r [] with
      | (Ok rows, r') => (Ok (List.filter nonempty rows), r')
      | (Raise e m, r') => (Raise e m, r')
      end
  end.

End FilesReader.

Module PipeReader.

(** [inmsg] holds what the coordinator has sent on the pipe and the feeder has
    not received yet; a row travels as itself and the end of input as [None].
    Receiving on a pipe that is empty and closed raises [EOFError]. *)
Record reader := mkReader {
  inmsg : list (option string);
  chunk_size : Z;
  header : bool;
  max_rows : Z;
  skip_rows : Z;
  num_read : Z;
  exhausted : bool;
  num_sources : Z
}.

Definition start (r : reader) : reader := r.

Fixpoint read_loop (n : nat) (r : reader) (rows : list string)
    : effect reader (list string) :=
  match n with
  | O => (Ok rows, r)
  | S n' =>
      match inmsg r with
      | [] => (Raise "EOFError" "", r)
      | None :: rest =>
          (Ok rows, mkReader rest (chunk_size r) (header r) (max_rows r) (skip_rows r)
                             (num_read r) true (num_sources r))
      | Some row :: rest =>
          let n1 := num_read r + 1 in
          if (0 <=? max_rows r) && (max_rows r <? n1) then
            (Ok rows, mkReader rest (chunk_size r) (header r) (max_rows r) (skip_rows r)
                               n1 true (num_sources r))
          else if header r || (n1 <? skip_rows r) then
            read_loop n' (mkReader rest (chunk_size r) false (max_rows r) (skip_rows r)
                                   n1 (exhausted r) (num_sources r)) rows
          else
            read_loop n' (mkReader rest (chunk_size r) (header r) (max_rows r) (skip_rows r)
                                   n1 (exhausted r) (num_sources r)) (rows ++ [row])
      end
  end.

Definition read_rows (max_rows : Z) (r : reader) : effect reader (list string) :=
  read_loop (Z.to_nat (Z.min max_rows (chunk_size r))) r [].

End PipeReader.

(** *** Sample readers *)

(** Three data rows, [skiprows = 2], no header, no row limit, read from a
    file and from the pipe. *)
Definition three_rows : list string := ["r1"; "r2"; "r3"].

Definition files_skip2 : FilesReader.reader :=
  FilesReader.mkReader 5000 false (-1) 2 [] 1 (Some three_rows) 0.

Definition pipe_skip2 : PipeReader.reader :=
  PipeReader.mkReader (List.map Some three_rows ++ [None]) 5000 false (-1) 2 0 false 1.

Definition pipe_header_skip2 : PipeReader.reader :=
  PipeReader.mkReader (Some "id,name" :: List.map Some three_rows ++ [None])
                      5000 true (-1) 2 0 false 1.

(** ** RateMeter, as the feeder uses it *)

Module RateMeter.

(** The counters of the meter.  The clock is outside the model: each call
    of [maybe_update] is told whether [update_interval] has elapsed since the
    last checkpoint.  The feeder's meter has no log function. *)
Record meter := mkMeter {
  current_record : Z;
  total_records : Z
}.

Definition update (m : meter) : meter :=
  mkMeter 0 (total_records m + current_record m).

Definition maybe_update (elapsed : bool) (m : meter) : meter :=
  if current_record m =? 0 then m
  else if elapsed then update m
  else m.

Definition increment (n : Z) (elapsed : bool) (m : meter) : meter :=
  maybe_update elapsed (mkMeter (current_record m + n) (total_records m)).

End RateMeter.

(** ** FeedingProcess *)

(** A converted column value, as far as the accounting looks at it. *)
Inductive cqlval :=
| VInt (n : Z)
| VText (s : string)
| VBool (b : bool).

(** The values a chunk dictionary holds: integers, and under ['rows'] the
    raw lines the feeder read or, in the worker, the converted rows. *)
Inductive pyval :=
| PInt (n : Z)
| PLines (lines : list string)
| PRows (converted : list (list cqlval)).

Module FeedingProcess.

(** Either reader, behind the interface the feeder uses. *)
Inductive reader :=
| Files (r : FilesReader.reader)
| Pipe (r : PipeReader.reader).

Definition reader_exhausted (rd : reader) : bool :=
  match rd with
  | Files r => FilesReader.exhausted r
  | Pipe r => PipeReader.exhausted r
  end.

Definition reader_chunk_size (rd : reader) : Z :=
  match rd with
  | Files r => FilesReader.chunk_size r
  | Pipe r => PipeReader.chunk_size r
  end.

Definition reader_num_sources (rd : reader) : Z :=
  match rd with
  | Files r => FilesReader.num_sources r
  | Pipe r => PipeReader.num_sources r
  end.

Definition reader_skip_rows (rd : reader) : Z :=
  match rd with
  | Files r => FilesReader.skip_rows r
  | Pipe r => PipeReader.skip_rows r
  end.

Definition reader_start (rd : reader) : effect reader bool :=
  match rd with
  | Files r => let '(x, r') := FilesReader.start r in (x, Files r')
  | Pipe r => (Ok true, Pipe (PipeReader.start r))
  end.

Definition reader_read_rows (max_rows : Z) (rd : reader) : effect reader (list string) :=
  match rd with
  | Files r => let '(x, r') := FilesReader.read_rows max_rows r in (x, Files r')
  | Pipe r => let '(x, r') := PipeReader.read_rows max_rows r in (x, Pipe r')
  end.

(** What the feeder sends to the parent process. *)
Inductive parent_message :=
| TaskError (name msg : string)
| FeedingProcessResult (sent num_sources skip_rows : Z).

(** The feeder: its reader, meter and chunk counter, the local variable
    [sent] of [inner_run], the chunks put on the worker channels (with the
    index of the channel), the messages put on [outmsg] and the number of
    times the meter has been asked to update. *)
Record feeder := mkFeeder {
  the_reader : reader;
  send_meter : RateMeter.meter;
  ingest_rate : Z;
  chunk_id : Z;
  sent : Z;
  worker_channels : list (nat * gmap string pyval);
  outmsg : list parent_message;
  clock_reads : nat
}.

Section Feeder.

(** [clock n] tells whether the meter's update interval has elapsed when
    the meter is asked for the [n]-th time. *)
Variable clock : nat -> bool.

(** [send_chunk]: the dictionary put on channel [ch]. *)
Definition send_chunk (ch : nat) (rows : list string) (f : feeder) : Z * feeder :=
  let chunk_id' := chunk_id f + 1 in
  let num_rows := len rows in
  let meter' := RateMeter.increment num_rows (clock (clock_reads f)) (send_meter f) in
  (num_rows,
   mkFeeder (the_reader f) meter' (ingest_rate f) chunk_id' (sent f)
     (worker_channels f ++
        [(ch, {[ "id" := PInt chunk_id'; "rows" := PLines rows; "imported" := PInt 0 ]})])
     (outmsg f) (S (clock_reads f))).

(** The body of [for ch in channels]; the boolean tells whether the loop
    is left through [break]. *)
Definition feed_channel (ch : nat) (f : feeder) : bool * feeder :=
  let max_rows := ingest_rate f - RateMeter.current_record (send_meter f) in
  if max_rows <=? 0 then
    (false,
     mkFeeder (the_reader f)
       (RateMeter.maybe_update (clock (clock_reads f)) (send_meter f))
       (ingest_rate f) (chunk_id f) (sent f) (worker_channels f) (outmsg f)
       (S (clock_reads f)))
  else
    let '(x, rd) := reader_read_rows max_rows (the_reader f) in
    let f1 := mkFeeder rd (send_meter f) (ingest_rate f) (chunk_id f) (sent f)
                (worker_channels f) (outmsg f) (clock_reads f) in
    let f2 :=
      match x with
      | Ok [] => f1
      | Ok rows =>
          let '(num_rows, f') := send_chunk ch rows f1 in
          mkFeeder (the_reader f') (send_meter f') (ingest_rate f') (chunk_id f')
            (sent f' + num_rows) (worker_channels f') (outmsg f') (clock_reads f')
      | Raise e m =>
          mkFeeder rd (send_meter f) (ingest_rate f) (chunk_id f) (sent f)
            (worker_channels f) (outmsg f ++ [TaskError e m]) (clock_reads f)
      end in
    (reader_exhausted (the_reader f2), f2).

Fixpoint feed_channels (channels : list nat) (f : feeder) : feeder :=
  match channels with
  | [] => f
  | ch :: rest =>
      let '(stop, f') := feed_channel ch f in
      if stop then f' else feed_channels rest f'
  end.

(** [rounds] turns of [while not reader.exhausted], over the worker
    channels [0 .. num_channels - 1]. *)
Fixpoint feed_rounds (rounds : nat) (num_channels : nat) (f : feeder) : feeder :=
  match rounds with
  | O => f
  | S n =>
      if reader_exhausted (the_reader f) then f
      else feed_rounds n num_channels (feed_channels (seq 0 num_channels) f)
  end.

(** [inner_run] with a bound on the turns of the outer loop: [None] when
    the reader is not exhausted within the bound.  An exception of
    [reader.start()] ends the process without a result. *)
Definition inner_run (rounds : nat) (num_channels : nat) (f : feeder)
    : option (res feeder) :=
  match reader_start (the_reader f) with
  | (Raise e m, _) => Some (Raise e m)
  | (Ok _, rd) =>
      let f0 := mkFeeder rd (send_meter f) (ingest_rate f) (chunk_id f) 0
                  (worker_channels f) (outmsg f) (clock_reads f) in
      let f1 := feed_rounds rounds num_channels f0 in
      if reader_exhausted (the_reader f1) then
        Some (Ok (mkFeeder (the_reader f1) (send_meter f1) (ingest_rate f1) (chunk_id f1)
                    (sent f1) (worker_channels f1)
                    (outmsg f1 ++ [FeedingProcessResult (sent f1)
                                     (reader_num_sources (the_reader f1))
                                     (reader_skip_rows (the_reader f1))])
                    (clock_reads f1)))
      else None
  end.

End Feeder.

(** [FeedingProcess.__init__]. *)
Definition new_feeder (rd : reader) (ingest_rate : Z) : feeder :=
  mkFeeder rd (RateMeter.mkMeter 0 0) ingest_rate 0 0 [] [] 0.

(** The dictionary literal of [send_chunk]. *)
Definition chunk_of (id : Z) (rows : list string) : gmap string pyval :=
  {[ "id" := PInt id; "rows" := PLines rows; "imported" := PInt 0 ]}.

(** *** The log of chunks sent *)

(** The chunk counter is the number of chunks sent, and the chunk at
    position [i] of the log is the dictionary with identifier [i + 1], a
    non-empty list of rows and [imported = 0]. *)
Definition numbered (f : feeder) : Prop :=
  chunk_id f = len (worker_channels f) /\
  forall i ch c, worker_channels f !! i = Some (ch, c) ->
    exists rows, c = chunk_of (Z.of_nat i + 1) rows /\ rows <> [].

(** A file of three rows fed in chunks of two to a single worker. *)
Definition files_abc : reader :=
  Files (FilesReader.mkReader 2 false (-1) 0 [] 1 (Some ["a"; "b"; "c"]) 0).

Definition never_elapsed : nat -> bool := fun _ => false.

End FeedingProcess.

(** ** ImportProcess: conversion, batching and chunk accounting *)

Module ImportProcess.

(** The rows an error report or a callback carries: raw lines, rows as the
    CSV reader split them, or converted rows. *)
Inductive payload :=
| RawLines (l : list string)
| ParsedRows (l : list row)
| ConvertedRows (l : list (list cqlval)).

Definition payload_len (p : payload) : Z :=
  match p with
  | RawLines l => len l
  | ParsedRows l => len l
  | ConvertedRows l => len l
  end.

(** What the worker puts on its [outmsg] channel. *)
Inductive worker_message :=
| ImportProcessResult (imported : Z)
| ImportTaskError (name msg : string) (rows : payload) (attempts : Z) (final : bool).

(** [make_batch]. *)
Record batch := mkBatch {
  batch_id : pyval;
  batch_rows : list (list cqlval);
  batch_attempts : Z
}.

(** A request handed to the driver through [execute_async], with the
    arguments of its two callbacks: the batch, the chunk (by reference) and
    the replicas. *)
Record request := mkRequest {
  req_batch : batch;
  req_chunk : nat;
  req_replicas : list string
}.

(** The worker: the chunk dictionaries it holds, by reference (callbacks
    and [inner_run] share them), the requests in flight and the messages
    sent. *)
Record worker := mkWorker {
  chunks : list (gmap string pyval);
  inflight : list request;
  outmsg : list worker_message
}.

(** Computations that change the worker and may raise; what was done before
    the exception stays done. *)
Definition M (A : Type) : Type := worker -> res A * worker.

Definition ret {A} (a : A) : M A := fun w => (Ok a, w).

Definition bind {A B} (m : M A) (k : A -> M B) : M B :=
  fun w => match m w with
           | (Ok a, w') => k a w'
           | (Raise e t, w') => (Raise e t, w')
           end.

Definition raise {A} (e t : string) : M A := fun w => (Raise e t, w).

(** [try: m except Exception, exc: handler(exc)]. *)
Definition try_except {A} (m : M A) (handler : string -> string -> M A) : M A :=
  fun w => match m w with
           | (Ok a, w') => (Ok a, w')
           | (Raise e t, w') => handler e t w'
           end.

#[local] Instance M_ret : MRet M := @ret.
#[local] Instance M_bind : MBind M := fun A B k m => bind m k.

Definition send (m : worker_message) : M unit :=
  fun w => (Ok tt, mkWorker (chunks w) (inflight w) (outmsg w ++ [m])).

Definition get_chunk (ref : nat) : M (gmap string pyval) :=
  fun w => match chunks w !! ref with
           | Some c => (Ok c, w)
           | None => (Raise "ReferenceError" "", w)
           end.

Definition set_chunk (ref : nat) (c : gmap string pyval) : M unit :=
  fun w => (Ok tt, mkWorker (<[ref := c]> (chunks w)) (inflight w) (outmsg w)).

Definition execute_async (r : request) : M unit :=
  fun w => (Ok tt, mkWorker (chunks w) (inflight w ++ [r]) (outmsg w)).

(** [chunk[key]]. *)
Definition getitem (c : gmap string pyval) (key : string) : M pyval :=
  match c !! key with
  | Some v => ret v
  | None => raise "KeyError" key
  end.

(** [len(v)]. *)
Definition py_len (v : pyval) : M Z :=
  match v with
  | PLines l => ret (len l)
  | PRows l => ret (len l)
  | PInt _ => raise "TypeError" "object of type 'int' has no len()"
  end.

Definition as_int (v : pyval) : M Z :=
  match v with
  | PInt n => ret n
  | _ => raise "TypeError" "unsupported operand type(s) for +="
  end.

(** [update_chunk(rows, chunk)]. *)
Definition update_chunk (rows : payload) (ref : nat) : M unit :=
  c ← get_chunk ref;
  r ← getitem c "rows";
  num_chunk_rows ← py_len r;
  i ← getitem c "imported";
  imported ← as_int i;
  set_chunk ref (<["imported" := PInt (imported + payload_len rows)]> c);;
  if imported + payload_len rows =? num_chunk_rows
  then send (ImportProcessResult num_chunk_rows)
  else ret tt.

(** [report_error(err, chunk, rows, attempts, final)]. *)
Definition report_error (name msg : string) (ref : nat) (rows : payload)
    (attempts : Z) (final : bool) : M unit :=
  send (ImportTaskError name msg rows attempts final);;
  if final then update_chunk rows ref else ret tt.

(** A [defaultdict(list)], in the order in which its keys were first used. *)
Fixpoint group_append {K A} `{EqDecision K} (k : K) (a : A) (d : list (K * list A))
    : list (K * list A) :=
  match d with
  | [] => [(k, [a])]
  | (k', l) :: d' =>
      if decide (k = k') then (k', l ++ [a]) :: d' else (k', l) :: group_append k a d'
  end.

Fixpoint group_extend {K A} `{EqDecision K} (k : K) (l0 : list A) (d : list (K * list A))
    : list (K * list A) :=
  match d with
  | [] => [(k, l0)]
  | (k', l) :: d' =>
      if decide (k = k') then (k', l ++ l0) :: d' else (k', l) :: group_extend k l0 d'
  end.

(** [[rows[i:i + step] for i in xrange(0, len(rows), step)]] for a positive
    step. *)
Fixpoint slices_aux {A} (fuel : nat) (step : nat) (rows : list A) : list (list A) :=
  match fuel with
  | O => []
  | S fuel' =>
      match rows with
      | [] => []
      | _ => take step rows :: slices_aux fuel' step (drop step rows)
      end
  end.

(** The same for any step: none for a negative step, [ValueError] for 0. *)
Definition slices {A} (step : Z) (rows : list A) : M (list (list A)) :=
  if step =? 0 then raise "ValueError" "xrange() arg 3 must not be zero"
  else if step <? 0 then ret []
  else ret (slices_aux (length rows) (Z.to_nat step) rows).

Fixpoint for_each {A} (l : list A) (body : A -> M unit) : M unit :=
  match l with
  | [] => ret tt
  | a :: l' => body a;; for_each l' body
  end.

Section Worker.

(** Collaborators outside the module: the CSV reader with the dialect
    options, [conv.convert_row] (which raises [ParseError] only), the ring
    position of a converted row's partition key (the composition of
    [get_row_partition_key_values], [pk_to_token_value] and [get_ring_pos],
    any of which may raise), and the filtered replicas of a ring
    position. *)
Variable csv_reader : list string -> list row.
Variable convert_row : row -> res (list cqlval).
Variable ring_pos : list cqlval -> res nat.
Variable filter_replicas : nat -> list string.

Variable skip_column_indexes : list nat.
Variables (min_batch_size max_batch_size max_attempts : Z).

(** [[v for i, v in enumerate(row) if i not in self.skip_column_indexes]]. *)
Definition filter_row_values (r : row) : row :=
  List.map snd
    (List.filter (fun iv => negb (bool_decide (iv.1 ∈ skip_column_indexes)))
                 (imap (fun i v => (i, v)) r)).

(** The list comprehension over [convert_row] with its [errors]
    dictionary: the converted rows (empty ones are dropped by
    [filter(None, ...)]) and the failed rows by message. *)
Fixpoint convert_all (rows : list row) (errors : list (string * list row))
    : res (list (list cqlval) * list (string * list row)) :=
  match rows with
  | [] => Ok ([], errors)
  | r :: rest =>
      match convert_row r with
      | Ok [] => convert_all rest errors
      | Ok v =>
          match convert_all rest errors with
          | Ok (vs, errs) => Ok (v :: vs, errs)
          | Raise e t => Raise e t
          end
      | Raise e t =>
          if String.eqb e "ParseError" then convert_all rest (group_append t r errors)
          else Raise e t
      end
  end.

(** [convert_rows(conv, chunk)]. *)
Definition convert_rows (ref : nat) : M (list (list cqlval)) :=
  c ← get_chunk ref;
  raw ← getitem c "rows";
  lines ← match raw with
           | PLines l => ret l
           | _ => raise "Error" "expected an iterable of strings"
           end;
  let rows := match skip_column_indexes with
              | [] => csv_reader lines
              | _ => List.map filter_row_values (csv_reader lines)
              end in
  match convert_all rows [] with
  | Raise e t => raise e t
  | Ok (converted_rows, errors) =>
      for_each errors (fun '(msg, rows) =>
        send (ImportTaskError "ParseError" msg (ParsedRows rows) 1 true);;
        update_chunk (ParsedRows rows) ref);;
      ret converted_rows
  end.

(** The first loop of [split_into_batches]: rows by ring position, and
    the rows whose partition key could not be placed, by message. *)
Fixpoint route_rows (rows : list (list cqlval))
    (rows_by_ring_pos : list (nat * list (list cqlval)))
    (errors : list (string * list (list cqlval)))
    : list (nat * list (list cqlval)) * list (string * list (list cqlval)) :=
  match rows with
  | [] => (rows_by_ring_pos, errors)
  | r :: rest =>
      match ring_pos r with
      | Ok pos => route_rows rest (group_append pos r rows_by_ring_pos) errors
      | Raise _ t => route_rows rest rows_by_ring_pos (group_append t r errors)
      end
  end.

Definition make_batch (batch_id : pyval) (rows : list (list cqlval)) : batch :=
  mkBatch batch_id rows 1.

(** The loop over [rows_by_ring_pos]: a group of more than
    [min_batch_size] rows is sliced and sent to all replicas of its ring
    position, a smaller one is pooled under its first replica. *)
Fixpoint batches_by_ring_pos (id : pyval) (groups : list (nat * list (list cqlval)))
    (rows_by_replica : list (list string * list (list cqlval)))
    : M (list (list string * batch) * list (list string * list (list cqlval))) :=
  match groups with
  | [] => mret ([], rows_by_replica)
  | (pos, rows) :: rest =>
      if min_batch_size <? len rows then
        parts ← slices max_batch_size rows;
        '(more, by_replica) ← batches_by_ring_pos id rest rows_by_replica;
        mret (List.map (fun part => (filter_replicas pos, make_batch id part)) parts ++ more,
              by_replica)
      else
        batches_by_ring_pos id rest
          (group_extend (take 1 (filter_replicas pos)) rows rows_by_replica)
  end.

Fixpoint batches_by_replica (id : pyval)
    (groups : list (list string * list (list cqlval))) : M (list (list string * batch)) :=
  match groups with
  | [] => mret []
  | (replicas, rows) :: rest =>
      parts ← slices max_batch_size rows;
      more ← batches_by_replica id rest;
      mret (List.map (fun part => (replicas, make_batch id part)) parts ++ more)
  end.

(** [split_into_batches(chunk, conv, tm)]: the batches in the order in
    which the generator yields them. *)
Definition split_into_batches (ref : nat) : M (list (list string * batch)) :=
  c ← get_chunk ref;
  rows ← getitem c "rows";
  converted ← match rows with
              | PRows l => mret l
              | _ => raise "TypeError" "rows are not converted"
              end;
  let '(rows_by_ring_pos, errors) := route_rows converted [] [] in
  for_each errors (fun '(msg, rows) =>
    send (ImportTaskError "ParseError" msg (ConvertedRows rows) 1 true);;
    update_chunk (ConvertedRows rows) ref);;
  id ← getitem c "id";
  '(first, rows_by_replica) ← batches_by_ring_pos id rows_by_ring_pos [];
  second ← batches_by_replica id rows_by_replica;
  mret (first ++ second).

Definition as_payload (v : pyval) : payload :=
  match v with
  | PLines l => RawLines l
  | PRows l => ConvertedRows l
  | PInt _ => RawLines []
  end.

(** The body of the [while True] loop of [inner_run] for a chunk just
    received: the dictionary is stored, converted, split and submitted. *)
Definition receive_chunk (chunk : gmap string pyval) : M unit :=
  ref ← (fun w => (Ok (length (chunks w)),
                   mkWorker (chunks w ++ [chunk]) (inflight w) (outmsg w)));
  try_except
    (converted ← convert_rows ref;
     c ← get_chunk ref;
     set_chunk ref (<["rows" := PRows converted]> c);;
     batches ← split_into_batches ref;
     for_each batches (fun '(replicas, b) => execute_async (mkRequest b ref replicas)))
    (fun e t =>
       c ← get_chunk ref;
       rows ← getitem c "rows";
       report_error e t ref (as_payload rows) 1 true).

Definition result_callback (r : request) : M unit :=
  update_chunk (ConvertedRows (batch_rows (req_batch r))) (req_chunk r).

Definition err_callback (name msg : string) (r : request) : M unit :=
  let b := req_batch r in
  let err_is_final := max_attempts <=? batch_attempts b in
  report_error name msg (req_chunk r) (ConvertedRows (batch_rows b))
               (batch_attempts b) err_is_final;;
  if err_is_final then mret tt
  else execute_async
         (mkRequest (mkBatch (batch_id b) (batch_rows b) (batch_attempts b + 1))
                    (req_chunk r) (req_replicas r)).

(** What the driver does with a request in flight: it answers the
    [i]-th one with a result or with an error, and the matching callback
    runs. *)
Inductive completion :=
| Succeeded (i : nat)
| Failed (i : nat) (name msg : string).

Definition take_request (i : nat) : M request :=
  fun w => match inflight w !! i with
           | Some r => (Ok r, mkWorker (chunks w) (delete i (inflight w)) (outmsg w))
           | None => (Raise "LookupError" "no such request", w)
           end.

Definition complete (ev : completion) : M unit :=
  match ev with
  | Succeeded i => r ← take_request i; result_callback r
  | Failed i name msg => r ← take_request i; err_callback name msg r
  end.

(** A worker that receives the chunks in order and then sees the
    completions in order. *)
Definition run (received : list (gmap string pyval)) (events : list completion) : M unit :=
  for_each received receive_chunk;;
  for_each events complete.

End Worker.

Definition new_worker : worker := mkWorker [] [] [].

(** *** A table [(id int, name text)] on a single-token ring *)

(** Fields of a line, split at commas (no quoting in these rows). *)
Fixpoint split_commas (s : string) (field : string) : list string :=
  match s with
  | EmptyString => [field]
  | String c s' =>
      if Ascii.eqb c "," then field :: split_commas s' EmptyString
      else split_commas s' (field ++ String c EmptyString)%string
  end.

Definition demo_csv_reader (lines : list string) : list row :=
  List.map (fun l => split_commas l EmptyString) lines.

Definition is_digit (c : ascii) : bool :=
  let n := nat_of_ascii c in (48 <=? n)%nat && (n <=? 57)%nat.

Fixpoint parse_digits (s : string) (acc : Z) : option Z :=
  match s with
  | EmptyString => Some acc
  | String c s' =>
      if is_digit c then parse_digits s' (10 * acc + Z.of_nat (nat_of_ascii c - 48))
      else None
  end.

(** [int(s)] for a [str] in base 10: blanks around the number are
    skipped and a sign may come before the digits, of which there is at
    least one. *)
Definition is_blank (c : ascii) : bool :=
  let n := nat_of_ascii c in (n =? 32)%nat || ((9 <=? n)%nat && (n <=? 13)%nat).

Fixpoint lstrip (s : string) : string :=
  match s with
  | String c s' => if is_blank c then lstrip s' else s
  | EmptyString => EmptyString
  end.

Fixpoint rstrip (s : string) : string :=
  match s with
  | EmptyString => EmptyString
  | String c s' =>
      match rstrip s' with
      | EmptyString => if is_blank c then EmptyString else String c EmptyString
      | t => String c t
      end
  end.

Definition parse_number (d : string) : option Z :=
  match d with
  | EmptyString => None
  | _ => parse_digits d 0
  end.

Definition py_int (s : string) : option Z :=
  match rstrip (lstrip s) with
  | String "-" d => option_map Z.opp (parse_number d)
  | String "+" d => parse_number d
  | d => parse_number d
  end.

(** [convert_row] for the two columns, with prepared statements and the
    default [nullval] (the empty string): the row length is checked, then the
    primary key [id] against [nullval]; the first column goes through [int]
    and the second is text.  An exception of a converter becomes a
    [ParseError] with the same message. *)
Definition demo_convert_row (r : row) : res (list cqlval) :=
  match r with
  | [id; name] =>
      match id with
      | EmptyString =>
          Raise "ParseError"
            ("Cannot insert null value for primary key column 'id'."
             ++ " If you want to insert empty strings, consider using"
             ++ " the WITH NULL=<marker> option for COPY.")%string
      | _ =>
          match py_int id with
          | Some n => Ok [VInt n; VText name]
          | None =>
              Raise "ParseError"
                ("invalid literal for int() with base 10: " ++ py_repr id)%string
          end
      end
  | _ =>
      Raise "ParseError"
        ("Invalid row length " ++ pretty (len r) ++ " should be 2")%string
  end.

Definition demo_ring_pos (r : list cqlval) : res nat := Ok 0%nat.
Definition demo_filter_replicas (pos : nat) : list string := ["10.0.0.1"].

(** The worker with [minbatchsize = 10], [maxbatchsize = 20] and
    [maxattempts = 5], the defaults. *)
Definition demo_run (received : list (gmap string pyval)) (events : list completion)
    : worker :=
  (run demo_csv_reader demo_convert_row demo_ring_pos demo_filter_replicas
       [] 10 20 5 received events new_worker).2.

Definition chunk_all_good : gmap string pyval :=
  {[ "id" := PInt 1; "rows" := PLines ["1,a"; "2,b"; "3,c"]; "imported" := PInt 0 ]}.

Definition chunk_one_bad : gmap string pyval :=
  {[ "id" := PInt 1; "rows" := PLines ["1,a"; "x,b"; "3,c"]; "imported" := PInt 0 ]}.

End ImportProcess.

(** ** The timestamp converter of [ImportConversion._get_converter] *)

Module Timestamp.

(** [time.struct_time], the six fields [calendar.timegm] reads. *)
Record struct_time := mkTime {
  tm_year : Z;
  tm_mon : Z;
  tm_mday : Z;
  tm_hour : Z;
  tm_min : Z;
  tm_sec : Z
}.

(** *** calendar.timegm *)

Definition is_leap (year : Z) : bool :=
  (year mod 4 =? 0) && (negb (year mod 100 =? 0) || (year mod 400 =? 0)).

Definition days_before_year (year : Z) : Z :=
  let y := year - 1 in y * 365 + y / 4 - y / 100 + y / 400.

Definition days_before_month (year month : Z) : Z :=
  nth (Z.to_nat month) [0; 0; 31; 59; 90; 120; 151; 181; 212; 243; 273; 304; 334] 0
  + (if (2 <? month) && is_leap year then 1 else 0).

(** [datetime.date(year, month, 1).toordinal()]; the constructor rejects a
    year outside 1..9999 and a month outside 1..12. *)
Definition first_of_month_ordinal (year month : Z) : res Z :=
  if negb ((1 <=? year) && (year <=? 9999)) then Raise "ValueError" "year is out of range"
  else if negb ((1 <=? month) && (month <=? 12)) then Raise "ValueError" "month must be in 1..12"
  else Ok (days_before_year year + days_before_month year month + 1).

Definition EPOCH_ORD : Z := 719163.

Definition timegm (t : struct_time) : res Z :=
  match first_of_month_ordinal (tm_year t) (tm_mon t) with
  | Raise e m => Raise e m
  | Ok ord =>
      let days := ord - EPOCH_ORD + tm_mday t - 1 in
      let hours := days * 24 + tm_hour t in
      let minutes := hours * 60 + tm_min t in
      Ok (minutes * 60 + tm_sec t)
  end.

(** *** The compiled pattern [p] *)

Definition is_digit (c : ascii) : bool :=
  let n := nat_of_ascii c in (48 <=? n)%nat && (n <=? 57)%nat.

(** [\s]: space, tab, line feed, vertical tab, form feed, carriage return. *)
Definition is_space (c : ascii) : bool :=
  let n := nat_of_ascii c in (n =? 32)%nat || ((9 <=? n)%nat && (n <=? 13)%nat).

(** [\d{n}]: the digits matched and the rest of the input. *)
Fixpoint digits (n : nat) (s : string) : option (string * string) :=
  match n with
  | O => Some (EmptyString, s)
  | S n' =>
      match s with
      | String c s' =>
          if is_digit c then
            match digits n' s' with
            | Some (d, rest) => Some (String c d, rest)
            | None => None
            end
          else None
      | EmptyString => None
      end
  end.

(** A literal character. *)
Definition lit (c : ascii) (s : string) : option string :=
  match s with
  | String c' s' => if Ascii.eqb c c' then Some s' else None
  | EmptyString => None
  end.

(** An optional literal character, taken when it is there. *)
Definition opt_lit (c : ascii) (s : string) : string :=
  match lit c s with Some s' => s' | None => s end.

(** [int(s)] on a string of digits. *)
Fixpoint int_of_digits (s : string) (acc : Z) : Z :=
  match s with
  | EmptyString => acc
  | String c s' => int_of_digits s' (10 * acc + Z.of_nat (nat_of_ascii c - 48))
  end.

(** The groups of a match; groups 4 to 9 are [None] when their optional
    part did not take part in the match. *)
Record groups := mkGroups {
  g1 : string; g2 : string; g3 : string;
  g4 : option string; g5 : option string; g6 : option string;
  g7 : option string; g8 : option string; g9 : option string
}.

(** [(\d{4})\-(\d{2})\-(\d{2})] *)
Definition match_date (s : string) : option (string * string * string * string) :=
  match digits 4 s with
  | Some (y, s1) =>
      match lit "-" s1 with
      | Some s2 =>
          match digits 2 s2 with
          | Some (m, s3) =>
              match lit "-" s3 with
              | Some s4 =>
                  match digits 2 s4 with
                  | Some (d, s5) => Some (y, m, d, s5)
                  | None => None
                  end
              | None => None
              end
          | None => None
          end
      | None => None
      end
  | None => None
  end.

(** [\s?] *)
Definition skip_space (s : string) : string :=
  match s with
  | String c s' => if is_space c then s' else s
  | EmptyString => s
  end.

(** [(?:'T')?]: the letter T between two apostrophes. *)
Definition skip_quoted_T (s : string) : string :=
  match lit "'" s with
  | Some s1 =>
      match lit "T" s1 with
      | Some s2 => match lit "'" s2 with Some s3 => s3 | None => s end
      | None => s
      end
  | None => s
  end.

(** [(?:(\d{2}):(\d{2})(?::(\d{2}))?)?] *)
Definition match_time (s : string)
    : option string * option string * option string * string :=
  match digits 2 s with
  | Some (h, s1) =>
      match lit ":" s1 with
      | Some s2 =>
          match digits 2 s2 with
          | Some (mi, s3) =>
              match lit ":" s3 with
              | Some s4 =>
                  match digits 2 s4 with
                  | Some (sec, s5) => (Some h, Some mi, Some sec, s5)
                  | None => (Some h, Some mi, None, s3)
                  end
              | None => (Some h, Some mi, None, s3)
              end
          | None => (None, None, None, s)
          end
      | None => (None, None, None, s)
      end
  | None => (None, None, None, s)
  end.

(** [(?:([+\-])(\d{2}):?(\d{2}))?] *)
Definition match_zone (s : string)
    : option string * option string * option string * string :=
  match s with
  | String c s1 =>
      if Ascii.eqb c "+" || Ascii.eqb c "-" then
        match digits 2 s1 with
        | Some (h, s2) =>
            match digits 2 (opt_lit ":" s2) with
            | Some (m, s3) => (Some (String c EmptyString), Some h, Some m, s3)
            | None => (None, None, None, s)
            end
        | None => (None, None, None, s)
        end
      else (None, None, None, s)
  | EmptyString => (None, None, None, s)
  end.

(** [p.match(val)]: the pattern is tried at the start of the input and
    need not reach its end; the second component is what is left over. *)
Definition p_match (val : string) : option (groups * string) :=
  match match_date val with
  | None => None
  | Some (y, m, d, s1) =>
      let s2 := skip_quoted_T (skip_space s1) in
      let '(h, mi, sec, s3) := match_time s2 in
      let '(sign, zh, zm, s4) := match_zone s3 in
      Some (mkGroups y m d h mi sec sign zh zm, s4)
  end.

Section ConvertDatetime.

(** [time.strptime(val, self.time_format)] for the configured format, and
    [time.timezone], the local offset west of UTC in seconds. *)
Variable strptime : string -> res struct_time.
Variable time_format : string.
Variable timezone : Z.

Definition int_or_zero (g : option string) : Z :=
  match g with
  | Some d => int_of_digits d 0
  | None => 0
  end.

(** The fallback on the CQL formats, after the configured format failed. *)
Definition convert_with_pattern (val : string) : res Z :=
  match p_match val with
  | None =>
      Raise "ValueError"
        ("can't interpret " ++ py_repr val ++ " as a date, specified time format is "
         ++ time_format)%string
  | Some (m, _) =>
      let tval := mkTime (int_of_digits (g1 m) 0) (int_of_digits (g2 m) 0)
                         (int_of_digits (g3 m) 0)
                         (int_or_zero (g4 m)) (int_or_zero (g5 m)) (int_or_zero (g6 m)) in
      let offset :=
        match g7 m with
        | Some sign =>
            (int_or_zero (g8 m) * 3600 + int_or_zero (g9 m) * 60) *
            (if String.eqb sign "-" then -1 else 1)
        | None => - timezone
        end in
      match timegm tval with
      | Ok seconds => Ok ((seconds + offset) * 1000)
      | Raise e t => Raise e t
      end
  end.

(** [convert_datetime]: milliseconds since the epoch.  A [ValueError] of
    the first attempt leads to the pattern; any other exception leaves the
    converter. *)
Definition convert_datetime (val : string) : res Z :=
  let first :=
    match strptime val with
    | Ok tval =>
        match timegm tval with
        | Ok seconds => Ok (seconds * 1000)
        | Raise e t => Raise e t
        end
    | Raise e t => Raise e t
    end in
  match first with
  | Ok ms => Ok ms
  | Raise e t =>
      if String.eqb e "ValueError" then convert_with_pattern val else Raise e t
  end.

End ConvertDatetime.

(** With the shell's default format [%Y-%m-%d %H:%M:%S%z] the first attempt
    always fails: Python 2's [strptime] does not know [%z]. *)
Definition strptime_default (val : string) : res struct_time :=
  Raise "ValueError" "'z' is a bad directive in format '%Y-%m-%d %H:%M:%S%z'".

End Timestamp.

(** ** Further parts of the module *)

(** A list of tokens in strictly increasing order. *)
Fixpoint increasing (l : list Z) : Prop :=
  match l with
  | [] => True
  | x :: l' => Forall (Z.lt x) l' /\ increasing l'
  end.

(** ** ExportTask: what the ranges of a ring satisfy *)

Module ExportRanges.
Import ExportTask.

(** What holds of the loop variables during the walk over a ring in
    increasing order: the ranges so far select exactly the tokens within the
    bounds applied and up to [previous], no token is selected twice, and
    [previous] is at or above the lower bound applied. *)
Definition walk_inv (b e : option Z) (w : walk) : Prop :=
  (forall t, covered (ranges w) t <->
             in_range (applied_window b e) t /\
             exists p, previous w = Some p /\ t <= p) /\
  (forall r1 r2 t, is_Some (ranges w !! r1) -> is_Some (ranges w !! r2) ->
                   in_range r1 t -> in_range r2 t -> r1 = r2) /\
  (forall p lo, previous w = Some p -> (applied_window b e).1 = Some lo -> lo <= p) /\
  (previous w = None -> ranges w = ∅).

(** A range dictionary as [make_range_data] makes it for the replicas found
    in [ring]: no attempt and no row yet, and at least one host, each of
    them the shell's host or a replica of the ring that is up and in the
    local data centre. *)
Definition fresh_info (hostname local_dc : string) (ring : list (Z * list replica))
    (d : range_info) : Prop :=
  attempts d = 0 /\ rows d = 0 /\ hosts d <> [] /\
  forall a, a ∈ hosts d ->
    a = hostname \/
    exists item r, item ∈ ring /\ r ∈ item.2 /\ address r = a /\
                   is_up r = true /\ datacenter r = local_dc.

End ExportRanges.

(** ** ExportWriter *)

(** [s.split(sep)] for a non-empty separator: the pieces between the
    occurrences of [sep], found from left to right.  [skip] counts the
    characters of an occurrence still to be passed over and [piece] is the
    piece being read. *)
Fixpoint split_from (sep : string) (s : string) (skip : nat) (piece : string)
    : list string :=
  match s with
  | EmptyString => [piece]
  | String c s' =>
      match skip with
      | S k => split_from sep s' k piece
      | O =>
          if String.prefix sep s
          then piece :: split_from sep s' (String.length sep - 1) EmptyString
          else split_from sep s' 0 (piece ++ String c EmptyString)%string
      end
  end.

Definition py_split (s sep : string) : res (list string) :=
  match sep with
  | EmptyString => Raise "ValueError" "empty separator"
  | _ => Ok (split_from sep s 0 EmptyString)
  end.

Module ExportWriter.

(** Where the current destination writes: standard output, or the file
    opened last. *)
Inductive dest :=
| ToStdout
| ToFile.

(** The writer.  [files] lists the files opened so far, oldest first, each
    with the strings written to it; [on_stdout] is what went to standard
    output.  [split] tells which of the two write functions [__init__]
    chose, and [num_written] exists only then. *)
Record writer := mkWriter {
  fname : option string;
  header : bool;
  max_output_size : Z;
  split : bool;
  current_dest : option dest;
  num_files : Z;
  num_written : Z;
  files : list (string * list string);
  on_stdout : list string
}.

(** [ExportWriter.__init__]. *)
Definition init (fname : option string) (header : bool) (maxoutputsize : Z) : writer :=
  mkWriter fname header maxoutputsize
           ((0 <? maxoutputsize) && bool_decide (is_Some fname))
           None 0 0 [] [].

Section Writer.

(** Whether [open(name, 'wb')] succeeds, the header row as [csv.writer]
    formats it, and [os.linesep]. *)
Variable can_open : string -> bool.
Variable header_row : string.
Variable linesep : string.

(** [_get_dest(source_name)]: [None] when the file cannot be opened. *)
Definition _get_dest (source_name : string) (w : writer) : option dest * writer :=
  match fname w with
  | None => (Some ToStdout, w)
  | Some _ =>
      if can_open source_name then
        (Some ToFile,
         mkWriter (fname w) (header w) (max_output_size w) (split w) (current_dest w)
                  (num_files w + 1) (num_written w)
                  (files w ++ [(source_name, [])]) (on_stdout w))
      else (None, w)
  end.

Definition set_dest (d : option dest) (w : writer) : writer :=
  mkWriter (fname w) (header w) (max_output_size w) (split w) d
           (num_files w) (num_written w) (files w) (on_stdout w).

Definition _close_current_dest (w : writer) : writer :=
  match current_dest w with
  | Some ToFile => set_dest None w
  | _ => w
  end.

(** [self.current_dest.output.write(s)]. *)
Definition output_write (s : string) (w : writer) : effect writer unit :=
  match current_dest w with
  | None => (Raise "AttributeError" "'NoneType' object has no attribute 'output'", w)
  | Some ToStdout =>
      (Ok tt, mkWriter (fname w) (header w) (max_output_size w) (split w) (current_dest w)
                       (num_files w) (num_written w) (files w) (on_stdout w ++ [s]))
  | Some ToFile =>
      match reverse (files w) with
      | [] => (Raise "ValueError" "I/O operation on closed file", w)
      | (name, content) :: older =>
          (Ok tt, mkWriter (fname w) (header w) (max_output_size w) (split w)
                           (current_dest w) (num_files w) (num_written w)
                           (reverse older ++ [(name, content ++ [s])]) (on_stdout w))
      end
  end.

(** [open]: the first destination, with the header row when asked for. *)
Definition open (w : writer) : effect writer bool :=
  let '(d, w1) := _get_dest (default "" (fname w)) w in
  let w2 := set_dest d w1 in
  match d with
  | None => (Ok false, w2)
  | Some _ =>
      if header w2 then
        match output_write header_row w2 with
        | (Ok _, w3) => (Ok true, w3)
        | (Raise e m, w3) => (Raise e m, w3)
        end
      else (Ok true, w2)
  end.

(** [_next_dest]: the file [<fname>.<num_files>]. *)
Definition _next_dest (w : writer) : writer :=
  let w1 := _close_current_dest w in
  let '(d, w2) := _get_dest (default "" (fname w1) ++ "." ++ pretty (num_files w1))%string w1 in
  set_dest d w2.

Definition _write_without_split (data : string) (num : Z) (w : writer)
    : effect writer unit :=
  output_write data w.

(** The loop of [_write_with_split] over the rows from index [i] on; it
    returns [last_switch]. *)
Fixpoint split_loop (rows : list string) (i num_remaining last_switch : Z) (w : writer)
    : effect writer Z :=
  match rows with
  | [] => (Ok last_switch, w)
  | row :: rest =>
      let '(w1, last_switch1, num_remaining1) :=
        if i =? num_remaining
        then (_next_dest w, i, num_remaining + max_output_size w)
        else (w, last_switch, num_remaining) in
      match output_write (row ++ String "010"%char EmptyString)%string w1 with
      | (Ok _, w2) => split_loop rest (i + 1) num_remaining1 last_switch1 w2
      | (Raise e m, w2) => (Raise e m, w2)
      end
  end.

Definition set_num_written (n : Z) (w : writer) : writer :=
  mkWriter (fname w) (header w) (max_output_size w) (split w) (current_dest w)
           (num_files w) n (files w) (on_stdout w).

(** [filter(None, data.split(os.linesep))]. *)
Definition data_rows (data : string) : res (list string) :=
  match py_split data linesep with
  | Ok pieces => Ok (List.filter (fun s => negb (String.eqb s "")) pieces)
  | Raise e m => Raise e m
  end.

(** [_write_with_split(data, num)]. *)
Definition _write_with_split (data : string) (num : Z) (w : writer)
    : effect writer unit :=
  if max_output_size w <? num_written w + num then
    match data_rows data with
    | Raise e m => (Raise e m, w)
    | Ok rows =>
        match split_loop rows 0 (max_output_size w - num_written w) 0 w with
        | (Ok last_switch, w') => (Ok tt, set_num_written (num - last_switch) w')
        | (Raise e m, w') => (Raise e m, w')
        end
    end
  else
    output_write data (set_num_written (num_written w + num) w).

(** [self.write], as chosen at construction. *)
Definition write (data : string) (num : Z) (w : writer) : effect writer unit :=
  if split w then _write_with_split data num w
  else _write_without_split data num w.

End Writer.

(** The line written for a row, the pieces of [step] rows a list falls
    into, and the files [<fname>.<n>], [<fname>.<n+1>], ... holding them. *)
Definition row_line (row : string) : string :=
  (row ++ String "010"%char EmptyString)%string.

Definition pieces {A} (step : nat) (l : list A) : list (list A) :=
  ImportProcess.slices_aux (length l) step l.

Definition numbered_files (fname : string) (n : Z) (parts : list (list string))
    : list (string * list string) :=
  imap (fun j part => ((fname ++ "." ++ pretty (n + Z.of_nat j))%string, part)) parts.

(** A writer that has opened [out] for at most two rows per file, and three
    rows to write. *)
Definition newline : string := String "010"%char EmptyString.

Definition writer_out : writer :=
  mkWriter (Some "out") false 2 true (Some ToFile) 1 0 [("out", [])] [].

Definition three_lines : string :=
  ("1" ++ newline ++ "2" ++ newline ++ "3" ++ newline)%string.

End ExportWriter.

(** ** Reading a whole input *)

Module ReadAll.
Import FeedingProcess.

(** The number of rows either reader has read so far, and its [maxrows]. *)
Definition reader_num_read (rd : reader) : Z :=
  match rd with
  | Files r => FilesReader.num_read r
  | Pipe r => PipeReader.num_read r
  end.

Definition reader_max_rows (rd : reader) : Z :=
  match rd with
  | Files r => FilesReader.max_rows r
  | Pipe r => PipeReader.max_rows r
  end.

(** Successive calls of [read_rows], one for each element of [calls] (the
    [max_rows] argument of the call): all the rows returned, in order.  A
    call that raises returns nothing. *)
Fixpoint read_all (calls : list Z) (rd : reader) : list string * reader :=
  match calls with
  | [] => ([], rd)
  | max_rows :: rest =>
      let '(x, rd1) := reader_read_rows max_rows rd in
      let '(more, rd2) := read_all rest rd1 in
      (match x with Ok rows => rows ++ more | Raise _ _ => more end, rd2)
  end.

End ReadAll.

(** ** The feeder's accounts *)

Module FeederAccounts.
Import FeedingProcess.

(** [len(chunk['rows'])], and the rows in all chunks sent so far. *)
Definition chunk_num_rows (c : gmap string pyval) : Z :=
  match c !! "rows" with
  | Some (PLines l) => len l
  | Some (PRows l) => len l
  | _ => 0
  end.

Definition rows_sent (f : feeder) : Z :=
  fold_right Z.add 0 (List.map (fun x => chunk_num_rows x.2) (worker_channels f)).

(** The feeder's local count, its meter and the chunks sent agree, and
    the meter's current window holds no more than the ingest rate. *)
Definition balanced (f : feeder) : Prop :=
  sent f = rows_sent f /\
  RateMeter.current_record (send_meter f) + RateMeter.total_records (send_meter f)
    = rows_sent f /\
  0 <= RateMeter.current_record (send_meter f) <= Z.max 0 (ingest_rate f).

(** A file of three rows that the reader has yet to open, to be fed in
    chunks of two. *)
Definition file_abc_to_open : reader :=
  Files (FilesReader.mkReader 2 false (-1) 0 [Some ["a"; "b"; "c"]] 0 None 0).

End FeederAccounts.

(** ** ImportTask: receiving results *)

Module ImportTask.

(** What arrives on the channels from the children: a worker's progress,
    an error of a worker or of the feeder, the feeder's final report, or
    something else. *)
Inductive result :=
| ProcessResult (imported : Z)
| TaskError (err : ErrorHandler.ImportTaskError)
| FeedingResult (sent num_sources skip_rows : Z)
| Unexpected (repr : string).

(** The coordinator's variables that [receive_results] touches. *)
Record task := mkTask {
  feeding_result : option (Z * Z * Z);
  receive_meter : RateMeter.meter;
  error_handler : ErrorHandler.ImportErrorHandler
}.

(** The [for result in self.inmsg.recv(...)] loop; [aggregate] is
    [aggregate_result.imported]. *)
Fixpoint receive_loop (results : list result) (aggregate : Z) (t : task)
    : res unit * (Z * task) :=
  match results with
  | [] => (Ok tt, (aggregate, t))
  | ProcessResult imported :: rest => receive_loop rest (aggregate + imported) t
  | TaskError err :: rest =>
      receive_loop rest aggregate
        (mkTask (feeding_result t) (receive_meter t)
                (ErrorHandler.handle_error err (error_handler t)))
  | FeedingResult sent num_sources skip_rows :: rest =>
      receive_loop rest aggregate
        (mkTask (Some (sent, num_sources, skip_rows)) (receive_meter t) (error_handler t))
  | Unexpected repr :: _ =>
      (Raise "ValueError" ("Unexpected result: " ++ repr)%string, (aggregate, t))
  end.

(** [receive_results]: the meter is incremented in the [finally] clause,
    whether the loop raised or not.  [elapsed] is the clock's answer to the
    meter. *)
Definition receive_results (elapsed : bool) (results : list result) (t : task)
    : effect task unit :=
  let '(x, (aggregate, t')) := receive_loop results 0 t in
  (x, mkTask (feeding_result t')
             (RateMeter.increment aggregate elapsed (receive_meter t'))
             (error_handler t')).

(** The condition of the [while] loop of [import_records]. *)
Definition more_to_receive (t : task) : bool :=
  match feeding_result t with
  | None => true
  | Some (sent, _, _) => RateMeter.total_records (receive_meter t) <? sent
  end.

(** The loop of [import_records]: each element of [received] is what one
    [recv] returns, the clock's answer, and whether all processes are
    running after it. *)
Fixpoint import_loop (received : list (list result * bool * bool)) (t : task)
    : effect task unit :=
  match received with
  | [] => (Ok tt, t)
  | (results, elapsed, running) :: rest =>
      if more_to_receive t then
        match receive_results elapsed results t with
        | (Ok _, t') =>
            if ErrorHandler.max_exceeded (error_handler t') || negb running
            then (Ok tt, t')
            else import_loop rest t'
        | (Raise e m, t') => (Raise e m, t')
        end
      else (Ok tt, t)
  end.

(** The results received before the first unexpected one. *)
Fixpoint expected_prefix (results : list result) : list result :=
  match results with
  | [] => []
  | Unexpected _ :: _ => []
  | r :: rest => r :: expected_prefix rest
  end.

Definition imported_of (r : result) : Z :=
  match r with ProcessResult n => n | _ => 0 end.

Definition errors_of (results : list result) : list ErrorHandler.ImportTaskError :=
  omap (fun r => match r with TaskError e => Some e | _ => None end) results.

Definition sum_list (l : list Z) : Z := fold_right Z.add 0 l.

Fixpoint first_unexpected (results : list result) : option string :=
  match results with
  | [] => None
  | Unexpected repr :: _ => Some repr
  | _ :: rest => first_unexpected rest
  end.

(** The feeder's report held after [results]: the last one among them, or
    the one held before. *)
Definition feeding_after (results : list result) (held : option (Z * Z * Z))
    : option (Z * Z * Z) :=
  fold_left (fun acc r => match r with
                          | FeedingResult s n k => Some (s, n, k)
                          | _ => acc
                          end) results held.

(** The handler after a series of errors, and the rows of the errors that
    satisfy [keep]. *)
Definition handle_errors (errs : list ErrorHandler.ImportTaskError)
    (h : ErrorHandler.ImportErrorHandler) : ErrorHandler.ImportErrorHandler :=
  fold_left (fun h err => ErrorHandler.handle_error err h) errs h.

Definition rows_if (keep : ErrorHandler.ImportTaskError -> bool)
    (errs : list ErrorHandler.ImportTaskError) : list row :=
  concat (List.map (fun e => if keep e then ErrorHandler.rows e else []) errs).

End ImportTask.

(** ** ImportProcess: what a chunk's rows become *)

Module ImportBatches.
Import ImportProcess.

(** Whether a converted row can be placed on the ring. *)
Definition routable (ring_pos : list cqlval -> res nat) (r : list cqlval) : bool :=
  match ring_pos r with Ok _ => true | Raise _ _ => false end.

(** The rows of the batches, in the order of the batches. *)
Definition rows_of_batches (batches : list (list string * batch)) : list (list cqlval) :=
  concat (List.map (fun rb => batch_rows rb.2) batches).

(** A batch as [make_batch] makes it for chunk [id]: a first attempt with
    between one and [max_batch_size] rows. *)
Definition well_formed_batch (id : pyval) (max_batch_size : Z) (b : batch) : Prop :=
  batch_id b = id /\ batch_attempts b = 1 /\ 0 < len (batch_rows b) <= max_batch_size.

(** The number of rows in a series of payloads. *)
Definition sum_payloads (payloads : list payload) : Z :=
  fold_right (fun p acc => payload_len p + acc) 0 payloads.

(** Crediting a series of payloads to a chunk, as the callbacks do one
    after the other. *)
Definition credit (ref : nat) (payloads : list payload) : M unit :=
  for_each payloads (fun p => update_chunk p ref).




(** A worker that holds one chunk of two converted rows, and one that has
    a batch of that chunk in flight. *)
Definition two_rows : list (list cqlval) := [[VInt 1; VText "a"]; [VInt 2; VText "b"]].

Definition chunk_two_rows : gmap string pyval :=
  {[ "id" := PInt 1; "rows" := PRows two_rows; "imported" := PInt 0 ]}.

Definition worker_two_rows : worker := mkWorker [chunk_two_rows] [] [].

Definition worker_in_flight : worker :=
  mkWorker [chunk_two_rows]
           [mkRequest (mkBatch (PInt 1) two_rows 1) 0 ["10.0.0.1"]] [].

End ImportBatches.

(** ** sorted and bisect_right *)

(** [sorted(l, key=key)]: the sort is stable. *)
Fixpoint insert_by {A} (key : A -> Z) (x : A) (l : list A) : list A :=
  match l with
  | [] => [x]
  | y :: l' => if key x <=? key y then x :: y :: l' else y :: insert_by key x l'
  end.

Definition py_sorted {A} (key : A -> Z) (l : list A) : list A :=
  fold_right (insert_by key) [] l.

(** A list in ascending order of [key]. *)
Fixpoint sorted_by {A} (key : A -> Z) (l : list A) : Prop :=
  match l with
  | [] => True
  | x :: l' => Forall (fun y => key x <= key y) l' /\ sorted_by key l'
  end.

(** [bisect.bisect_right(a, x)]: the loop of the library, which halves
    [hi - lo] at each turn; [mid] is below [hi], so [a[mid]] exists. *)
Fixpoint bisect_loop (fuel : nat) (a : list Z) (x : Z) (lo hi : nat) : nat :=
  match fuel with
  | O => lo
  | S fuel' =>
      if (lo <? hi)%nat then
        let mid := ((lo + hi) / 2)%nat in
        match a !! mid with
        | Some y => if x <? y then bisect_loop fuel' a x lo mid
                    else bisect_loop fuel' a x (mid + 1)%nat hi
        | None => lo
        end
      else lo
  end.

Definition bisect_right (a : list Z) (x : Z) : nat :=
  bisect_loop (length a) a x 0 (length a).

(** A list of tokens in ascending order. *)
Definition ascending (ring : list Z) : Prop :=
  forall i j x y, (i <= j)%nat -> ring !! i = Some x -> ring !! j = Some y -> x <= y.

(** ** TokenMap *)

Module TokenMap.
Import ExportTask.

(** [get_ring_pos(ring, val)]. *)
Definition get_ring_pos (ring : list Z) (val : Z) : nat :=
  let idx := bisect_right ring val in
  if (idx <? length ring)%nat then idx else 0%nat.

(** [filter_replicas(hosts)]; [random_key i] is the [i]-th number drawn
    from [random.random()], one for each host. *)
Definition live_local (local_dc : string) (r : replica) : bool :=
  is_up r && String.eqb (datacenter r) local_dc.

Definition filter_replicas (local_dc : string) (random_key : nat -> Z)
    (hosts : list replica) : list replica :=
  match hosts with
  | [] => []
  | _ =>
      let shuffled := List.map snd (py_sorted fst (imap (fun i h => (random_key i, h)) hosts)) in
      List.filter (live_local local_dc) shuffled
  end.

End TokenMap.

(** ** ExportSession and ExportProcess *)

Module ExportProcess.
Import ExportTask.

(** What the process puts on its [outmsg] channel: [(None, None)] when a
    request has finished, [(token_range, (data, len(rows)))] for a page of
    rows, and [(token_range, Exception(msg))] for an error, where the range
    is [None] when [report_error] is called without one. *)
Inductive error_text :=
| ErrorMessage (msg : string)
| FailedToConnect (hosts : list string) (r : token_range) (errors : list string).

Inductive message :=
| RequestDone
| RangeData (r : token_range) (data : string) (num_rows : Z)
| RangeError (r : option token_range) (err : error_text).

(** The process: the number of requests of the [ExportSession] of each
    host connected so far, the futures that have callbacks attached (with
    the range queried and the host of the session), the messages not yet
    received, and the messages sent. *)
Record process := mkProcess {
  hosts_to_sessions : gmap string Z;
  pending : list (token_range * string);
  inmsg : list (token_range * range_info);
  outmsg : list message
}.

Definition send (m : message) (p : process) : process :=
  mkProcess (hosts_to_sessions p) (pending p) (inmsg p) (outmsg p ++ [m]).

Definition set_sessions (s : gmap string Z) (p : process) : process :=
  mkProcess s (pending p) (inmsg p) (outmsg p).

(** [num_requests]: the sum over all sessions. *)
Definition num_requests (p : process) : Z :=
  map_fold (fun _ n acc => n + acc) 0 (hosts_to_sessions p).

(** [get_error_message] for an exception of class [name]. *)
Definition get_error_message (name msg : string) : string :=
  (name ++ " - " ++ msg)%string.

(** [report_error(err, token_range)]. *)
Definition report_error (err : error_text) (r : option token_range) (p : process)
    : process :=
  send (RangeError r err) p.

Section Process.

(** Connecting to a host that has no session yet, which can raise; the
    formatting of a page by the CSV writer, which can raise; the
    [maxrequests] option. *)
Variable new_session : string -> res unit.
Variable R : Type.
Variable format_rows : list R -> res string.
Variable max_requests : Z.

(** [connect(host)]; a session is known by its host, and a new one starts
    with [requests = 1]. *)
Definition connect (host : string) (p : process) : res string * process :=
  match hosts_to_sessions p !! host with
  | Some n => (Ok host, set_sessions (<[host := n + 1]> (hosts_to_sessions p)) p)
  | None =>
      match new_session host with
      | Ok _ => (Ok host, set_sessions (<[host := 1]> (hosts_to_sessions p)) p)
      | Raise e m => (Raise e m, p)
      end
  end.

(** The key of the sort in [get_session]. *)
Definition session_requests (p : process) (hh : string) : Z :=
  match hosts_to_sessions p !! hh with
  | None => 0
  | Some n => n
  end.

(** The loop of [get_session] over the sorted hosts. *)
Fixpoint try_hosts (hosts : list string) (errors : list string) (p : process)
    : option string * list string * process :=
  match hosts with
  | [] => (None, errors, p)
  | host :: rest =>
      match connect host p with
      | (Ok session, p') => (Some session, errors, p')
      | (Raise e m, p') => try_hosts rest (errors ++ [get_error_message e m]) p'
      end
  end.

Definition get_session (hosts : list string) (r : token_range) (p : process)
    : option string * process :=
  let hosts := py_sorted (session_requests p) hosts in
  match try_hosts hosts [] p with
  | (Some session, _, p') => (Some session, p')
  | (None, errors, p') => (None, report_error (FailedToConnect hosts r errors) None p')
  end.

(** [start_request]: the query is executed on the session and the
    callbacks are attached to its future. *)
Definition start_request (r : token_range) (info : range_info) (p : process) : process :=
  match get_session (hosts info) r p with
  | (Some session, p') =>
      mkProcess (hosts_to_sessions p') (pending p' ++ [(r, session)]) (inmsg p') (outmsg p')
  | (None, p') => p'
  end.

(** [write_rows_to_csv]. *)
Definition write_rows_to_csv (r : token_range) (rows : list R) (p : process) : process :=
  match rows with
  | [] => p
  | _ =>
      match format_rows rows with
      | Ok data => send (RangeData r data (len rows)) p
      | Raise e m => report_error (ErrorMessage (get_error_message e m)) (Some r) p
      end
  end.

(** [ExportSession.complete_request]. *)
Definition complete_request (session : string) (p : process) : process :=
  set_sessions (alter (fun n => n - 1) session (hosts_to_sessions p)) p.

Definition forget (i : nat) (p : process) : process :=
  mkProcess (hosts_to_sessions p) (delete i (pending p)) (inmsg p) (outmsg p).

(** What happens to the process: a turn of the loop of [inner_run], or
    the driver calls a callback of the [i]-th future, with a page of rows
    or with an error.  The callbacks run on the driver's threads and the
    counters of the sessions are updated under a lock: a turn and a callback
    are each one step here.  A turn that finds nothing to receive leaves the
    process as it is (the call of [recv] blocks), and no failure is injected
    for tests ([test_failures] is empty). *)
Inductive event :=
| Turn
| Page (i : nat) (rows : list R) (has_more_pages : bool)
| Failure (i : nat) (name msg : string).

Definition step (ev : event) (p : process) : process :=
  match ev with
  | Turn =>
      if max_requests <? num_requests p then p
      else match inmsg p with
           | [] => p
           | (r, info) :: rest =>
               start_request r info (mkProcess (hosts_to_sessions p) (pending p) rest (outmsg p))
           end
  | Page i rows has_more_pages =>
      match pending p !! i with
      | None => p
      | Some (r, session) =>
          if has_more_pages then write_rows_to_csv r rows p
          else forget i (complete_request session
                           (send RequestDone (write_rows_to_csv r rows p)))
      end
  | Failure i name msg =>
      match pending p !! i with
      | None => p
      | Some (r, session) =>
          forget i (complete_request session
                      (report_error (ErrorMessage (get_error_message name msg)) (Some r) p))
      end
  end.

Definition run (events : list event) (p : process) : process :=
  fold_left (fun p ev => step ev p) events p.

End Process.

Definition new_process (incoming : list (token_range * range_info)) : process :=
  mkProcess ∅ [] incoming [].

(** A host that can be connected: it has a session or a new one can be
    made. *)
Definition connectable (new_session : string -> res unit) (p : process) (host : string)
    : Prop :=
  is_Some (hosts_to_sessions p !! host) \/ new_session host = Ok tt.

(** The requests counted by the sessions are the futures that have
    callbacks attached, and each of these belongs to a session. *)
Definition accounted (p : process) : Prop :=
  num_requests p = len (pending p) /\
  forall r session, (r, session) ∈ pending p -> is_Some (hosts_to_sessions p !! session).

End ExportProcess.

(** ** ImportConversion: the routing key of a row *)

Module RoutingKey.

Definition bytes := list Byte.byte.

(** [struct.pack(">H%dsB" % l, l, val, 0)]: the length as an unsigned
    16-bit integer, high byte first, the value, and a zero byte.  A length
    that does not fit raises [struct.error]. *)
Definition byte_of_Z (n : Z) : Byte.byte :=
  match Byte.of_N (Z.to_N n) with
  | Some b => b
  | None => Byte.x00
  end.

Definition pack_H_s_B (l : Z) (val : bytes) : res bytes :=
  if (0 <=? l) && (l <=? 65535)
  then Ok ([byte_of_Z (l / 256); byte_of_Z (l mod 256)] ++ val ++ [Byte.x00])
  else Raise "struct.error" "'H' format requires 0 <= number <= 65535".

Section Serialize.

(** The values of a row, and [serialize(n, v)] for column [n], which is
    the driver's and may raise. *)
Variable V : Type.
Variable serialize : nat -> V -> res bytes.
Variable partition_key_indexes : list nat.

(** [serialize_row_single]. *)
Definition serialize_row_single (row : list V) : res bytes :=
  match partition_key_indexes with
  | [] => Raise "IndexError" "list index out of range"
  | i :: _ =>
      match row !! i with
      | None => Raise "IndexError" "list index out of range"
      | Some v => serialize i v
      end
  end.

(** The loop of [serialize_row_multiple]. *)
Fixpoint pack_loop (indexes : list nat) (row : list V) (pk_values : list bytes)
    : res (list bytes) :=
  match indexes with
  | [] => Ok pk_values
  | i :: rest =>
      match row !! i with
      | None => Raise "IndexError" "list index out of range"
      | Some v =>
          match serialize i v with
          | Raise e m => Raise e m
          | Ok val =>
              match pack_H_s_B (len val) val with
              | Raise e m => Raise e m
              | Ok packed => pack_loop rest row (pk_values ++ [packed])
              end
          end
      end
  end.

Definition serialize_row_multiple (row : list V) : res bytes :=
  match pack_loop partition_key_indexes row [] with
  | Ok pk_values => Ok (concat pk_values)
  | Raise e m => Raise e m
  end.

(** The function that [get_row_partition_key_values_fcn] returns. *)
Definition get_row_partition_key_values (row : list V) : res bytes :=
  if (length partition_key_indexes =? 1)%nat then serialize_row_single row
  else serialize_row_multiple row.

(** The serialized value of column [i] of [row]. *)
Definition serialized (row : list V) (i : nat) : option bytes :=
  match row !! i with
  | None => None
  | Some v => match serialize i v with Ok val => Some val | Raise _ _ => None end
  end.

End Serialize.

End RoutingKey.

(** ** ImportConversion: splitting a collection literal *)

Module SplitValue.

(** A [str] as the list of its characters, and [s[a:b]] for indexes that
    are not negative. *)
Definition chars := list ascii.

Definition slice (s : chars) (a b : nat) : chars := take (b - a) (drop a s).

(** The variables of the loop of [split]. *)
Record split_state := mkSplit {
  ret : list chars;
  last_start : nat;
  level : Z;
  quote : bool
}.

Definition is_open (c : ascii) : bool :=
  Ascii.eqb c "{" || Ascii.eqb c "[" || Ascii.eqb c "(".

Definition is_close (c : ascii) : bool :=
  Ascii.eqb c "}" || Ascii.eqb c "]" || Ascii.eqb c ")".

Definition is_quote (c : ascii) : bool := Ascii.eqb c "'".

(** The body of the loop for the character [c] at index [i]. *)
Definition split_char (val : chars) (sep : ascii) (i : nat) (c : ascii) (st : split_state)
    : split_state :=
  if is_open c then mkSplit (ret st) (last_start st) (level st + 1) (quote st)
  else if is_close c then mkSplit (ret st) (last_start st) (level st - 1) (quote st)
  else if is_quote c then mkSplit (ret st) (last_start st) (level st) (negb (quote st))
  else if Ascii.eqb c sep && (level st =? 1) && negb (quote st)
       then mkSplit (ret st ++ [slice val (last_start st) i]) (i + 1) (level st) (quote st)
  else st.

(** The loop over [enumerate(val)], at index [i] with [rest] to go. *)
Fixpoint split_loop (val : chars) (sep : ascii) (i : nat) (rest : chars)
    (st : split_state) : split_state :=
  match rest with
  | [] => st
  | c :: rest' => split_loop val sep (S i) rest' (split_char val sep i c st)
  end.

(** [split(val, sep)]; the [else] clause of the loop runs when the loop
    ends, as there is no [break]. *)
Definition split (val : chars) (sep : ascii) : list chars :=
  let st := split_loop val sep 0 val (mkSplit [] 1 0 false) in
  if Z.of_nat (last_start st) <? len val - 1
  then ret st ++ [slice val (last_start st) (length val - 1)]
  else ret st.

(** [sep.join(parts)]. *)
Fixpoint join (sep : ascii) (parts : list chars) : chars :=
  match parts with
  | [] => []
  | [p] => p
  | p :: ps => p ++ sep :: join sep ps
  end.

(** How the nesting level and the quoting change over [s], when no
    separator of [s] is at level 1 outside quotes. *)
Fixpoint scan (sep : ascii) (s : chars) (level : Z) (quote : bool) : option (Z * bool) :=
  match s with
  | [] => Some (level, quote)
  | c :: s' =>
      if is_open c then scan sep s' (level + 1) quote
      else if is_close c then scan sep s' (level - 1) quote
      else if is_quote c then scan sep s' level (negb quote)
      else if Ascii.eqb c sep && (level =? 1) && negb quote then None
      else scan sep s' level quote
  end.

(** An element of a collection: its brackets and quotes are closed, and
    its separators are inside them. *)
Definition element (sep : ascii) (s : chars) : Prop :=
  scan sep s 1 false = Some (1, false).

(** A character that is not a bracket, a quote or the separator. *)
Definition plain_char (sep c : ascii) : bool :=
  negb (is_open c) && negb (is_close c) && negb (is_quote c) && negb (Ascii.eqb c sep).

(** The parts without the last one when it is empty. *)
Definition without_empty_last (parts : list chars) : list chars :=
  match last parts with
  | Some [] => removelast parts
  | _ => parts
  end.

End SplitValue.

(** ** Skipped columns *)

Module SkipColumns.
Import ImportProcess.

(** [ImportTask.__init__]: [[c for c in self.columns if c not in
    self.skip_columns]]. *)
Definition valid_columns (columns skip_columns : list string) : list string :=
  List.filter (fun c => negb (bool_decide (c ∈ skip_columns))) columns.

(** [ImportProcess.__init__]: [[i for i, c in enumerate(self.columns) if c
    in self.skip_columns]]. *)
Definition skip_column_indexes (columns skip_columns : list string) : list nat :=
  List.map fst
    (List.filter (fun ic => bool_decide (ic.2 ∈ skip_columns))
                 (imap (fun i c => (i, c)) columns)).

(** The pairs of a column and its field that are not skipped. *)
Definition kept_fields (columns skip_columns : list string) (r : row)
    : list (string * string) :=
  List.filter (fun cv => negb (bool_decide (cv.1 ∈ skip_columns))) (zip columns r).

End SkipColumns.

(** * Properties

    The second part states and proves the properties of the definitions
    above, component by component and in the same order. *)

(** ** Strings *)

Lemma append_String c (s t : string) : (String c s ++ t)%string = String c (s ++ t)%string.
Proof. reflexivity. Qed.

Lemma startswith_spec s p : startswith s p = true <-> exists t, s = (p ++ t)%string.
Proof.
  unfold startswith. revert s. induction p as [|c p IH]; intros s; simpl.
  - destruct s; split; eauto.
  - destruct s as [|d s]; simpl.
    + split; [discriminate | intros [t Ht]; discriminate].
    + destruct (Ascii.ascii_dec c d) as [->|Hne].
      * rewrite IH. split; intros [t Ht]; exists t; rewrite append_String in *; congruence.
      * split; [discriminate | intros [t Ht]; rewrite append_String in Ht; congruence].
Qed.

Module ErrorHandlerFacts.
Import ErrorHandler.

Lemma is_parse_error_spec err :
  is_parse_error err = true <->
  exists p t, p ∈ parse_error_names /\ name err = (p ++ t)%string.
Proof.
  unfold is_parse_error, parse_error_names.
  rewrite !orb_true_iff, !startswith_spec. split.
  - intros [[[[[t H]|[t H]]|[t H]]|[t H]]|[t H]]; eexists _, t; (split; [|exact H]);
      set_solver.
  - intros (p & t & Hp & Ht).
    rewrite !elem_of_cons in Hp. rewrite elem_of_nil in Hp.
    destruct Hp as [->|[->|[->|[->|[->|[]]]]]]; eauto 10.
Qed.

Lemma max_exceeded_spec h :
  max_exceeded h = true <->
  (insert_errors h > max_insert_errors h /\ max_insert_errors h >= 0) \/
  (parse_errors h > max_parse_errors h /\ max_parse_errors h >= 0).
Proof.
  unfold max_exceeded.
  destruct (max_insert_errors h <? insert_errors h) eqn:E1;
  destruct (0 <=? max_insert_errors h) eqn:E2;
  destruct (max_parse_errors h <? parse_errors h) eqn:E3;
  destruct (0 <=? max_parse_errors h) eqn:E4; simpl;
  rewrite ?Z.ltb_lt, ?Z.ltb_ge, ?Z.leb_le, ?Z.leb_gt in *;
  split; (discriminate || (intros; lia) || reflexivity || idtac); auto.
Qed.

(** C8. [is_parse_error] holds exactly for names starting with one of the
    five prefixes; [handle_error] adds the row count to the parse-error
    counter and appends the rows to the error file for a parse error, and
    for an insert error adds to the insert-error counter and appends the rows
    only when the error is final; [max_exceeded] holds exactly when
    [insert_errors > maxinserterrors >= 0] or
    [parse_errors > maxparseerrors >= 0], so a maximum of -1 never triggers. *)
Theorem error_handler_classification_and_limits :
  (forall err,
     is_parse_error err = true <->
     exists p t, p ∈ parse_error_names /\ name err = (p ++ t)%string) /\
  (forall err h,
     let h' := handle_error err h in
     let n := len (rows err) in
     if is_parse_error err then
       parse_errors h' = parse_errors h + n /\
       insert_errors h' = insert_errors h /\
       err_file h' = err_file h ++ rows err
     else
       insert_errors h' = insert_errors h + n /\
       parse_errors h' = parse_errors h /\
       err_file h' = if final err then err_file h ++ rows err else err_file h) /\
  (forall h,
     max_exceeded h = true <->
     (insert_errors h > max_insert_errors h /\ max_insert_errors h >= 0) \/
     (parse_errors h > max_parse_errors h /\ max_parse_errors h >= 0)) /\
  (forall a f pe ie nf,
     max_exceeded (mkImportErrorHandler a (-1) (-1) f pe ie nf) = false).
Proof.
  split; [exact is_parse_error_spec|].
  split.
  - intros err h. cbv zeta. unfold handle_error.
    destruct (is_parse_error err); simpl; [done|].
    destruct (final err); simpl; done.
  - split; [exact max_exceeded_spec|].
    intros a f pe ie nf. unfold max_exceeded. simpl.
    rewrite !andb_false_r. reflexivity.
Qed.

End ErrorHandlerFacts.

(** ** Lower case and equality up to case *)

Lemma same_letterb_spec a b : same_letterb a b = true <-> same_letter a b.
Proof.
  unfold same_letterb, same_letter.
  rewrite !orb_true_iff, !andb_true_iff, !Nat.eqb_eq, Ascii.eqb_eq. tauto.
Qed.

Lemma all_ascii_complete c : List.In c all_ascii.
Proof.
  unfold all_ascii. apply List.in_map_iff. exists (nat_of_ascii c).
  split; [apply ascii_nat_embedding|].
  apply List.in_seq. pose proof (nat_ascii_bounded c). lia.
Qed.

Lemma lower_ascii_table :
  List.forallb (fun a => List.forallb (fun b =>
    Bool.eqb (Ascii.eqb (lower_ascii a) (lower_ascii b)) (same_letterb a b))
    all_ascii) all_ascii = true.
Proof. vm_compute. reflexivity. Qed.

Lemma lower_ascii_same_letter a b : lower_ascii a = lower_ascii b <-> same_letter a b.
Proof.
  rewrite <- same_letterb_spec, <- Ascii.eqb_eq.
  pose proof lower_ascii_table as T.
  rewrite List.forallb_forall in T. specialize (T a (all_ascii_complete a)).
  rewrite List.forallb_forall in T. specialize (T b (all_ascii_complete b)).
  apply Bool.eqb_prop in T. rewrite T. tauto.
Qed.

Lemma lower_eq_nocase s t : lower s = lower t <-> eq_nocase s t.
Proof.
  revert t. induction s as [|a s IH]; intros [|b t]; simpl.
  - split; [constructor | reflexivity].
  - split; [discriminate | inversion 1].
  - split; [discriminate | inversion 1].
  - split.
    + intros [= Hc Hs]. constructor.
      * by apply lower_ascii_same_letter.
      * by apply IH.
    + inversion 1; subst. f_equal.
      * by apply lower_ascii_same_letter.
      * by apply IH.
Qed.

Module ConversionFacts.
Import Conversion.

(** C9. With boolean styles accepted by [check_options], the boolean
    converter never raises; it returns true exactly for the strings equal to
    the first style up to case and false for every other string, whatever the
    second style is. *)
Theorem convert_bool_first_style_only (boolean_styles : list string)
    (Hopts : check_options boolean_styles = true) :
  exists s0 s1,
    boolean_styles = [s0; s1] /\
    (forall v, exists b, convert_bool boolean_styles v = Ok b /\
                         (b = true <-> eq_nocase v s0)) /\
    (forall v, ~ eq_nocase v s0 -> convert_bool boolean_styles v = Ok false) /\
    (forall v other, convert_bool [s0; other] v = convert_bool boolean_styles v).
Proof.
  destruct boolean_styles as [|s0 [|s1 [|? ?]]]; try discriminate.
  exists s0, s1. split; [reflexivity|].
  assert (Hv : forall v, (String.eqb (lower v) (lower s0) = true) <-> eq_nocase v s0).
  { intros v. rewrite String.eqb_eq. apply lower_eq_nocase. }
  repeat split.
  - intros v. unfold convert_bool. simpl.
    destruct (String.eqb (lower v) (lower s0)) eqn:E; eexists; split; try reflexivity.
    + split; [intros _; by apply Hv | reflexivity].
    + split; [discriminate | intros H; apply Hv in H; congruence].
  - intros v Hn. unfold convert_bool. simpl.
    destruct (String.eqb (lower v) (lower s0)) eqn:E; [|reflexivity].
    exfalso. apply Hn. by apply Hv.
Qed.

Lemma convert_bool_first_style_only_witness :
  exists s0 s1,
    ["True"; "False"] = [s0; s1] /\
    (forall v, exists b, convert_bool ["True"; "False"] v = Ok b /\
                         (b = true <-> eq_nocase v s0)) /\
    (forall v, ~ eq_nocase v s0 -> convert_bool ["True"; "False"] v = Ok false) /\
    (forall v other, convert_bool [s0; other] v = convert_bool ["True"; "False"] v).
Proof. apply (convert_bool_first_style_only ["True"; "False"]). reflexivity. Defined.

Example convert_bool_true : convert_bool ["True"; "False"] "tRuE" = Ok true.
Proof. reflexivity. Qed.

Example convert_bool_neither : convert_bool ["True"; "False"] "maybe" = Ok false.
Proof. reflexivity. Qed.

Example convert_bool_second : convert_bool ["True"; "False"] "False" = Ok false.
Proof. reflexivity. Qed.

End ConversionFacts.

Module RetryPolicyFacts.
Import RetryPolicy.

Lemma randrange_bounds start stop draw :
  start < stop ->
  exists d, randrange start stop draw = Ok d /\ start <= d < stop.
Proof.
  intros H. unfold randrange.
  destruct (start <? stop) eqn:E; [|apply Z.ltb_ge in E; lia].
  eexists; split; [reflexivity|].
  pose proof (Z.mod_pos_bound draw (stop - start)). lia.
Qed.

Lemma randrange_onto start stop d :
  start <= d < stop -> randrange start stop (d - start) = Ok d.
Proof.
  intros H. unfold randrange.
  destruct (start <? stop) eqn:E; [|apply Z.ltb_ge in E; lia].
  rewrite Z.mod_small by lia. f_equal. lia.
Qed.

Lemma handle_timeout_retry {C} max_attempts (consistency : C) retry_num draw :
  0 <= retry_num < max_attempts ->
  exists d, 0 <= d < 2 ^ (retry_num + 1) /\
    backoff max_attempts retry_num draw = Ok d /\
    exists o, _handle_timeout max_attempts consistency retry_num draw = Ok o /\
      decided o = RETRY /\ consistency_level o = Some consistency /\ slept o = d.
Proof.
  intros H. unfold _handle_timeout, backoff.
  destruct (max_attempts <=? retry_num) eqn:E; [apply Z.leb_le in E; lia|].
  assert (Hp : 0 < 2 ^ (retry_num + 1)) by (apply Z.pow_pos_nonneg; lia).
  destruct (randrange_bounds 0 (2 ^ (retry_num + 1)) draw Hp) as (d & -> & Hd).
  exists d. split; [exact Hd|]. split; [reflexivity|].
  destruct (0 <? d) eqn:E1.
  - eexists; repeat split; unfold slept; simpl; lia.
  - apply Z.ltb_ge in E1. assert (d = 0) as -> by lia. simpl.
    eexists; repeat split.
Qed.

Lemma handle_timeout_give_up {C} max_attempts (consistency : C) retry_num draw :
  max_attempts <= retry_num ->
  _handle_timeout max_attempts consistency retry_num draw = Ok (mkOutcome RETHROW None []).
Proof.
  intros H. unfold _handle_timeout, backoff.
  destruct (max_attempts <=? retry_num) eqn:E; [reflexivity|apply Z.leb_gt in E; lia].
Qed.

(** C4. For a retry number counted from zero and either kind of timeout:
    while [retry_num < max_attempts] the policy answers [(RETRY, consistency)]
    after sleeping the number of seconds [randrange] drew, an integer of
    [[0, 2^(retry_num+1))], each of which can be drawn; from
    [retry_num >= max_attempts] on it answers [(RETHROW, None)] without
    sleeping; read and write timeouts are handled by the same function. *)
Theorem exp_backoff_retry_policy {C Q W} (max_attempts : Z) (q : Q) (consistency : C)
    (wt : W) (required received : Z) (data_retrieved : bool) (retry_num : Z)
    (Hretry : 0 <= retry_num) :
  (retry_num < max_attempts ->
     (forall draw, exists d o,
        0 <= d < 2 ^ (retry_num + 1) /\
        on_read_timeout max_attempts q consistency required received data_retrieved
          retry_num draw = Ok o /\
        decided o = RETRY /\ consistency_level o = Some consistency /\ slept o = d) /\
     (forall d, 0 <= d < 2 ^ (retry_num + 1) ->
        exists draw o,
          on_read_timeout max_attempts q consistency required received data_retrieved
            retry_num draw = Ok o /\
          decided o = RETRY /\ slept o = d)) /\
  (max_attempts <= retry_num ->
     forall draw,
       on_read_timeout max_attempts q consistency required received data_retrieved
         retry_num draw = Ok (mkOutcome RETHROW None [])) /\
  (forall draw,
     on_write_timeout max_attempts q consistency wt required received retry_num draw =
     on_read_timeout max_attempts q consistency required received data_retrieved
       retry_num draw).
Proof.
  unfold on_read_timeout, on_write_timeout. repeat split.
  - intros draw.
    destruct (handle_timeout_retry max_attempts consistency retry_num draw)
      as (d & Hd & _ & o & Ho & H1 & H2 & H3); [lia|].
    exists d, o. auto.
  - intros d Hd. exists d.
    destruct (handle_timeout_retry max_attempts consistency retry_num d)
      as (d' & Hd' & Hb & o & Ho & H1 & H2 & H3); [lia|].
    exists o. repeat split; auto.
    unfold backoff in Hb.
    destruct (max_attempts <=? retry_num) eqn:E; [apply Z.leb_le in E; lia|].
    pose proof (randrange_onto 0 _ d Hd) as R. rewrite Z.sub_0_r in R.
    rewrite R in Hb. congruence.
  - intros Hge draw. by apply handle_timeout_give_up.
Qed.

Lemma exp_backoff_retry_policy_witness :
  (2 < 5 ->
     (forall draw, exists d o,
        0 <= d < 2 ^ (2 + 1) /\
        on_read_timeout 5 tt tt 1 0 false 2 draw = Ok o /\
        decided o = RETRY /\ consistency_level o = Some tt /\ slept o = d) /\
     (forall d, 0 <= d < 2 ^ (2 + 1) ->
        exists draw o,
          on_read_timeout 5 tt tt 1 0 false 2 draw = Ok o /\
          decided o = RETRY /\ slept o = d)) /\
  (5 <= 2 ->
     forall draw,
       on_read_timeout 5 tt tt 1 0 false 2 draw = Ok (mkOutcome RETHROW None [])) /\
  (forall draw,
     on_write_timeout 5 tt tt tt 1 0 2 draw = on_read_timeout 5 tt tt 1 0 false 2 draw).
Proof. apply (exp_backoff_retry_policy 5 tt tt tt 1 0 false 2). lia. Defined.

Example handle_timeout_third_attempt :
  _handle_timeout 5 tt 2 13 = Ok (mkOutcome RETRY (Some tt) [5]).
Proof. reflexivity. Qed.

Example handle_timeout_exhausted :
  _handle_timeout 5 tt 5 13 = Ok (mkOutcome RETHROW None []).
Proof. reflexivity. Qed.

End RetryPolicyFacts.

Module ExportTaskFacts.
Import ExportTask.

Lemma in_rangeb_spec r t : in_rangeb r t = true <-> in_range r t.
Proof.
  unfold in_rangeb, in_range. rewrite andb_true_iff.
  destruct r as [[lo|] [hi|]]; simpl; rewrite ?Z.ltb_lt, ?Z.leb_le; tauto.
Qed.

Lemma coveredb_spec m t : coveredb m t = true <-> covered m t.
Proof.
  unfold coveredb, covered. rewrite existsb_exists. split.
  - intros ([r d] & Hin & Hr). exists r, d. split.
    + apply elem_of_map_to_list. by apply list_elem_of_In.
    + by apply in_rangeb_spec.
  - intros (r & d & Hm & Hr). exists (r, d). split.
    + apply list_elem_of_In. by apply elem_of_map_to_list.
    + by apply in_rangeb_spec.
Qed.

Ltac range_cases :=
  repeat match goal with
         | b : option Z |- _ => destruct b
         | |- context [?x <? ?y] => destruct (Z.ltb_spec x y)
         | |- context [?x =? ?y] => destruct (Z.eqb_spec x y)
         | H : context [?x <? ?y] |- _ => destruct (Z.ltb_spec x y)
         | H : context [?x =? ?y] |- _ => destruct (Z.eqb_spec x y)
         | H : Some _ = Some _ |- _ => injection H as H; subst
         | H : None = Some _ |- _ => discriminate H
         | H : Some _ = None |- _ => discriminate H
         | _ => progress (simpl in *)
         end.

(** Whatever [make_range] returns selects the tokens of [(prev, curr]] that
    lie within the bounds it applies. *)
Lemma make_range_some b e prev curr r :
  make_range b e prev (Some curr) = Some r ->
  forall t, in_range r t <-> in_range (prev, Some curr) t /\ in_range (applied_window b e) t.
Proof.
  unfold make_range, applied_window, truthy, py_lt, in_range. intros H t.
  range_cases; simpl; lia.
Qed.

(** When [make_range] returns [None] no token of [(prev, curr]] lies within
    the bounds it applies. *)
Lemma make_range_none b e prev curr :
  make_range b e prev (Some curr) = None ->
  forall t, ~ (in_range (prev, Some curr) t /\ in_range (applied_window b e) t).
Proof.
  unfold make_range, applied_window, truthy, py_lt, in_range. intros H t.
  range_cases; simpl; lia.
Qed.

(** At the boundary the comparison is strict: an interval that ends at the
    begin token is not dropped but clipped to the empty range
    [(begin_token, begin_token]]. *)
Lemma make_range_at_begin b e prev :
  b <> 0 -> py_lt prev (Some b) = true -> truthy e = false ->
  make_range (Some b) e prev (Some b) = Some (Some b, Some b).
Proof.
  intros Hb Hp He. unfold make_range. simpl.
  destruct (Z.eqb_spec b 0); [done|]. simpl.
  rewrite Z.ltb_irrefl, Hp, He. reflexivity.
Qed.

Lemma in_range_empty b t : ~ in_range (Some b, Some b) t.
Proof. unfold in_range. simpl. lia. Qed.

(** C3. On the ring with tokens 5, 10 and 20 and [begintoken = 10], the
    ring interval [(5, 10]] has no token in the window [(10, +oo)], yet
    [get_ranges] emits the empty range [(10, 10]] for it ([make_range]
    compares strictly at the boundary); the same range appears for
    [endtoken = 10]. *)
Theorem get_ranges_emits_empty_boundary_range :
  let from_10 := (get_ranges "127.0.0.1" "dc1" (get_min_token murmur3)
                    (Some 10) None true ring_5_10_20).1 in
  let upto_10 := (get_ranges "127.0.0.1" "dc1" (get_min_token murmur3)
                    None (Some 10) true ring_5_10_20).1 in
  (forall t, ~ (in_range (Some 5, Some 10) t /\ in_range (window (Some 10) None) t)) /\
  from_10 !! (Some 10, Some 10) = Some (mkRangeInfo ["10.0.0.1"] 0 0) /\
  upto_10 !! (Some 10, Some 10) = Some (mkRangeInfo ["10.0.0.1"] 0 0) /\
  (forall t, ~ in_range (Some 10, Some 10) t).
Proof.
  cbv zeta. split; [|split; [|split]].
  - intros t. unfold in_range, window. simpl. lia.
  - vm_compute. reflexivity.
  - vm_compute. reflexivity.
  - apply in_range_empty.
Qed.

Example get_ranges_inside_window :
  map_to_list (get_ranges "127.0.0.1" "dc1" (get_min_token murmur3)
                 (Some 7) (Some 12) true ring_5_10_20).1 =
  [((Some 7, Some 10), mkRangeInfo ["10.0.0.1"] 0 0);
   ((Some 10, Some 12), mkRangeInfo ["10.0.0.1"] 0 0)].
Proof. vm_compute. reflexivity. Qed.

(** *** Token bounds given as 0 *)

Lemma make_range_begin_zero e prev curr :
  make_range (Some 0) e prev curr = make_range None e prev curr.
Proof. reflexivity. Qed.

Lemma make_range_end_zero b prev curr :
  make_range b (Some 0) prev curr = make_range b None prev curr.
Proof. unfold make_range. simpl. by destruct (if truthy b then _ else _). Qed.

Lemma walk_ring_begin_zero h dc m e ring :
  walk_ring h dc m (Some 0) e ring = walk_ring h dc m None e ring.
Proof. reflexivity. Qed.

Lemma walk_step_end_zero h dc m b w item :
  walk_step h dc m b (Some 0) w item = walk_step h dc m b None w item.
Proof. unfold walk_step. destruct item. by rewrite make_range_end_zero. Qed.

Lemma walk_ring_end_zero h dc m b ring :
  walk_ring h dc m b (Some 0) ring = walk_ring h dc m b None ring.
Proof.
  unfold walk_ring. generalize (mkWalk ∅ None None).
  induction ring as [|item ring IH]; intros w; simpl; [done|].
  by rewrite walk_step_end_zero, IH.
Qed.

Lemma insert_sorted_length {A} (x : Z * A) l :
  length (insert_sorted x l) = S (length l).
Proof.
  induction l as [|y l IH]; simpl; [done|].
  destruct (x.1 <? y.1); simpl; by rewrite ?IH.
Qed.

Lemma ring_sort_length {A} (l : list (Z * A)) : length (ring_sort l) = length l.
Proof.
  induction l as [|x l IH]; simpl; [done|].
  by rewrite insert_sorted_length, IH.
Qed.

(** On a ring of two or more tokens with a token map, past the validations,
    the ranges are those of the walk plus the wrap-around range. *)
Lemma get_ranges_walk h dc m b e ring :
  (2 <= length ring)%nat -> is_Some m ->
  (get_ranges h dc m b e true ring).1 =
  if truthy b && py_lt b m then ∅
  else if truthy b && truthy e && py_lt e b then ∅
  else wrap_around e (walk_ring h dc m b e (ring_sort ring)).
Proof.
  intros Hlen Hm. unfold get_ranges.
  destruct (truthy b && py_lt b m); [done|].
  destruct (truthy b && truthy e && py_lt e b); [done|].
  rewrite bool_decide_eq_true_2 by done. simpl.
  pose proof (ring_sort_length ring) as Hs.
  destruct (ring_sort ring) as [|x [|y l]]; simpl in Hs; try lia. done.
Qed.

(** C10. On the ring with tokens 5 and 10, [endtoken = 0] does not behave
    as the unset option, and is not honoured as a bound either: the bound is
    tested by its truth value, so no validation and no clipping applies to
    it, but the wrap-around range takes it as given and becomes the inverted
    range [(10, 0]] instead of [(10, +oo)].  Token 11 is exported when the
    option is unset and is not when it is 0, so the ring is not exported
    whole. *)
Theorem endtoken_zero_is_not_unset :
  let zero := (get_ranges "127.0.0.1" "dc1" (get_min_token murmur3)
                 None (Some 0) true ring_5_10).1 in
  let unset := (get_ranges "127.0.0.1" "dc1" (get_min_token murmur3)
                  None None true ring_5_10).1 in
  zero <> unset /\
  zero !! (Some 10, Some 0) = Some (mkRangeInfo ["10.0.0.1"] 0 0) /\
  covered unset 11 /\ ~ covered zero 11.
Proof.
  cbv zeta.
  assert (Hu : covered (get_ranges "127.0.0.1" "dc1" (get_min_token murmur3)
                          None None true ring_5_10).1 11).
  { apply coveredb_spec. vm_compute. reflexivity. }
  assert (Hz : ~ covered (get_ranges "127.0.0.1" "dc1" (get_min_token murmur3)
                            None (Some 0) true ring_5_10).1 11).
  { rewrite <- coveredb_spec. vm_compute. discriminate. }
  split; [|split; [|split]]; try assumption.
  - intros Heq. apply Hz. rewrite Heq. exact Hu.
  - vm_compute. reflexivity.
Qed.

(** With a single token, [begintoken = 0] stays the lower bound of the one
    range. *)
Example begintoken_zero_single_token :
  map_to_list (get_ranges "127.0.0.1" "dc1" (get_min_token murmur3)
                 (Some 0) None true [(5, [node1])]).1 =
  [((Some 0, None), mkRangeInfo ["10.0.0.1"] 0 0)].
Proof. vm_compute. reflexivity. Qed.

(** A [begintoken] or [endtoken] given as 0 is not compared and not
    clipped against: [make_range] and the walk over the ring are those of
    the unset option, a zero [begintoken] raises neither validation error and
    a zero [endtoken] never the begin-after-end one.  On a ring of two or more
    tokens a zero [begintoken] gives exactly the ranges of the unset option;
    a zero [endtoken] gives the same walk, but stays the upper bound of the
    wrap-around range [(previous, 0]], which the unset option leaves open. *)
Lemma zero_token_bound_not_clipped (h dc : string) (m : option Z) :
  (forall e prev curr, make_range (Some 0) e prev curr = make_range None e prev curr) /\
  (forall b prev curr, make_range b (Some 0) prev curr = make_range b None prev curr) /\
  (forall e tm ring err,
     err ∈ (get_ranges h dc m (Some 0) e tm ring).2 ->
     exists b' e', err = NoRangesFound b' e') /\
  (forall b tm ring b' e',
     BeginAfterEnd b' e' ∉ (get_ranges h dc m b (Some 0) tm ring).2) /\
  (forall e ring,
     (2 <= length ring)%nat -> is_Some m ->
     (get_ranges h dc m (Some 0) e true ring).1 = (get_ranges h dc m None e true ring).1) /\
  (forall b ring,
     (2 <= length ring)%nat -> is_Some m ->
     let w := walk_ring h dc m b None (ring_sort ring) in
     walk_ring h dc m b (Some 0) (ring_sort ring) = w /\
     (get_ranges h dc m b (Some 0) true ring).1 =
       (if truthy b && py_lt b m then ∅
        else match previous w, first_range_data w with
             | Some p, Some d => <[(Some p, Some 0) := d]> (ranges w)
             | _, _ => ranges w
             end) /\
     (get_ranges h dc m b None true ring).1 =
       (if truthy b && py_lt b m then ∅
        else match previous w, first_range_data w with
             | Some p, Some d => <[(Some p, None) := d]> (ranges w)
             | _, _ => ranges w
             end)).
Proof.
  split; [exact make_range_begin_zero|].
  split; [exact make_range_end_zero|].
  split; [|split; [|split]].
  - intros e tm ring err. unfold get_ranges. simpl.
    destruct (negb tm || negb (bool_decide (is_Some m))); simpl.
    + intros H. by apply elem_of_nil in H.
    + destruct (map_to_list _); intros H.
      * apply list_elem_of_singleton in H. eauto.
      * by apply elem_of_nil in H.
  - intros b tm ring b' e'. unfold get_ranges.
    replace (truthy b && truthy (Some 0)) with false by (by destruct (truthy b)).
    destruct (truthy b && py_lt b m); simpl.
    + intros H. apply list_elem_of_singleton in H. discriminate.
    + destruct (negb tm || negb (bool_decide (is_Some m))); simpl.
      * intros H. by apply elem_of_nil in H.
      * destruct (map_to_list _); intros H.
        -- apply list_elem_of_singleton in H. discriminate.
        -- by apply elem_of_nil in H.
  - intros e ring Hlen Hm. by rewrite !get_ranges_walk.
  - intros b ring Hlen Hm. cbv zeta.
    split; [apply walk_ring_end_zero|].
    rewrite !get_ranges_walk by done.
    rewrite walk_ring_end_zero.
    replace (truthy b && truthy (Some 0)) with false by (by destruct (truthy b)).
    replace (truthy b && truthy None) with false by (by destruct (truthy b)).
    simpl. unfold wrap_around. simpl. split; reflexivity.
Qed.

Lemma zero_token_bound_not_clipped_witness :
  (get_ranges "127.0.0.1" "dc1" (get_min_token murmur3) (Some 0) None true ring_5_10).1 =
  (get_ranges "127.0.0.1" "dc1" (get_min_token murmur3) None None true ring_5_10).1.
Proof.
  refine (proj1 (proj2 (proj2 (proj2 (proj2
    (zero_token_bound_not_clipped "127.0.0.1" "dc1" (get_min_token murmur3))))))
    None ring_5_10 _ _).
  - simpl. lia.
  - vm_compute. eauto.
Defined.

Lemma attempts_le_refl m : attempts_le m m.
Proof. intros r d H. exists d. split; [done|lia]. Qed.

Lemma attempts_le_trans m1 m2 m3 :
  attempts_le m1 m2 -> attempts_le m2 m3 -> attempts_le m1 m3.
Proof.
  intros H12 H23 r d H. destruct (H12 r d H) as (d2 & H2 & Hle).
  destruct (H23 r d2 H2) as (d3 & H3 & Hle'). exists d3. split; [done|lia].
Qed.

Lemma attempts_le_insert m r d d' :
  m !! r = Some d -> attempts d <= attempts d' -> attempts_le m (<[r := d']> m).
Proof.
  intros Hr Hle r0 d0 H0. destruct (decide (r = r0)) as [->|Hne].
  - exists d'. rewrite lookup_insert_eq. split; [done|]. congruence.
  - exists d0. rewrite lookup_insert_ne by done. split; [done|lia].
Qed.

Lemma resent_same max_attempts c c' :
  sent c' = sent c -> resent_only_without_rows max_attempts c c'.
Proof.
  intros E. exists []. split; [by rewrite app_nil_r|].
  intros i r d H. by apply elem_of_nil in H.
Qed.

Lemma resent_refl max_attempts c : resent_only_without_rows max_attempts c c.
Proof. by apply resent_same. Qed.

Lemma resent_trans max_attempts c1 c2 c3 :
  resent_only_without_rows max_attempts c1 c2 ->
  resent_only_without_rows max_attempts c2 c3 ->
  resent_only_without_rows max_attempts c1 c3.
Proof.
  intros (n1 & E1 & H1) (n2 & E2 & H2). exists (n1 ++ n2). split.
  - by rewrite E2, E1, app_assoc.
  - intros i r d Hin. apply elem_of_app in Hin as [Hin|Hin]; eauto.
Qed.

(** The error branch of [handle_result], spelled out. *)
Lemma handle_result_failure max_attempts num_processes c r e c' :
  handle_result max_attempts num_processes c (Some r, Failure e) = Ok c' ->
  exists d, range_map c !! r = Some d /\
    if (attempts d <? max_attempts) && (rows d =? 0)
    then sent c' = sent c ++ [(0, (r, d))] /\ failed c' = failed c /\
         range_map c' = <[r := bump_attempts d]> (range_map c)
    else sent c' = sent c /\ failed c' = failed c + 1 /\ range_map c' = range_map c.
Proof.
  unfold handle_result, send_work. simpl.
  destruct (range_map c !! r) as [d|] eqn:Hr; [|discriminate].
  intros H. exists d. split; [done|].
  destruct ((attempts d <? max_attempts) && (rows d =? 0)) eqn:Hc.
  - destruct (0 <? num_processes); simpl in H; [|discriminate].
    rewrite ?Hr in H. by injection H as <-.
  - by injection H as <-.
Qed.

Lemma handle_result_invariant max_attempts num_processes c m c' :
  handle_result max_attempts num_processes c m = Ok c' ->
  attempts_le (range_map c) (range_map c') /\ resent_only_without_rows max_attempts c c'.
Proof.
  destruct m as [[r|] [|e|data num]]; intros H.
  - discriminate.
  - destruct (handle_result_failure _ _ _ _ _ _ H) as (d & Hr & Hd).
    destruct ((attempts d <? max_attempts) && (rows d =? 0)) eqn:Hc.
    + destruct Hd as (Hs & _ & Hm). apply andb_true_iff in Hc as [Ha Hz].
      apply Z.ltb_lt in Ha. apply Z.eqb_eq in Hz. split.
      * rewrite Hm. apply (attempts_le_insert _ _ d); [done|]. simpl. lia.
      * exists [(0, (r, d))]. split; [done|].
        intros i r0 d0 Hin. apply list_elem_of_singleton in Hin. by simplify_eq.
    + destruct Hd as (Hs & _ & Hm). split.
      * rewrite Hm. apply attempts_le_refl.
      * exists []. rewrite app_nil_r. split; [done|].
        intros i r0 d0 Hin. by apply elem_of_nil in Hin.
  - simpl in H. destruct (range_map c !! r) as [d|] eqn:Hr; [|discriminate].
    injection H as <-. simpl. split.
    + apply (attempts_le_insert _ _ d); [done|]. simpl. lia.
    + by apply resent_same.
  - injection H as <-. split; [apply attempts_le_refl|by apply resent_same].
  - injection H as <-. split; [apply attempts_le_refl|apply resent_refl].
  - discriminate.
Qed.

Lemma handle_results_invariant max_attempts num_processes ms : forall c c',
  handle_results max_attempts num_processes c ms = Ok c' ->
  attempts_le (range_map c) (range_map c') /\ resent_only_without_rows max_attempts c c'.
Proof.
  induction ms as [|m ms IH]; intros c c' H; simpl in H.
  - injection H as <-. split; [apply attempts_le_refl|apply resent_refl].
  - destruct (handle_result max_attempts num_processes c m) as [c1|] eqn:H1; [|discriminate].
    destruct (handle_result_invariant _ _ _ _ _ H1) as [Ha Hs].
    destruct (IH _ _ H) as [Ha' Hs'].
    split; [by eapply attempts_le_trans|by eapply resent_trans].
Qed.

Lemma receive_loop_invariant max_attempts num_processes total batches : forall c c',
  receive_loop max_attempts num_processes total batches c = Ok c' ->
  attempts_le (range_map c) (range_map c') /\ resent_only_without_rows max_attempts c c'.
Proof.
  induction batches as [|[alive ms] batches IH]; intros c c' H; simpl in H.
  - injection H as <-. split; [apply attempts_le_refl|apply resent_refl].
  - destruct ((failed c + succeeded c <? total) && alive).
    + destruct (handle_results max_attempts num_processes c ms) as [c1|] eqn:H1; [|discriminate].
      destruct (handle_results_invariant _ _ _ _ _ H1) as [Ha Hs].
      destruct (IH _ _ H) as [Ha' Hs'].
      split; [by eapply attempts_le_trans|by eapply resent_trans].
    + injection H as <-. split; [apply attempts_le_refl|apply resent_refl].
Qed.

Lemma send_work_from_attempts num_processes tokens : forall i c c',
  send_work_from num_processes i tokens c = Ok c' ->
  attempts_le (range_map c) (range_map c').
Proof.
  induction tokens as [|r tokens IH]; intros i c c' H; simpl in H.
  - injection H as <-. apply attempts_le_refl.
  - destruct (negb (i <? num_processes)); [discriminate|].
    destruct (range_map c !! r) as [d|] eqn:Hr; [|discriminate].
    apply IH in H. simpl in H.
    eapply attempts_le_trans; [|exact H].
    apply (attempts_le_insert _ _ d); [done|]. simpl. lia.
Qed.

(** C2. In the export coordinator the [attempts] of every range never goes
    down, over the initial dispatch and over the whole receive loop; every
    range sent again during the loop had [rows = 0] and
    [attempts < maxattempts] when it went out; and on a [(range, error)]
    message the range is sent again exactly when [attempts < maxattempts] and
    [rows = 0], and is counted as failed otherwise. *)
Theorem export_retry_bookkeeping (max_attempts num_processes : Z) :
  (forall c r e c',
     handle_result max_attempts num_processes c (Some r, Failure e) = Ok c' ->
     exists d, range_map c !! r = Some d /\
       if (attempts d <? max_attempts) && (rows d =? 0)
       then sent c' = sent c ++ [(0, (r, d))] /\ failed c' = failed c /\
            range_map c' = <[r := bump_attempts d]> (range_map c)
       else sent c' = sent c /\ failed c' = failed c + 1 /\
            range_map c' = range_map c) /\
  (forall total batches c c',
     receive_loop max_attempts num_processes total batches c = Ok c' ->
     attempts_le (range_map c) (range_map c') /\
     exists new, sent c' = sent c ++ new /\
       forall i r d, (i, (r, d)) ∈ new -> rows d = 0 /\ attempts d < max_attempts) /\
  (forall ranges batches c',
     export_records max_attempts num_processes ranges batches = Ok c' ->
     attempts_le ranges (range_map c')).
Proof.
  split; [apply handle_result_failure|].
  split; [apply receive_loop_invariant|].
  intros ranges batches c' H. unfold export_records, send_work in H.
  destruct (send_work_from _ _ _ _) as [c|] eqn:Hs; [|discriminate].
  apply send_work_from_attempts in Hs. simpl in Hs.
  apply receive_loop_invariant in H as [H _].
  by eapply attempts_le_trans.
Qed.

Lemma export_retry_bookkeeping_witness :
  exists c', export_records 5 2 one_range one_range_run = Ok c' /\
             attempts_le one_range (range_map c') /\
             (sent c').*2.*1 = [whole_ring; whole_ring] /\ failed c' = 1.
Proof.
  eexists. split; [vm_compute; reflexivity|].
  split; [|split; vm_compute; reflexivity].
  apply (proj2 (proj2 (export_retry_bookkeeping 5 2)) one_range one_range_run).
  vm_compute. reflexivity.
Defined.

End ExportTaskFacts.

(** ** Which rows the two readers skip *)

Section SkipRows.

Local Open Scope nat_scope.

Lemma drop_to_nat_succ {A} (k : Z) (x : A) (l : list A) :
  (1 <= k)%Z -> drop (Z.to_nat k) (x :: l) = drop (Z.to_nat (k - 1)) l.
Proof.
  intros H. replace (Z.to_nat k) with (S (Z.to_nat (k - 1))) by lia. reflexivity.
Qed.

Lemma drop_to_nat_nonpos {A} (k : Z) (l : list A) :
  (k <= 0)%Z -> drop (Z.to_nat k) l = l.
Proof. intros H. replace (Z.to_nat k) with 0 by lia. reflexivity. Qed.

(** With no row limit, [n] rows read from one file: the rows numbered
    up to [skip_rows] are dropped, the others are kept in order. *)
Lemma files_read_loop_skip (n : nat) : forall r rows ls,
  (FilesReader.max_rows r < 0)%Z ->
  FilesReader.current_source r = Some ls ->
  n <= length ls ->
  FilesReader.read_loop n r rows =
  (Ok (rows ++ drop (Z.to_nat (FilesReader.skip_rows r - FilesReader.num_read r))
                    (take n ls)),
   FilesReader.mkReader (FilesReader.chunk_size r) (FilesReader.header r)
     (FilesReader.max_rows r) (FilesReader.skip_rows r) (FilesReader.sources r)
     (FilesReader.num_sources r) (Some (drop n ls))
     (FilesReader.num_read r + Z.of_nat n)).
Proof.
  induction n as [|n IH]; intros r rows ls Hmax Hcur Hlen.
  - simpl. rewrite take_0, drop_nil, app_nil_r, drop_0, Z.add_0_r.
    destruct r; simpl in *; by subst.
  - destruct ls as [|row ls]; [simpl in Hlen; lia|].
    simpl in Hlen. cbn [FilesReader.read_loop]. rewrite Hcur.
    cbn [FilesReader.take_row FilesReader.max_rows FilesReader.num_read
         FilesReader.skip_rows].
    replace (0 <=? FilesReader.max_rows r)%Z with false
      by (symmetry; apply Z.leb_gt; lia).
    cbn [andb].
    destruct (Z.ltb_spec (FilesReader.skip_rows r) (FilesReader.num_read r + 1)).
    + rewrite IH with (ls := ls); [|done|done|lia]. simpl.
      rewrite !drop_to_nat_nonpos by lia.
      rewrite <- app_assoc. simpl. f_equal. f_equal. lia.
    + rewrite IH with (ls := ls); [|done|done|lia]. simpl.
      rewrite (drop_to_nat_succ (FilesReader.skip_rows r - FilesReader.num_read r))
        by lia.
      f_equal; [do 3 f_equal; lia | f_equal; lia].
Qed.

(** The same for the pipe reader without header: only the rows numbered
    below [skip_rows] are dropped, so row [skip_rows] itself is kept. *)
Lemma pipe_read_loop_skip (n : nat) : forall r rows ls rest,
  (PipeReader.max_rows r < 0)%Z ->
  PipeReader.header r = false ->
  PipeReader.inmsg r = List.map Some ls ++ rest ->
  n <= length ls ->
  PipeReader.read_loop n r rows =
  (Ok (rows ++ drop (Z.to_nat (PipeReader.skip_rows r - 1 - PipeReader.num_read r))
                    (take n ls)),
   PipeReader.mkReader (List.map Some (drop n ls) ++ rest) (PipeReader.chunk_size r)
     false (PipeReader.max_rows r) (PipeReader.skip_rows r)
     (PipeReader.num_read r + Z.of_nat n) (PipeReader.exhausted r)
     (PipeReader.num_sources r)).
Proof.
  induction n as [|n IH]; intros r rows ls rest Hmax Hhd Hin Hlen.
  - simpl. rewrite take_0, drop_nil, app_nil_r, drop_0, Z.add_0_r.
    destruct r; simpl in *; by subst.
  - destruct ls as [|row ls]; [simpl in Hlen; lia|].
    simpl in Hlen. cbn [PipeReader.read_loop]. rewrite Hin, Hhd. simpl.
    replace (0 <=? PipeReader.max_rows r)%Z with false
      by (symmetry; apply Z.leb_gt; lia).
    cbn [andb].
    destruct (Z.ltb_spec (PipeReader.num_read r + 1) (PipeReader.skip_rows r)).
    + rewrite IH with (ls := ls) (rest := rest); [|done|done|done|lia]. simpl.
      rewrite (drop_to_nat_succ (PipeReader.skip_rows r - 1 - PipeReader.num_read r))
        by lia.
      f_equal; [do 3 f_equal; lia | f_equal; lia].
    + rewrite IH with (ls := ls) (rest := rest); [|done|done|done|lia]. simpl.
      rewrite !drop_to_nat_nonpos by lia.
      rewrite <- app_assoc. simpl. f_equal. f_equal. lia.
Qed.

End SkipRows.

(** C7. With [skiprows = 2] the files reader returns the third row first,
    while the pipe reader returns the second row: it skips the rows numbered
    below [skiprows] only, and with a header it counts the header row as
    well, so that no data row is skipped at all. *)
Theorem pipe_reader_skips_one_row_less :
  (FilesReader.read_rows 10 files_skip2).1 = Ok ["r3"] /\
  (PipeReader.read_rows 10 pipe_skip2).1 = Ok ["r2"; "r3"] /\
  (PipeReader.read_rows 10 pipe_header_skip2).1 = Ok ["r1"; "r2"; "r3"].
Proof. repeat split; vm_compute; reflexivity. Qed.

Module FeedingProcessFacts.
Import FeedingProcess.

(** *** How many rows one call of [read_rows] returns *)

Lemma files_read_loop_length n : forall r rows rows' r',
  FilesReader.read_loop n r rows = (Ok rows', r') ->
  (length rows' <= length rows + n)%nat.
Proof.
  induction n as [|n IH]; intros r rows rows' r' H; simpl in H.
  - injection H as <- <-. lia.
  - destruct (FilesReader.current_source r) as [[|row rest]|]; [| |discriminate].
    + destruct (FilesReader.next_source r) as [[?|? ?] ?]; [|discriminate].
      injection H as <- <-. lia.
    + destruct (_ && _).
      * destruct (FilesReader.next_source _) as [[?|? ?] r2].
        -- injection H as <- <-. lia.
        -- destruct (FilesReader.next_source r2) as [[?|? ?] ?]; [|discriminate].
           injection H as <- <-. lia.
      * destruct (_ <? _); apply IH in H; rewrite ?length_app in H; simpl in H; lia.
Qed.

Lemma pipe_read_loop_length n : forall r rows rows' r',
  PipeReader.read_loop n r rows = (Ok rows', r') ->
  (length rows' <= length rows + n)%nat.
Proof.
  induction n as [|n IH]; intros r rows rows' r' H; simpl in H.
  - injection H as <- <-. lia.
  - destruct (PipeReader.inmsg r) as [|[row|] rest]; [discriminate| |].
    + destruct (_ && _).
      * injection H as <- <-. lia.
      * destruct (_ || _); apply IH in H; rewrite ?length_app in H; simpl in H; lia.
    + injection H as <- <-. lia.
Qed.

Lemma reader_read_rows_length max_rows rd rows rd' :
  reader_read_rows max_rows rd = (Ok rows, rd') ->
  (length rows <= Z.to_nat (Z.min max_rows (reader_chunk_size rd)))%nat.
Proof.
  destruct rd as [r|r]; simpl.
  - unfold FilesReader.read_rows.
    destruct (FilesReader.current_source r).
    + destruct (FilesReader.read_loop _ r []) as [[rows0|? ?] r0] eqn:E; [|discriminate].
      intros [= <- <-]. apply files_read_loop_length in E. simpl in E.
      pose proof (List.filter_length_le FilesReader.nonempty rows0). lia.
    + intros [= <- <-]. simpl. lia.
  - unfold PipeReader.read_rows.
    destruct (PipeReader.read_loop _ r []) as [[rows0|? ?] r0] eqn:E; [|discriminate].
    intros [= <- <-]. apply pipe_read_loop_length in E. simpl in E. lia.
Qed.

(** *** One turn of the loop over the channels *)

Lemma feed_channel_sends clock ch f :
  let f' := (feed_channel clock ch f).2 in
  (worker_channels f' = worker_channels f /\ chunk_id f' = chunk_id f) \/
  exists rows,
    worker_channels f' = worker_channels f ++ [(ch, chunk_of (chunk_id f + 1) rows)] /\
    chunk_id f' = chunk_id f + 1 /\
    rows <> [] /\
    len rows <= Z.min (ingest_rate f - RateMeter.current_record (send_meter f))
                      (reader_chunk_size (the_reader f)).
Proof.
  cbv zeta. unfold feed_channel.
  destruct (Z.leb_spec (ingest_rate f - RateMeter.current_record (send_meter f)) 0)
    as [Hle|Hgt]; [left; done|].
  destruct (reader_read_rows _ _) as [[[|row rows]|e m] rd] eqn:E; simpl.
  - left; done.
  - right. exists (row :: rows). repeat split; [done|].
    apply reader_read_rows_length in E. unfold len.
    rewrite length_cons in *. lia.
  - left; done.
Qed.

Lemma numbered_new rd ingest : numbered (new_feeder rd ingest).
Proof. split; [done|]. intros i ch c H. simpl in H. by rewrite lookup_nil in H. Qed.

Lemma numbered_feed_channel clock ch f :
  numbered f -> numbered (feed_channel clock ch f).2.
Proof.
  intros [Hid Hlog]. pose proof (feed_channel_sends clock ch f) as Hs. cbv zeta in Hs.
  destruct Hs as [[Hw Hc]|(rows & Hw & Hc & Hne & _)]; split.
  - by rewrite Hw, Hc.
  - by rewrite Hw.
  - rewrite Hw, Hc, Hid. unfold len. rewrite length_app. simpl. lia.
  - rewrite Hw. intros i ch' c Hi.
    apply lookup_app_Some in Hi as [Hi|[Hlen Hi]]; [eauto|].
    apply list_lookup_singleton_Some in Hi as [Hz [= <- <-]].
    exists rows. split; [|done]. f_equal. rewrite Hid. unfold len. lia.
Qed.

Lemma numbered_feed_channels clock channels : forall f,
  numbered f -> numbered (feed_channels clock channels f).
Proof.
  induction channels as [|ch channels IH]; intros f Hf; simpl; [done|].
  pose proof (numbered_feed_channel clock ch f Hf) as H1.
  destruct (feed_channel clock ch f) as [[|] f']; simpl in H1; auto.
Qed.

Lemma numbered_feed_rounds clock rounds num_channels : forall f,
  numbered f -> numbered (feed_rounds clock rounds num_channels f).
Proof.
  induction rounds as [|n IH]; intros f Hf; simpl; [done|].
  destruct (reader_exhausted (the_reader f)); [done|].
  apply IH. by apply numbered_feed_channels.
Qed.

Lemma chunk_of_fields id rows :
  chunk_of id rows !! "id" = Some (PInt id) /\
  chunk_of id rows !! "rows" = Some (PLines rows) /\
  chunk_of id rows !! "imported" = Some (PInt 0) /\
  chunk_of id rows !! "attempts" = None /\
  dom (chunk_of id rows) = {[ "id"; "rows"; "imported" ]}.
Proof.
  unfold chunk_of.
  split; [by simplify_map_eq|]. split; [by simplify_map_eq|].
  split; [by simplify_map_eq|]. split; [by simplify_map_eq|].
  rewrite !dom_insert_L, dom_singleton_L. set_solver.
Qed.

Example feeder_run_abc :
  worker_channels (feed_rounds never_elapsed 5 1 (new_feeder files_abc 100)) =
  [(0%nat, chunk_of 1 ["a"; "b"]); (0%nat, chunk_of 2 ["c"])].
Proof. vm_compute. reflexivity. Qed.

(** The first chunk of that run has no [attempts] entry, hence not the
    entry [attempts = 1]. *)
Lemma feeder_chunk_without_attempts :
  exists ch c,
    worker_channels (feed_rounds never_elapsed 5 1 (new_feeder files_abc 100)) !! 0%nat
      = Some (ch, c) /\
    c !! "attempts" = None /\ c !! "attempts" <> Some (PInt 1).
Proof.
  rewrite feeder_run_abc. exists 0%nat, (chunk_of 1 ["a"; "b"]).
  split; [reflexivity|]. split; [apply chunk_of_fields|].
  rewrite (proj1 (proj2 (proj2 (proj2 (chunk_of_fields 1 ["a"; "b"]))))). discriminate.
Qed.

(** C6. Every chunk the feeder puts on a worker channel is a dictionary with
    exactly the entries [id], [rows] and [imported] (there is no [attempts]),
    where [imported = 0], the identifiers are 1, 2, 3, ... in the order of
    sending over the whole run, and [rows] is a non-empty list of at most
    [min(ingestrate - meter.current_record, chunksize)] rows, the budget being
    taken when the rows are read. *)
Theorem feeder_chunks_numbered_and_bounded (clock : nat -> bool) :
  (forall ch f,
     let f' := (feed_channel clock ch f).2 in
     (worker_channels f' = worker_channels f /\ chunk_id f' = chunk_id f) \/
     exists rows,
       worker_channels f' = worker_channels f ++ [(ch, chunk_of (chunk_id f + 1) rows)] /\
       chunk_id f' = chunk_id f + 1 /\
       rows <> [] /\
       len rows <= Z.min (ingest_rate f - RateMeter.current_record (send_meter f))
                         (reader_chunk_size (the_reader f))) /\
  (forall rounds num_channels rd ingest i ch c,
     worker_channels (feed_rounds clock rounds num_channels (new_feeder rd ingest)) !! i
       = Some (ch, c) ->
     exists rows,
       rows <> [] /\
       c !! "id" = Some (PInt (Z.of_nat i + 1)) /\
       c !! "rows" = Some (PLines rows) /\
       c !! "imported" = Some (PInt 0) /\
       c !! "attempts" = None /\
       dom c = {[ "id"; "rows"; "imported" ]}).
Proof.
  split; [apply feed_channel_sends|].
  intros rounds num_channels rd ingest i ch c H.
  destruct (numbered_feed_rounds clock rounds num_channels _ (numbered_new rd ingest))
    as [_ Hlog].
  destruct (Hlog i ch c H) as (rows & -> & Hne).
  exists rows. split; [done|]. apply chunk_of_fields.
Qed.

Lemma feeder_chunks_numbered_and_bounded_witness :
  exists rows,
    rows <> [] /\
    chunk_of 2 ["c"] !! "id" = Some (PInt (Z.of_nat 1 + 1)) /\
    chunk_of 2 ["c"] !! "rows" = Some (PLines rows) /\
    chunk_of 2 ["c"] !! "imported" = Some (PInt 0) /\
    chunk_of 2 ["c"] !! "attempts" = None /\
    dom (chunk_of 2 ["c"]) = {[ "id"; "rows"; "imported" ]}.
Proof.
  apply (proj2 (feeder_chunks_numbered_and_bounded never_elapsed)
           5%nat 1%nat files_abc 100 1%nat 0%nat).
  rewrite feeder_run_abc. reflexivity.
Defined.

End FeedingProcessFacts.

Module ImportProcessFacts.
Import ImportProcess.

(** What [update_chunk] does to a chunk that has its two entries: the
    counter grows by the number of rows handed in, and the progress message
    goes out exactly when the counter then equals the length of the list that
    is under ['rows'] at that moment. *)
Lemma update_chunk_spec rows ref w c v n imported :
  chunks w !! ref = Some c ->
  c !! "rows" = Some v ->
  (forall w', py_len v w' = (Ok n, w')) ->
  c !! "imported" = Some (PInt imported) ->
  update_chunk rows ref w =
  (Ok tt,
   mkWorker (<[ref := <["imported" := PInt (imported + payload_len rows)]> c]> (chunks w))
            (inflight w)
            (outmsg w ++ if imported + payload_len rows =? n
                         then [ImportProcessResult n] else [])).
Proof.
  intros Hc Hr Hn Hi.
  unfold update_chunk, mbind, M_bind, bind, get_chunk, getitem, set_chunk, as_int.
  rewrite Hc, Hr. unfold ret. rewrite Hn, Hi. simpl.
  destruct (imported + payload_len rows =? n); simpl.
  - reflexivity.
  - by rewrite app_nil_r.
Qed.

(** Once rows that failed to parse have been counted and the chunk holds
    only its converted rows, crediting all of them overshoots: the counter
    ends above the length of the chunk's rows and the callback that credits
    the last of them sends nothing. *)
Lemma result_callback_overshoots r w c converted imported :
  chunks w !! req_chunk r = Some c ->
  c !! "rows" = Some (PRows converted) ->
  c !! "imported" = Some (PInt imported) ->
  len converted < imported + len (batch_rows (req_batch r)) ->
  outmsg (result_callback r w).2 = outmsg w.
Proof.
  intros Hc Hr Hi Hlt. unfold result_callback.
  rewrite (update_chunk_spec _ _ w c (PRows converted) (len converted) imported)
    by done.
  simpl. destruct (Z.eqb_spec (imported + len (batch_rows (req_batch r))) (len converted)).
  - lia.
  - by rewrite app_nil_r.
Qed.

(** A chunk whose rows all parse is reported once, with its three rows. *)
Example chunk_all_good_reported :
  outmsg (demo_run [chunk_all_good] [Succeeded 0%nat]) = [ImportProcessResult 3].
Proof. vm_compute. reflexivity. Qed.

(** C1. A chunk of three rows of which the second fails to parse: the
    failed row is reported in a [ParseError] and counted into
    [chunk['imported']] while the chunk still holds its three raw lines; then
    the chunk's rows are replaced by the two converted rows, whose batch
    succeeds.  Every row is then accounted for and nothing is in flight, but
    [imported] is 3 against 2 chunk rows and no [ImportProcessResult] has been
    sent. *)
Theorem chunk_with_parse_error_never_reported :
  let w := demo_run [chunk_one_bad] [Succeeded 0%nat] in
  outmsg w =
    [ImportTaskError "ParseError" "invalid literal for int() with base 10: 'x'"
       (ParsedRows [["x"; "b"]]) 1 true] /\
  inflight w = [] /\
  (forall n, ImportProcessResult n ∉ outmsg w) /\
  exists c, chunks w !! 0%nat = Some c /\
            c !! "imported" = Some (PInt 3) /\
            c !! "rows" = Some (PRows [[VInt 1; VText "a"]; [VInt 3; VText "c"]]).
Proof.
  cbv zeta.
  assert (Hout : outmsg (demo_run [chunk_one_bad] [Succeeded 0%nat]) =
    [ImportTaskError "ParseError" "invalid literal for int() with base 10: 'x'"
       (ParsedRows [["x"; "b"]]) 1 true]) by (vm_compute; reflexivity).
  split; [exact Hout|]. split; [vm_compute; reflexivity|]. split.
  - intros n Hin. rewrite Hout in Hin.
    apply list_elem_of_singleton in Hin. discriminate.
  - eexists. split; [vm_compute; reflexivity|].
    split; vm_compute; reflexivity.
Qed.

End ImportProcessFacts.

Module TimestampFacts.
Import Timestamp.

(** A match without a zone group is read in local time. *)
Lemma convert_local_time strptime time_format timezone val g rest seconds :
  (forall tval, strptime val <> Ok tval) ->
  (forall e t, strptime val = Raise e t -> e = "ValueError") ->
  p_match val = Some (g, rest) ->
  g7 g = None ->
  timegm (mkTime (int_of_digits (g1 g) 0) (int_of_digits (g2 g) 0)
                 (int_of_digits (g3 g) 0)
                 (int_or_zero (g4 g)) (int_or_zero (g5 g)) (int_or_zero (g6 g)))
    = Ok seconds ->
  convert_datetime strptime time_format timezone val = Ok ((seconds - timezone) * 1000).
Proof.
  intros Hno Herr Hm Hz Ht. unfold convert_datetime.
  destruct (strptime val) as [tval|e t] eqn:Es; [by destruct (Hno tval)|].
  rewrite (Herr e t eq_refl). simpl.
  unfold convert_with_pattern. rewrite Hm, Hz, Ht. reflexivity.
Qed.

(** A field with hours, minutes and seconds where a group is missing reads
    as zero there: the time of day is honoured only through groups 4 to 6. *)
Lemma time_of_day_from_groups val g rest :
  p_match val = Some (g, rest) ->
  g4 g = None -> int_or_zero (g4 g) = 0 /\ g5 g = None /\ g6 g = None.
Proof.
  unfold p_match. destruct (match_date val) as [[[[y m] d] s1]|]; [|discriminate].
  unfold match_time.
  destruct (digits 2 _) as [[h s2]|]; [destruct (lit ":" s2) as [s3|];
    [destruct (digits 2 s3) as [[mi s4]|];
      [destruct (lit ":" s4) as [s5|]; [destruct (digits 2 s5) as [[sec s6]|]|]|]|]|];
  destruct (match_zone _) as [[[sign zh] zm] s7];
  intros [= <- <-]; simpl; intros H; try discriminate; by rewrite ?H.
Qed.

(** C5. With the default time format, the field [2016-01-01T12:30:45],
    whose separator is the bare letter T, converts to midnight of that day
    in local time, as [2016-01-01] does: the pattern stops in front of the T
    and its groups for hour, minute and second stay empty.  The same time of
    day after a space, or after the letter T between apostrophes, is
    honoured; and text after the match is ignored instead of raising
    [ValueError]. *)
Theorem timestamp_with_bare_T_converts_to_midnight (time_format : string) (timezone : Z) :
  let convert := convert_datetime strptime_default time_format timezone in
  p_match "2016-01-01T12:30:45" =
    Some (mkGroups "2016" "01" "01" None None None None None None, "T12:30:45") /\
  convert "2016-01-01T12:30:45" = Ok ((1451606400 - timezone) * 1000) /\
  convert "2016-01-01" = Ok ((1451606400 - timezone) * 1000) /\
  convert "2016-01-01 12:30:45" = Ok ((1451606400 + 45045 - timezone) * 1000) /\
  convert "2016-01-01'T'12:30:45" = Ok ((1451606400 + 45045 - timezone) * 1000) /\
  convert "2016-01-01 12:30:45 or so" = Ok ((1451606400 + 45045 - timezone) * 1000).
Proof.
  cbv zeta. split; [vm_compute; reflexivity|].
  repeat split;
    (eapply convert_local_time;
     [ intros tval; discriminate
     | intros e t [= <- _]; reflexivity
     | vm_compute; reflexivity
     | reflexivity
     | vm_compute; reflexivity ]).
Qed.

End TimestampFacts.

(** ** ExportTask: what the ranges of [get_ranges] cover *)

Module ExportRangesFacts.
Import ExportTask ExportTaskFacts ExportRanges.

Lemma insert_sorted_tokens {A} (x : Z * A) l :
  (insert_sorted x l).*1 ≡ₚ x.1 :: l.*1.
Proof.
  induction l as [|y l IH]; simpl; [done|].
  destruct (x.1 <? y.1); simpl; [done|].
  rewrite IH. apply Permutation_swap.
Qed.

Lemma ring_sort_tokens {A} (l : list (Z * A)) : (ring_sort l).*1 ≡ₚ l.*1.
Proof.
  induction l as [|x l IH]; simpl; [done|].
  by rewrite insert_sorted_tokens, IH.
Qed.

Lemma insert_sorted_increasing {A} (x : Z * A) l :
  increasing l.*1 -> x.1 ∉ l.*1 -> increasing (insert_sorted x l).*1.
Proof.
  induction l as [|y l IH]; simpl; intros Hs Hx.
  - by split.
  - destruct Hs as [Hy Hs].
    apply not_elem_of_cons in Hx as [Hne Hx].
    destruct (Z.ltb_spec x.1 y.1) as [Hlt|Hge]; simpl.
    + split; [|done].
      constructor; [done|]. eapply Forall_impl; [exact Hy|]. simpl. lia.
    + split; [|by apply IH].
      rewrite insert_sorted_tokens. constructor; [lia|done].
Qed.

(** Sorting a ring whose tokens are distinct puts them in strictly
    increasing order. *)
Lemma ring_sort_increasing {A} (l : list (Z * A)) :
  NoDup l.*1 -> increasing (ring_sort l).*1.
Proof.
  induction l as [|x l IH]; simpl; intros Hnd; [done|].
  apply NoDup_cons in Hnd as [Hx Hnd].
  apply insert_sorted_increasing; [by apply IH|].
  by rewrite ring_sort_tokens.
Qed.

Lemma covered_insert m r d t :
  covered (<[r := d]> m) t <-> in_range r t \/ covered m t.
Proof.
  unfold covered. split.
  - intros (r' & d' & Hl & Hr). destruct (decide (r = r')) as [->|Hne].
    + by left.
    + rewrite lookup_insert_ne in Hl by done. right. eauto.
  - intros [Hr|(r' & d' & Hl & Hr)].
    + exists r, d. by rewrite lookup_insert_eq.
    + destruct (decide (r = r')) as [->|Hne].
      * exists r', d. by rewrite lookup_insert_eq.
      * exists r', d'. by rewrite lookup_insert_ne.
Qed.

Lemma covered_empty t : ~ covered ∅ t.
Proof. intros (r & d & Hl & _). by rewrite lookup_empty in Hl. Qed.

(** The lower bound of the window is below every token for which
    [make_range] returns a range. *)
Lemma make_range_some_begin b e prev curr r lo :
  make_range b e prev (Some curr) = Some r ->
  (applied_window b e).1 = Some lo -> lo <= curr.
Proof.
  unfold make_range, applied_window, truthy, py_lt. intros H Hlo.
  range_cases; simpl in *; try discriminate; simplify_eq; lia.
Qed.

Lemma walk_inv_start b e : walk_inv b e (mkWalk ∅ None None).
Proof.
  split; [|split; [|split]]; simpl; try done.
  - intros t. split.
    + intros Hc. by apply covered_empty in Hc.
    + by intros [_ (p & ? & _)].
  - intros r1 r2 t [d Hd]. by rewrite lookup_empty in Hd.
Qed.

Lemma walk_inv_step h dc m b e w token replicas :
  walk_inv b e w ->
  (forall p, previous w = Some p -> p < token) ->
  walk_inv b e (walk_step h dc m b e w (token, replicas)) /\
  (previous (walk_step h dc m b e w (token, replicas)) = previous w \/
   previous (walk_step h dc m b e w (token, replicas)) = Some token).
Proof.
  intros (Hcov & Huniq & Hlow & Hnone) Hlt. unfold walk_step.
  destruct (decide (Some token = m)); [by split; [|left]|].
  destruct (make_range b e (previous w) (Some token)) as [r|] eqn:Hr;
    [|by split; [|left]].
  split; [|by right]. simpl.
  pose proof (make_range_some _ _ _ _ _ Hr) as Hsem.
  assert (Hold : forall t, covered (ranges w) t -> ~ in_range r t).
  { intros t Hc Hin. apply Hcov in Hc as [_ (p & Hp & Hle)].
    apply Hsem in Hin as [[Hin _] _]. rewrite Hp in Hin. simpl in Hin.
    specialize (Hlt p Hp). lia. }
  split; [|split; [|split]]; cbn [ranges previous].
  - intros t. rewrite covered_insert. split.
    + intros [Hin|Hc].
      * split; [by apply Hsem in Hin as [_ ?]|].
        exists token. split; [done|]. apply Hsem in Hin as [[_ Hin] _]. exact Hin.
      * split; [by apply Hcov in Hc as [? _]|].
        apply Hcov in Hc as [_ (p & Hp & Hle)]. exists token. split; [done|].
        specialize (Hlt p Hp). lia.
    + intros [Hw (p & [= <-] & Hle)].
      destruct (previous w) as [p|] eqn:Hp.
      * destruct (Z.le_gt_cases t p) as [Hle'|Hgt].
        -- right. apply Hcov. split; [done|]. eauto.
        -- left. apply Hsem. split; [|done]. split; simpl; lia.
      * left. apply Hsem. split; [|done]. by split.
  - intros r1 r2 t [d1 H1] [d2 H2] Hi1 Hi2.
    destruct (decide (r = r1)) as [<-|Hn1]; destruct (decide (r = r2)) as [<-|Hn2];
      try done.
    + rewrite lookup_insert_ne in H2 by done.
      destruct (Hold t); [by exists r2, d2|done].
    + rewrite lookup_insert_ne in H1 by done.
      destruct (Hold t); [by exists r1, d1|done].
    + rewrite lookup_insert_ne in H1, H2 by done. by eapply Huniq.
  - intros p lo [= <-] Hlo. by eapply make_range_some_begin.
  - done.
Qed.

Lemma walk_inv_fold h dc m b e ring : forall w,
  walk_inv b e w ->
  increasing ring.*1 ->
  (forall p, previous w = Some p -> Forall (Z.lt p) ring.*1) ->
  walk_inv b e (fold_left (walk_step h dc m b e) ring w).
Proof.
  induction ring as [|[token replicas] ring IH]; intros w Hw Hs Hp; simpl; [done|].
  simpl in Hs. destruct Hs as [Htok Hs].
  destruct (walk_inv_step h dc m b e w token replicas Hw) as [Hw' Hprev].
  { intros p Hpp. specialize (Hp p Hpp). simpl in Hp. by apply Forall_cons in Hp as [? _]. }
  apply IH; [done|done|].
  intros p Hpp.
  assert (Hq : previous (walk_step h dc m b e w (token, replicas)) = Some p) by exact Hpp.
  destruct Hprev as [Heq|Heq]; rewrite Heq in Hq.
  - specialize (Hp p Hq). simpl in Hp. by apply Forall_cons in Hp as [_ ?].
  - by injection Hq as <-.
Qed.

Lemma walk_first_range_data h dc m b e ring : forall w,
  ring <> [] \/ is_Some (first_range_data w) ->
  is_Some (first_range_data (fold_left (walk_step h dc m b e) ring w)).
Proof.
  induction ring as [|[token replicas] ring IH]; intros w H; simpl.
  - by destruct H.
  - apply IH. right. unfold walk_step.
    destruct (first_range_data w); destruct (decide _);
      try destruct (make_range _ _ _ _); simpl; eauto.
Qed.

(** When neither bound is 0, the bounds applied are the window asked
    for. *)
Lemma applied_window_nonzero b e :
  b <> Some 0 -> e <> Some 0 -> applied_window b e = window b e.
Proof.
  intros Hb He. unfold applied_window, window, truthy.
  destruct b as [b|], e as [e|]; try done.
  - destruct (Z.eqb_spec b 0), (Z.eqb_spec e 0); simpl; congruence.
  - destruct (Z.eqb_spec b 0); simpl; congruence.
  - destruct (Z.eqb_spec e 0); simpl; congruence.
Qed.

(** The ranges cover the bounds that [make_range] applies. *)
Lemma get_ranges_cover_applied_window h dc m b e ring :
  (2 <= length ring)%nat ->
  NoDup ring.*1 ->
  is_Some m ->
  e <> Some 0 ->
  (get_ranges h dc m b e true ring).2 = [] ->
  let result := (get_ranges h dc m b e true ring).1 in
  (forall t, covered result t <-> in_range (applied_window b e) t) /\
  (forall r1 r2 t, is_Some (result !! r1) -> is_Some (result !! r2) ->
                   in_range r1 t -> in_range r2 t -> r1 = r2).
Proof.
  intros Hlen Hnd Hm He Herr. cbv zeta.
  assert (Hres : (get_ranges h dc m b e true ring).1 =
                 wrap_around e (walk_ring h dc m b e (ring_sort ring)) /\
                 (get_ranges h dc m b e true ring).1 <> ∅).
  { rewrite get_ranges_walk by done. unfold get_ranges in Herr.
    destruct (truthy b && py_lt b m); [discriminate|].
    destruct (truthy b && truthy e && py_lt e b); [discriminate|].
    rewrite bool_decide_eq_true_2 in Herr by done. simpl in Herr.
    pose proof (ring_sort_length ring) as Hs.
    destruct (ring_sort ring) as [|x [|y l]] eqn:Hsort; simpl in Hs; try lia.
    split; [done|]. intros Hempty. rewrite Hempty in Herr.
    rewrite map_to_list_empty in Herr. discriminate. }
  destruct Hres as [Hres Hne]. rewrite Hres in Hne |- *. clear Hres Herr.
  unfold walk_ring in *.
  pose proof (walk_inv_fold h dc m b e (ring_sort ring) _ (walk_inv_start b e)
                (ring_sort_increasing ring Hnd)) as Hinv.
  destruct Hinv as (Hcov & Huniq & Hlow & Hnone); [by intros p [=]|].
  destruct (walk_first_range_data h dc m b e (ring_sort ring) (mkWalk ∅ None None))
    as [d Hd].
  { left. intros Hnil. pose proof (ring_sort_length ring) as Hs.
    rewrite Hnil in Hs. simpl in Hs. lia. }
  set (w := fold_left (walk_step h dc m b e) (ring_sort ring) (mkWalk ∅ None None)) in *.
  unfold wrap_around in *. rewrite Hd in *.
  destruct (previous w) as [p|] eqn:Hp; [|by rewrite Hnone in Hne].
  destruct (negb (truthy e) || py_lt (Some p) e) eqn:Hwrap.
  - assert (Hlast : forall t, in_range (Some p, e) t <-> in_range (applied_window b e) t /\ p < t).
    { intros t. unfold in_range, applied_window in *. simpl in *.
      destruct e as [e0|]; simpl in *.
      - destruct (Z.eqb_spec e0 0); [congruence|]. simpl in *.
        destruct (truthy b) eqn:Hb; simpl.
        + destruct b as [b0|]; [|done]. specialize (Hlow p b0 eq_refl eq_refl). lia.
        + tauto.
      - destruct (truthy b) eqn:Hb; simpl.
        + destruct b as [b0|]; [|done]. specialize (Hlow p b0 eq_refl eq_refl). lia.
        + tauto. }
    split.
    + intros t. rewrite covered_insert, Hlast, Hcov. split.
      * intros [[? _]|[? _]]; done.
      * intros Hw. destruct (Z.le_gt_cases t p); [right|left]; eauto with lia.
    + intros r1 r2 t [d1 H1] [d2 H2] Hi1 Hi2.
      assert (Hold : forall r d', ranges w !! r = Some d' -> in_range r t -> t <= p).
      { intros r d' Hl Hi. assert (Hc : covered (ranges w) t) by (by exists r, d').
        apply Hcov in Hc as [_ (p' & [= <-] & ?)]. done. }
      destruct (decide ((Some p, e) = r1)) as [<-|Hn1];
        destruct (decide ((Some p, e) = r2)) as [<-|Hn2]; try done.
      * rewrite lookup_insert_ne in H2 by done.
        apply Hlast in Hi1 as [_ ?]. specialize (Hold _ _ H2 Hi2). lia.
      * rewrite lookup_insert_ne in H1 by done.
        apply Hlast in Hi2 as [_ ?]. specialize (Hold _ _ H1 Hi1). lia.
      * rewrite lookup_insert_ne in H1, H2 by done. by eapply Huniq.
  - split; [|exact Huniq].
    intros t. rewrite Hcov. split; [by intros [? _]|].
    intros Hw. split; [done|]. exists p. split; [done|].
    apply orb_false_iff in Hwrap as [Ht Hlt]. apply negb_false_iff in Ht.
    unfold in_range, applied_window in Hw. rewrite Ht in Hw. simpl in Hw.
    destruct e as [e0|]; [|done]. simpl in Hlt. apply Z.ltb_ge in Hlt. lia.
Qed.

(** X1. On a ring of at least two distinct tokens, when the partitioner is
    known, neither [begintoken] nor [endtoken] is 0 and no error is printed,
    the ranges that [get_ranges] returns cover the window
    [(begintoken, endtoken]] exactly (an unset option does not restrict): a
    token is in one of the ranges if and only if it is in the window, and no
    token is in two of them. *)
Theorem get_ranges_cover_window h dc m b e ring :
  (2 <= length ring)%nat ->
  NoDup ring.*1 ->
  is_Some m ->
  b <> Some 0 ->
  e <> Some 0 ->
  (get_ranges h dc m b e true ring).2 = [] ->
  let result := (get_ranges h dc m b e true ring).1 in
  (forall t, covered result t <-> in_range (window b e) t) /\
  (forall r1 r2 t, is_Some (result !! r1) -> is_Some (result !! r2) ->
                   in_range r1 t -> in_range r2 t -> r1 = r2).
Proof.
  intros Hlen Hnd Hm Hb He Herr. cbv zeta.
  rewrite <- (applied_window_nonzero b e Hb He).
  by apply get_ranges_cover_applied_window.
Qed.

Lemma get_ranges_cover_window_witness :
  let result := (get_ranges "127.0.0.1" "dc1" (get_min_token murmur3)
                            (Some 7) (Some 12) true ring_5_10_20).1 in
  (forall t, covered result t <-> in_range (window (Some 7) (Some 12)) t) /\
  (forall r1 r2 t, is_Some (result !! r1) -> is_Some (result !! r2) ->
                   in_range r1 t -> in_range r2 t -> r1 = r2).
Proof.
  apply (get_ranges_cover_window "127.0.0.1" "dc1" (get_min_token murmur3)
           (Some 7) (Some 12) ring_5_10_20).
  - simpl. lia.
  - apply (bool_decide_unpack (NoDup ring_5_10_20.*1)). vm_compute. exact I.
  - vm_compute. eauto.
  - discriminate.
  - discriminate.
  - vm_compute. reflexivity.
Defined.

End ExportRangesFacts.

(** ** ExportTask: the state of a range when it is created and dispatched *)

Module ExportDispatchFacts.
Import ExportTask ExportTaskFacts ExportRanges.

Lemma make_range_data_fresh h dc ring replicas :
  (replicas = [] \/ exists token, (token, replicas) ∈ ring) ->
  fresh_info h dc ring (make_range_data h dc replicas).
Proof.
  intros Hin. unfold fresh_info, make_range_data. simpl.
  split; [done|]. split; [done|].
  set (hs := List.map address _).
  assert (Hhs : forall a, a ∈ hs -> exists r, r ∈ replicas /\ address r = a /\
                                   is_up r = true /\ datacenter r = dc).
  { intros a Ha. subst hs. apply list_elem_of_In, List.in_map_iff in Ha as (r & <- & Hr).
    apply List.filter_In in Hr as [Hr Hc]. apply andb_true_iff in Hc as [Hup Hdc].
    apply String.eqb_eq in Hdc. exists r. split; [by apply list_elem_of_In|done]. }
  destruct hs as [|a0 hs'] eqn:E.
  - split; [done|]. intros a Ha. left. by apply list_elem_of_singleton in Ha.
  - split; [done|]. intros a Ha. right.
    destruct (Hhs a Ha) as (r & Hr & Hrest).
    destruct Hin as [->|[token Hin]]; [by apply elem_of_nil in Hr|].
    exists (token, replicas), r. done.
Qed.

Lemma walk_step_fresh h dc m b e ring w item :
  item ∈ ring ->
  (forall r d, ranges w !! r = Some d -> fresh_info h dc ring d) ->
  (forall d, first_range_data w = Some d -> fresh_info h dc ring d) ->
  (forall r d, ranges (walk_step h dc m b e w item) !! r = Some d -> fresh_info h dc ring d) /\
  (forall d, first_range_data (walk_step h dc m b e w item) = Some d ->
             fresh_info h dc ring d).
Proof.
  intros Hin Hr Hf. destruct item as [token replicas]. unfold walk_step.
  assert (Hnew : fresh_info h dc ring (make_range_data h dc replicas)).
  { apply make_range_data_fresh. right. by exists token. }
  assert (Hf' : forall d, match first_range_data w with
                          | Some d0 => Some d0
                          | None => Some (make_range_data h dc replicas)
                          end = Some d -> fresh_info h dc ring d).
  { intros d. destruct (first_range_data w) eqn:E; intros [= <-]; eauto. }
  destruct (decide _); [by split|].
  destruct (make_range _ _ _ _) as [r0|]; [|by split].
  split; [|done]. simpl. intros r d Hl.
  destruct (decide (r0 = r)) as [->|Hne].
  - rewrite lookup_insert_eq in Hl. by injection Hl as <-.
  - rewrite lookup_insert_ne in Hl by done. eauto.
Qed.

Lemma walk_fold_fresh h dc m b e ring items : forall w,
  (forall item, item ∈ items -> item ∈ ring) ->
  (forall r d, ranges w !! r = Some d -> fresh_info h dc ring d) ->
  (forall d, first_range_data w = Some d -> fresh_info h dc ring d) ->
  let w' := fold_left (walk_step h dc m b e) items w in
  (forall r d, ranges w' !! r = Some d -> fresh_info h dc ring d) /\
  (forall d, first_range_data w' = Some d -> fresh_info h dc ring d).
Proof.
  induction items as [|item items IH]; intros w Hsub Hr Hf; simpl; [done|].
  destruct (walk_step_fresh h dc m b e ring w item) as [Hr' Hf']; auto.
  { apply Hsub. by left. }
  apply IH; auto. intros it Hit. apply Hsub. by right.
Qed.

Lemma insert_sorted_elem {A} (x y : Z * A) l :
  y ∈ insert_sorted x l -> y = x \/ y ∈ l.
Proof.
  induction l as [|z l IH]; simpl.
  - intros H. apply list_elem_of_singleton in H. by left.
  - destruct (x.1 <? z.1).
    + intros H. apply elem_of_cons in H as [->|H]; [by left|by right].
    + intros H. apply elem_of_cons in H as [->|H]; [right; by left|].
      destruct (IH H) as [->|?]; [by left|right; by right].
Qed.

Lemma ring_sort_elem {A} (y : Z * A) l : y ∈ ring_sort l -> y ∈ l.
Proof.
  induction l as [|x l IH]; simpl; [done|].
  intros H. destruct (insert_sorted_elem _ _ _ H) as [->|H']; [by left|].
  right. by apply IH.
Qed.

(** X2. Every range that [get_ranges] returns starts with no attempt and
    no row, and with at least one host; each host is the shell's own host or
    a replica of the ring that is up and in the local data centre. *)
Theorem get_ranges_fresh_ranges h dc m b e token_map ring r d :
  (get_ranges h dc m b e token_map ring).1 !! r = Some d ->
  fresh_info h dc ring d.
Proof.
  unfold get_ranges.
  assert (Hone : forall replicas d',
            (replicas = [] \/ exists token, (token, replicas) ∈ ring) ->
            ({[(b, e) := make_range_data h dc replicas]} : gmap _ _) !! r = Some d' ->
            fresh_info h dc ring d').
  { intros replicas d' Hin Hl. apply lookup_singleton_Some in Hl as [_ <-].
    by apply make_range_data_fresh. }
  destruct (truthy b && py_lt b m); [simpl; by rewrite lookup_empty|].
  destruct (truthy b && truthy e && py_lt e b); [simpl; by rewrite lookup_empty|].
  destruct (negb token_map || _); simpl; [apply Hone; by left|].
  destruct (ring_sort ring) as [|x [|y l]] eqn:Hsort.
  - apply Hone. by left.
  - apply Hone. right. exists x.1. apply ring_sort_elem. rewrite Hsort.
    destruct x. by left.
  - rewrite <- Hsort. unfold wrap_around, walk_ring.
    destruct (walk_fold_fresh h dc m b e ring (ring_sort ring) (mkWalk ∅ None None))
      as [Hr Hf]; simpl; try done.
    { intros item. apply ring_sort_elem. }
    destruct (previous _) as [p|]; [|by apply Hr].
    destruct (first_range_data _) as [d0|] eqn:Hd; [|by apply Hr].
    destruct (_ || _); [|by apply Hr].
    intros Hl. destruct (decide ((Some p, e) = r)) as [<-|Hne].
    + rewrite lookup_insert_eq in Hl. injection Hl as <-. by apply Hf.
    + rewrite lookup_insert_ne in Hl by done. by eapply Hr.
Qed.

(** *** send_work *)

Lemma get_ranges_fresh_ranges_witness :
  fresh_info "127.0.0.1" "dc1" ring_5_10_20 (mkRangeInfo ["10.0.0.1"] 0 0).
Proof.
  apply (get_ranges_fresh_ranges "127.0.0.1" "dc1" (get_min_token murmur3)
           None None true ring_5_10_20 (Some 5, Some 10)).
  vm_compute. reflexivity.
Defined.

Lemma next_channel n i :
  0 <= i < n -> (if i <? n - 1 then i + 1 else 0) = (i + 1) mod n.
Proof.
  intros H. destruct (Z.ltb_spec i (n - 1)).
  - by rewrite Z.mod_small by lia.
  - replace (i + 1) with n by lia. by rewrite Z.mod_same by lia.
Qed.

(** Sending a list of distinct ranges that are all in the dictionary: each
    goes out once, in order, with its dictionary as it was, on the channels
    [i], [i + 1], ... taken round the [n] channels, and its [attempts] is
    incremented; nothing else changes. *)
Lemma send_work_from_spec n kvs : forall i c,
  0 <= i < n ->
  NoDup kvs.*1 ->
  (forall kv, kv ∈ kvs -> range_map c !! kv.1 = Some kv.2) ->
  exists c',
    send_work_from n i kvs.*1 c = Ok c' /\
    sent c' = sent c ++ imap (fun k kv => ((i + Z.of_nat k) mod n, kv)) kvs /\
    (forall kv, kv ∈ kvs -> range_map c' !! kv.1 = Some (bump_attempts kv.2)) /\
    (forall r, r ∉ kvs.*1 -> range_map c' !! r = range_map c !! r) /\
    written c' = written c /\ exported c' = exported c /\
    succeeded c' = succeeded c /\ failed c' = failed c.
Proof.
  induction kvs as [|[r d] kvs IH]; intros i c Hi Hnd Hall.
  - exists c. simpl. rewrite app_nil_r. repeat split; try done.
    intros kv Hkv. by apply elem_of_nil in Hkv.
  - simpl in Hnd. apply NoDup_cons in Hnd as [Hr Hnd].
    cbn [fmap list_fmap fst send_work_from].
    destruct (Z.ltb_spec i n) as [_|]; [|lia]. cbn [negb].
    pose proof (Hall (r, d) ltac:(by left)) as Hrd. cbn [snd fst] in Hrd.
    rewrite Hrd.
    rewrite next_channel by done.
    set (c1 := mkCoordinator _ _ _ _ _ _).
    destruct (IH ((i + 1) mod n) c1) as (c' & Hrun & Hsent & Hin & Hout & Hw & Hx & Hs & Hf).
    { apply Z.mod_pos_bound. lia. }
    { done. }
    { intros kv Hkv. subst c1. simpl. rewrite lookup_insert_ne.
      - apply Hall. by right.
      - intros ->. apply Hr. apply list_elem_of_fmap. by exists kv. }
    exists c'. split; [exact Hrun|]. split; [|split; [|split]].
    + rewrite Hsent. subst c1. simpl. rewrite <- app_assoc. f_equal. simpl.
      f_equal.
      * f_equal. rewrite Z.add_0_r. by rewrite Z.mod_small by lia.
      * apply imap_ext. intros k kv _. simpl. f_equal.
        rewrite Zplus_mod_idemp_l. f_equal. lia.
    + intros kv Hkv. apply elem_of_cons in Hkv as [->|Hkv]; [|by apply Hin].
      simpl. rewrite Hout by done. subst c1. simpl. by rewrite lookup_insert_eq.
    + intros r0 Hr0. apply not_elem_of_cons in Hr0 as [Hne Hr0].
      rewrite Hout by done. subst c1. simpl. by rewrite lookup_insert_ne.
    + subst c1. simpl in *. done.
Qed.

Lemma imap_tagged_snd {A B} (f : nat -> B) (l : list A) :
  (imap (fun k a => (f k, a)) l).*2 = l.
Proof.
  revert f. induction l as [|a l IH]; intros f; simpl; [done|].
  f_equal. apply (IH (f ∘ S)).
Qed.

Lemma imap_tagged_fst {A B} (f : nat -> B) (l : list A) k b :
  (imap (fun k a => (f k, a)) l).*1 !! k = Some b -> b = f k.
Proof.
  rewrite list_lookup_fmap, list_lookup_imap.
  destruct (l !! k); simpl; [|done]. by intros [= <-].
Qed.

(** X3. With a positive number of processes, the first call of
    [send_work] sends every range exactly once, with its dictionary as it
    is, the [k]-th one to channel [k mod num_processes]; afterwards the
    [attempts] of every range is one higher than before (1 for a range
    fresh from [get_ranges]) while its hosts and rows are as before, and no
    range is added.  Nothing has succeeded or failed yet. *)
Theorem initial_dispatch_round_robin (num_processes : Z)
    (ranges : gmap token_range range_info) :
  0 < num_processes ->
  exists c,
    send_work num_processes (map_to_list ranges).*1 (mkCoordinator ranges [] [] 0 0 0)
      = Ok c /\
    (sent c).*2 = map_to_list ranges /\
    (forall k ch, (sent c).*1 !! k = Some ch -> ch = Z.of_nat k mod num_processes) /\
    (forall r d, ranges !! r = Some d ->
       range_map c !! r = Some (mkRangeInfo (hosts d) (attempts d + 1) (rows d))) /\
    (forall r d, ranges !! r = Some d -> attempts d = 0 ->
       exists d', range_map c !! r = Some d' /\ attempts d' = 1) /\
    (forall r, ranges !! r = None -> range_map c !! r = None) /\
    succeeded c = 0 /\ failed c = 0.
Proof.
  intros Hn. unfold send_work.
  destruct (send_work_from_spec num_processes (map_to_list ranges) 0
              (mkCoordinator ranges [] [] 0 0 0))
    as (c & Hrun & Hsent & Hin & Hout & _ & _ & Hs & Hf).
  { lia. }
  { apply NoDup_fst_map_to_list. }
  { intros [r d] Hkv. simpl. by apply elem_of_map_to_list. }
  exists c. split; [exact Hrun|]. simpl in Hsent.
  assert (Hbump : forall r d, ranges !! r = Some d ->
            range_map c !! r = Some (mkRangeInfo (hosts d) (attempts d + 1) (rows d))).
  { intros r d Hr. apply (Hin (r, d)). by apply elem_of_map_to_list. }
  split; [|split; [|split; [|split; [|split; [|done]]]]].
  - rewrite Hsent. apply (imap_tagged_snd (fun k => (0 + Z.of_nat k) mod num_processes)).
  - intros k ch Hk. rewrite Hsent in Hk.
    by apply (imap_tagged_fst (fun k => (0 + Z.of_nat k) mod num_processes)) in Hk.
  - exact Hbump.
  - intros r d Hr Hd. eexists. split; [by apply Hbump|]. simpl. lia.
  - intros r Hr. rewrite Hout; [done|]. intros Hel.
    apply list_elem_of_fmap in Hel as ([r' d'] & -> & Hel).
    apply elem_of_map_to_list in Hel. simpl in Hr. congruence.
Qed.

Lemma initial_dispatch_round_robin_witness :
  exists c,
    send_work 2 (map_to_list one_range).*1 (mkCoordinator one_range [] [] 0 0 0) = Ok c /\
    (sent c).*2 = map_to_list one_range /\
    (forall k ch, (sent c).*1 !! k = Some ch -> ch = Z.of_nat k mod 2) /\
    range_map c !! whole_ring = Some (mkRangeInfo ["10.0.0.1"] 1 0) /\
    succeeded c = 0 /\ failed c = 0.
Proof.
  destruct (initial_dispatch_round_robin 2 one_range)
    as (c & Hrun & Hsent & Hch & Hbump & _ & _ & Hs & Hf); [lia|].
  exists c. split; [exact Hrun|]. split; [exact Hsent|]. split; [exact Hch|].
  split; [|split; [exact Hs|exact Hf]].
  apply (Hbump whole_ring (mkRangeInfo ["10.0.0.1"] 0 0)). reflexivity.
Defined.

End ExportDispatchFacts.

(** ** Slicing a list into pieces of a given length *)

Module SlicesFacts.
Import ImportProcess.

Lemma slices_aux_fuel {A} (step : nat) : forall f1 f2 (l : list A),
  (0 < step)%nat -> (length l <= f1)%nat -> (length l <= f2)%nat ->
  slices_aux f1 step l = slices_aux f2 step l.
Proof.
  induction f1 as [|f1 IH]; intros f2 l Hs H1 H2.
  - destruct l; [|simpl in H1; lia]. by destruct f2.
  - destruct l as [|a l]; [by destruct f2|].
    destruct f2 as [|f2]; [simpl in H2; lia|]. simpl. f_equal.
    simpl in H1, H2.
    destruct step as [|step]; [lia|]. simpl.
    pose proof (length_drop l step). apply IH; lia.
Qed.

Lemma slices_aux_cons {A} (step fuel : nat) (a : A) (l : list A) :
  (0 < step)%nat -> (length (a :: l) <= fuel)%nat ->
  slices_aux fuel step (a :: l) =
  (a :: take (step - 1) l) ::
  slices_aux (length (drop (step - 1) l)) step (drop (step - 1) l).
Proof.
  intros Hs Hf. destruct fuel as [|fuel]; [simpl in Hf; lia|].
  destruct step as [|step]; [lia|]. simpl. rewrite Nat.sub_0_r. f_equal.
  simpl in Hf. pose proof (length_drop l step).
  apply slices_aux_fuel; lia.
Qed.

Lemma slices_aux_concat {A} (step : nat) : forall fuel (l : list A),
  (0 < step)%nat -> (length l <= fuel)%nat -> concat (slices_aux fuel step l) = l.
Proof.
  induction fuel as [|fuel IH]; intros l Hs Hf.
  - by destruct l; [|simpl in Hf; lia].
  - destruct l as [|a l]; [done|].
    cbn [slices_aux concat]. rewrite IH; [apply take_drop|done|].
    simpl in Hf. destruct step as [|step]; [lia|]. simpl.
    pose proof (length_drop l step). lia.
Qed.

Lemma slices_aux_sizes {A} (step : nat) : forall fuel (l : list A),
  (0 < step)%nat ->
  Forall (fun s => (0 < length s <= step)%nat) (slices_aux fuel step l).
Proof.
  induction fuel as [|fuel IH]; intros l Hs; simpl; [constructor|].
  destruct l as [|a l]; [constructor|].
  constructor; [|by apply IH].
  rewrite length_take. simpl. destruct step; [lia|]. simpl. lia.
Qed.

End SlicesFacts.

(** ** ExportWriter: how the rows of a chunk are spread over the files *)

Module ExportWriterFacts.
Import ExportWriter SlicesFacts.

Lemma output_write_file s w older name content :
  current_dest w = Some ToFile ->
  files w = older ++ [(name, content)] ->
  output_write s w =
  (Ok tt, mkWriter (fname w) (header w) (max_output_size w) (split w) (Some ToFile)
                   (num_files w) (num_written w)
                   (older ++ [(name, content ++ [s])]) (on_stdout w)).
Proof.
  intros Hd Hf. unfold output_write. rewrite Hd, Hf.
  rewrite reverse_snoc. by rewrite reverse_involutive.
Qed.

Lemma next_dest_file can_open w f :
  (forall n, can_open n = true) ->
  fname w = Some f ->
  _next_dest can_open w =
  mkWriter (fname w) (header w) (max_output_size w) (split w) (Some ToFile)
           (num_files w + 1) (num_written w)
           (files w ++ [((f ++ "." ++ pretty (num_files w))%string, [])]) (on_stdout w).
Proof.
  intros Hopen Hf. unfold _next_dest, _close_current_dest, _get_dest.
  destruct (current_dest w) as [[|]|]; simpl; rewrite Hf, Hopen; simpl; by rewrite ?Hf.
Qed.

Lemma pieces_nil {A} step : @pieces A step [] = [].
Proof. reflexivity. Qed.

Lemma pieces_cons {A} step (a : A) l :
  (0 < step)%nat ->
  pieces step (a :: l) = (a :: take (step - 1) l) :: pieces step (drop (step - 1) l).
Proof. intros Hs. unfold pieces. by apply slices_aux_cons. Qed.

(** The loop of [_write_with_split] when [k] rows still fit into the
    current file: these go there, the rest goes in pieces of
    [max_output_size] rows to new files, and [last_switch] ends as the index
    of the first row of the last file opened. *)
Lemma split_loop_spec can_open f rows : forall k i last_switch w older name content,
  (forall n, can_open n = true) ->
  fname w = Some f ->
  current_dest w = Some ToFile ->
  files w = older ++ [(name, content)] ->
  0 < max_output_size w ->
  let lines := List.map row_line rows in
  let parts := pieces (Z.to_nat (max_output_size w)) (drop k lines) in
  split_loop can_open rows i (i + Z.of_nat k) last_switch w =
  (Ok (match last parts with
       | None => last_switch
       | Some part => i + len rows - len part
       end),
   mkWriter (fname w) (header w) (max_output_size w) (split w) (Some ToFile)
            (num_files w + len parts) (num_written w)
            (older ++ [(name, content ++ take k lines)]
                   ++ numbered_files f (num_files w) parts)
            (on_stdout w)).
Proof.
  induction rows as [|row rows IH];
    intros k i last_switch w older name content Hopen Hf Hd Hfiles Hmax; cbv zeta.
  - simpl. rewrite drop_nil, pieces_nil, take_nil. simpl.
    rewrite app_nil_r, Z.add_0_r. unfold len. simpl.
    destruct w; simpl in *; by subst.
  - cbn [split_loop List.map].
    destruct k as [|k].
    + (* the current file is full: switch *)
      rewrite Z.add_0_r, Z.eqb_refl.
      rewrite (next_dest_file can_open w f Hopen Hf).
      set (name' := (f ++ "." ++ pretty (num_files w))%string).
      set (w1 := mkWriter _ _ _ _ _ _ _ _ _).
      rewrite (output_write_file _ w1 (older ++ [(name, content)]) name' [])
        by (subst w1; simpl; by rewrite ?Hfiles).
      subst w1. cbn [fname header max_output_size split num_files num_written on_stdout].
      set (w2 := mkWriter _ _ _ _ _ _ _ _ _).
      set (mx := Z.to_nat (max_output_size w)).
      assert (Hmx : (0 < mx)%nat) by (subst mx; lia).
      replace (i + max_output_size w) with (i + 1 + Z.of_nat (mx - 1)) by (subst mx; lia).
      rewrite (IH (mx - 1)%nat (i + 1) i w2 (older ++ [(name, content)]) name'
                  [row_line row]) by (subst w2; simpl; done || lia).
      subst w2. cbn [fname header max_output_size split num_files num_written on_stdout].
      fold mx. rewrite drop_0, take_0, app_nil_r.
      rewrite (pieces_cons mx (row_line row) (List.map row_line rows)) by done.
      set (parts := pieces mx (drop (mx - 1) (List.map row_line rows))).
      f_equal.
      * f_equal. destruct parts as [|p0 parts'] eqn:Hp; simpl.
        -- (* everything left fits into the new file *)
           assert (Hall : drop (mx - 1) (List.map row_line rows) = []).
           { destruct (drop (mx - 1) (List.map row_line rows)) as [|a l] eqn:E; [done|].
             subst parts. rewrite pieces_cons in Hp by done. discriminate. }
           apply (f_equal length) in Hall. rewrite length_drop, length_map in Hall.
           simpl in Hall. unfold len. simpl. rewrite length_take, length_map. lia.
        -- rewrite last_cons. destruct (last parts') as [p|] eqn:Hl.
           ++ unfold len. simpl. f_equal. lia.
           ++ unfold len. simpl. f_equal. lia.
      * f_equal.
        -- unfold len. simpl. lia.
        -- rewrite <- !app_assoc. f_equal. f_equal. unfold numbered_files. simpl.
           rewrite Z.add_0_r. f_equal.
           apply imap_ext. intros j part _. simpl.
           by replace (num_files w + 1 + Z.of_nat j) with (num_files w + Z.of_nat (S j))
             by lia.
    + (* the row goes to the current file *)
      destruct (Z.eqb_spec i (i + Z.of_nat (S k))) as [Heq|_]; [lia|].
      rewrite (output_write_file _ w older name content) by done.
      set (w1 := mkWriter _ _ _ _ _ _ _ _ _).
      replace (i + Z.of_nat (S k)) with (i + 1 + Z.of_nat k) by lia.
      rewrite (IH k (i + 1) last_switch w1 older name (content ++ [row_line row]))
        by (subst w1; simpl; done).
      subst w1. cbn [fname header max_output_size split num_files num_written on_stdout].
      simpl drop. simpl take.
      f_equal.
      * f_equal. destruct (last _); [|done]. unfold len. simpl. f_equal. lia.
      * f_equal. by rewrite <- !app_assoc.
Qed.

Lemma numbered_files_contents f n parts : (numbered_files f n parts).*2 = parts.
Proof.
  unfold numbered_files. revert n. induction parts as [|p parts IH]; intros n; [done|].
  simpl. f_equal. rewrite <- (IH (n + 1)) at 2. f_equal.
  apply imap_ext. intros j part _. simpl.
  by replace (n + 1 + Z.of_nat j) with (n + Z.of_nat (S j)) by lia.
Qed.

(** X4. When the rows of [data] do not fit into the current file, and
    every file can be opened, [_write_with_split] fills the current file up
    to [maxoutputsize] rows and writes the rest to new files
    [<fname>.<num_files>], [<fname>.<num_files + 1>], ...: no row is lost or
    written twice, the rows stay in order, every new file holds between one
    and [maxoutputsize] rows, and [num_written] ends as the number of rows
    of the last file. *)
Theorem write_with_split_spreads_rows can_open linesep data num w f older name content rows :
  (forall n, can_open n = true) ->
  fname w = Some f ->
  current_dest w = Some ToFile ->
  files w = older ++ [(name, content)] ->
  0 < max_output_size w ->
  0 <= num_written w <= max_output_size w ->
  data_rows linesep data = Ok rows ->
  num = len rows ->
  max_output_size w < num_written w + num ->
  let room := Z.to_nat (max_output_size w - num_written w) in
  let lines := List.map row_line rows in
  let parts := pieces (Z.to_nat (max_output_size w)) (drop room lines) in
  exists w',
    _write_with_split can_open linesep data num w = (Ok tt, w') /\
    files w' = older ++ [(name, content ++ take room lines)]
                     ++ numbered_files f (num_files w) parts /\
    num_files w' = num_files w + len parts /\
    concat (files w').*2 = concat (files w).*2 ++ lines /\
    Forall (fun part => 0 < len part <= max_output_size w) parts /\
    (exists part, last parts = Some part /\ num_written w' = len part) /\
    0 < num_written w' <= max_output_size w'.
Proof.
  intros Hopen Hf Hd Hfiles Hmax Hnw Hrows -> Hover. cbv zeta.
  set (room := Z.to_nat (max_output_size w - num_written w)).
  set (mx := Z.to_nat (max_output_size w)).
  set (lines := List.map row_line rows).
  set (parts := pieces mx (drop room lines)).
  assert (Hmx : (0 < mx)%nat) by (subst mx; lia).
  assert (Hsizes : Forall (fun part => (0 < length part <= mx)%nat) parts)
    by (by apply slices_aux_sizes).
  assert (Hconcat : concat parts = drop room lines)
    by (by apply slices_aux_concat).
  assert (Hlast : exists part, last parts = Some part).
  { clear Hsizes Hconcat. subst parts.
    destruct (drop room lines) as [|a l] eqn:E.
    - apply (f_equal length) in E. subst lines room.
      rewrite length_drop, length_map in E. simpl in E. unfold len in Hover. lia.
    - rewrite pieces_cons by done. rewrite last_cons.
      destruct (last _); eauto. }
  destruct Hlast as [part Hpart].
  assert (Hpart_size : 0 < len part <= max_output_size w).
  { destruct (proj1 (last_Some _ _) Hpart) as [l' Hl'].
    assert (Hin : part ∈ parts).
    { rewrite Hl'. apply elem_of_app. right. by left. }
    rewrite Forall_forall in Hsizes. specialize (Hsizes part Hin). simpl in Hsizes.
    unfold len. subst mx. lia. }
  unfold _write_with_split.
  destruct (Z.ltb_spec (max_output_size w) (num_written w + len rows)) as [_|]; [|lia].
  rewrite Hrows.
  replace (max_output_size w - num_written w) with (0 + Z.of_nat room)
    by (subst room; lia).
  rewrite (split_loop_spec can_open f rows room 0 0 w older name content) by done.
  fold mx lines parts. rewrite Hpart.
  eexists. split; [reflexivity|].
  cbn [files num_files num_written max_output_size set_num_written].
  split; [done|]. split; [done|]. split; [|split; [|split]].
  - rewrite Hfiles, !fmap_app, !concat_app, numbered_files_contents. simpl.
    rewrite !app_nil_r, Hconcat, <- !app_assoc. do 2 f_equal. apply take_drop.
  - eapply Forall_impl; [exact Hsizes|]. intros p Hp. simpl in Hp.
    unfold len. subst mx. lia.
  - exists part. split; [done|]. lia.
  - lia.
Qed.

Lemma write_with_split_spreads_rows_witness :
  exists w',
    _write_with_split (fun _ => true) newline three_lines 3 writer_out = (Ok tt, w') /\
    concat (files w').*2 =
      concat (files writer_out).*2 ++ List.map row_line ["1"; "2"; "3"] /\
    0 < num_written w' <= max_output_size w'.
Proof.
  destruct (write_with_split_spreads_rows (fun _ => true) newline three_lines 3
              writer_out "out" [] "out" [] ["1"; "2"; "3"])
    as (w' & Hrun & _ & _ & Hcat & _ & _ & Hnum).
  - reflexivity.
  - reflexivity.
  - reflexivity.
  - reflexivity.
  - simpl. lia.
  - simpl. lia.
  - vm_compute. reflexivity.
  - reflexivity.
  - simpl. lia.
  - exists w'. split; [exact Hrun|]. split; [exact Hcat|exact Hnum].
Defined.

End ExportWriterFacts.

(** ** The readers: [maxrows] *)

Module ReadAllFacts.
Import FeedingProcess ReadAll.

Lemma files_next_source_keeps r x r' :
  FilesReader.next_source r = (x, r') ->
  FilesReader.max_rows r' = FilesReader.max_rows r /\
  FilesReader.num_read r' = FilesReader.num_read r.
Proof.
  unfold FilesReader.next_source.
  destruct (FilesReader.open_next _ _) as [[[f|] rest] n].
  - destruct (FilesReader.header r); [destruct f|]; by intros [= <- <-].
  - by intros [= <- <-].
Qed.

(** One loop of the files reader: the counter of rows read only grows, and
    each row kept corresponds to a value of the counter that is at most
    [maxrows]. *)
Lemma files_read_loop_max n : forall r rows x r',
  0 <= FilesReader.max_rows r ->
  FilesReader.read_loop n r rows = (x, r') ->
  FilesReader.max_rows r' = FilesReader.max_rows r /\
  FilesReader.num_read r <= FilesReader.num_read r' /\
  forall rows', x = Ok rows' ->
    len rows' - len rows <=
    Z.min (FilesReader.num_read r') (FilesReader.max_rows r)
    - Z.min (FilesReader.num_read r) (FilesReader.max_rows r).
Proof.
  induction n as [|n IH]; intros r rows x r' Hmax H;
    cbn [FilesReader.read_loop] in H.
  - injection H as <- <-. split; [done|]. split; [lia|]. intros ? [= <-]. lia.
  - destruct (FilesReader.current_source r) as [[|row rest]|] eqn:Hcur.
    + destruct (FilesReader.next_source r) as [[?|? ?] r1] eqn:Hn;
        injection H as <- <-; destruct (files_next_source_keeps _ _ _ Hn) as [-> ->];
        (split; [done|]; split; [lia|]); intros ? [= <-]; lia.
    + set (r1 := FilesReader.take_row r rest) in *.
      assert (Hr1 : FilesReader.max_rows r1 = FilesReader.max_rows r /\
                    FilesReader.num_read r1 = FilesReader.num_read r + 1) by done.
      destruct Hr1 as [Hm1 Hn1].
      destruct ((0 <=? FilesReader.max_rows r1) &&
                (FilesReader.max_rows r1 <? FilesReader.num_read r1)) eqn:Hover.
      * destruct (FilesReader.next_source r1) as [[?|? ?] r2] eqn:Hn2.
        -- injection H as <- <-. destruct (files_next_source_keeps _ _ _ Hn2) as [-> ->].
           split; [done|]. split; [lia|]. intros ? [= <-]. lia.
        -- destruct (files_next_source_keeps _ _ _ Hn2) as [Hm2 Hr2].
           destruct (FilesReader.next_source r2) as [[?|? ?] r3] eqn:Hn3;
             injection H as <- <-;
             destruct (files_next_source_keeps _ _ _ Hn3) as [-> ->];
             (split; [congruence|]; split; [lia|]); intros ? [= <-]; lia.
      * apply andb_false_iff in Hover.
        assert (Hfit : FilesReader.num_read r1 <= FilesReader.max_rows r1).
        { destruct Hover as [Hover|Hover];
            [apply Z.leb_gt in Hover|apply Z.ltb_ge in Hover]; lia. }
        destruct (FilesReader.skip_rows r1 <? FilesReader.num_read r1);
          apply IH in H as (Hm & Hle & Hrows); try lia;
          (split; [congruence|]; split; [lia|]); intros rows' Hx;
          specialize (Hrows rows' Hx); rewrite Hm1, Hn1 in *;
          unfold len in *; rewrite ?length_app in Hrows; simpl in Hrows; lia.
    + injection H as <- <-. split; [done|]. split; [lia|]. intros ? [=].
Qed.

Lemma pipe_read_loop_max n : forall r rows x r',
  0 <= PipeReader.max_rows r ->
  PipeReader.read_loop n r rows = (x, r') ->
  PipeReader.max_rows r' = PipeReader.max_rows r /\
  PipeReader.num_read r <= PipeReader.num_read r' /\
  forall rows', x = Ok rows' ->
    len rows' - len rows <=
    Z.min (PipeReader.num_read r') (PipeReader.max_rows r)
    - Z.min (PipeReader.num_read r) (PipeReader.max_rows r).
Proof.
  induction n as [|n IH]; intros r rows x r' Hmax H;
    cbn [PipeReader.read_loop] in H.
  - injection H as <- <-. split; [done|]. split; [lia|]. intros ? [= <-]. lia.
  - destruct (PipeReader.inmsg r) as [|[row|] rest].
    + injection H as <- <-. split; [done|]. split; [lia|]. intros ? [=].
    + destruct ((0 <=? PipeReader.max_rows r) &&
                (PipeReader.max_rows r <? PipeReader.num_read r + 1)) eqn:Hover.
      * injection H as <- <-. simpl. split; [done|]. split; [lia|].
        intros ? [= <-]. lia.
      * apply andb_false_iff in Hover.
        assert (Hfit : PipeReader.num_read r + 1 <= PipeReader.max_rows r).
        { destruct Hover as [Hover|Hover];
            [apply Z.leb_gt in Hover|apply Z.ltb_ge in Hover]; lia. }
        destruct (PipeReader.header r || _);
          apply IH in H as (Hm & Hle & Hrows); simpl in *; try lia;
          (split; [done|]; split; [lia|]); intros rows' Hx;
          specialize (Hrows rows' Hx);
          unfold len in *; rewrite ?length_app in Hrows; simpl in Hrows; lia.
    + injection H as <- <-. simpl. split; [done|]. split; [lia|].
      intros ? [= <-]. lia.
Qed.

Lemma reader_read_rows_max n rd x rd' :
  0 <= reader_max_rows rd ->
  reader_read_rows n rd = (x, rd') ->
  reader_max_rows rd' = reader_max_rows rd /\
  reader_num_read rd <= reader_num_read rd' /\
  forall rows, x = Ok rows ->
    len rows <= Z.min (reader_num_read rd') (reader_max_rows rd)
                - Z.min (reader_num_read rd) (reader_max_rows rd).
Proof.
  intros Hmax. destruct rd as [r|r]; simpl in *.
  - unfold FilesReader.read_rows. destruct (FilesReader.current_source r).
    + destruct (FilesReader.read_loop _ r []) as [[rows0|e m] r0] eqn:E;
        intros [= <- <-]; apply files_read_loop_max in E as (Hm & Hle & Hrows);
        try done; simpl; (split; [done|]; split; [done|]); intros rows [= <-].
      specialize (Hrows rows0 eq_refl).
      pose proof (List.filter_length_le FilesReader.nonempty rows0).
      unfold len in *. simpl in Hrows. lia.
    + intros [= <- <-]. simpl. split; [done|]. split; [lia|]. intros ? [= <-].
      unfold len. simpl. lia.
  - unfold PipeReader.read_rows.
    destruct (PipeReader.read_loop _ r []) as [x0 r0] eqn:E.
    intros [= <- <-]. apply pipe_read_loop_max in E as (Hm & Hle & Hrows); try done.
    simpl. split; [done|]. split; [done|]. intros rows ->.
    specialize (Hrows rows eq_refl). unfold len in *. simpl in Hrows. lia.
Qed.

Lemma read_all_max calls : forall rd,
  0 <= reader_max_rows rd ->
  len (read_all calls rd).1 <=
  Z.min (reader_num_read (read_all calls rd).2) (reader_max_rows rd)
  - Z.min (reader_num_read rd) (reader_max_rows rd).
Proof.
  induction calls as [|n calls IH]; intros rd Hmax; simpl.
  - unfold len. simpl. lia.
  - destruct (reader_read_rows n rd) as [x rd1] eqn:E.
    destruct (reader_read_rows_max _ _ _ _ Hmax E) as (Hm & Hle & Hrows).
    specialize (IH rd1). rewrite Hm in IH. specialize (IH Hmax).
    destruct (read_all calls rd1) as [more rd2]. simpl in *.
    destruct x as [rows|e m].
    + specialize (Hrows rows eq_refl). unfold len in *. rewrite length_app. lia.
    + lia.
Qed.

(** X5. With [maxrows] set (not negative), all the calls of [read_rows]
    on a reader together return no more rows than [maxrows] less the rows
    read before, whether the rows come from files or from the pipe and
    whatever sizes the calls ask for. *)
Theorem readers_honour_maxrows calls rd :
  0 <= reader_max_rows rd ->
  0 <= reader_num_read rd ->
  len (read_all calls rd).1 <= reader_max_rows rd - Z.min (reader_num_read rd) (reader_max_rows rd).
Proof.
  intros Hmax Hread. pose proof (read_all_max calls rd Hmax). lia.
Qed.

Lemma readers_honour_maxrows_witness :
  len (read_all [10; 10]
         (Files (FilesReader.mkReader 5000 false 2 0 [] 1 (Some three_rows) 0))).1
  <= 2 - Z.min 0 2.
Proof.
  apply (readers_honour_maxrows [10; 10]
           (Files (FilesReader.mkReader 5000 false 2 0 [] 1 (Some three_rows) 0)));
    simpl; lia.
Defined.

End ReadAllFacts.

(** ** The feeder: rows sent, rows reported and the ingest rate *)

Module FeederAccountsFacts.
Import FeedingProcess FeedingProcessFacts FeederAccounts.

Lemma rows_sent_snoc f ch c ws :
  worker_channels f = ws ++ [(ch, c)] ->
  rows_sent f = fold_right Z.add 0 (List.map (fun x => chunk_num_rows x.2) ws)
                + chunk_num_rows c.
Proof.
  intros H. unfold rows_sent. rewrite H, map_app. simpl.
  generalize (List.map (fun x : nat * gmap string pyval => chunk_num_rows x.2) ws).
  intros l. induction l as [|z l IH]; simpl; lia.
Qed.

Lemma chunk_literal_rows (id : Z) rows :
  chunk_num_rows {[ "id" := PInt id; "rows" := PLines rows; "imported" := PInt 0 ]}
  = len rows.
Proof. unfold chunk_num_rows. by simplify_map_eq. Qed.

Lemma meter_increment n elapsed m :
  let m' := RateMeter.increment n elapsed m in
  RateMeter.current_record m' + RateMeter.total_records m'
    = RateMeter.current_record m + RateMeter.total_records m + n /\
  (RateMeter.current_record m' = RateMeter.current_record m + n \/
   RateMeter.current_record m' = 0).
Proof.
  cbv zeta. unfold RateMeter.increment, RateMeter.maybe_update, RateMeter.update. simpl.
  destruct (_ =? 0); [|destruct elapsed]; simpl; split; auto; lia.
Qed.

Lemma meter_maybe_update elapsed m :
  let m' := RateMeter.maybe_update elapsed m in
  RateMeter.current_record m' + RateMeter.total_records m'
    = RateMeter.current_record m + RateMeter.total_records m /\
  (RateMeter.current_record m' = RateMeter.current_record m \/
   RateMeter.current_record m' = 0).
Proof.
  cbv zeta. unfold RateMeter.maybe_update, RateMeter.update.
  destruct (_ =? 0); [|destruct elapsed]; simpl; split; auto; lia.
Qed.

Lemma balanced_feed_channel clock ch f :
  balanced f ->
  balanced (feed_channel clock ch f).2 /\
  ingest_rate (feed_channel clock ch f).2 = ingest_rate f.
Proof.
  intros (Hs & Hm & Hc). unfold feed_channel.
  destruct (Z.leb_spec (ingest_rate f - RateMeter.current_record (send_meter f)) 0)
    as [Hle|Hgt].
  - simpl. split; [|done]. unfold balanced, rows_sent in *. simpl.
    destruct (meter_maybe_update (clock (clock_reads f)) (send_meter f)) as [Hsum Hcur].
    split; [done|]. split; [lia|]. lia.
  - destruct (reader_read_rows _ _) as [[[|row rows]|e m] rd] eqn:E; simpl.
    + split; [|done]. unfold balanced, rows_sent in *. simpl. done.
    + apply reader_read_rows_length in E. split; [|done].
      set (all := row :: rows) in *.
      destruct (meter_increment (len all) (clock (clock_reads f)) (send_meter f))
        as [Hsum Hcur].
      unfold balanced. simpl.
      rewrite (rows_sent_snoc _ ch _ (worker_channels f)) by done.
      rewrite chunk_literal_rows. fold (rows_sent f).
      assert (Hlen : 0 < len all <= ingest_rate f - RateMeter.current_record (send_meter f)).
      { unfold len. subst all. rewrite length_cons in *. lia. }
      split; [lia|]. split; [lia|]. lia.
    + split; [|done]. unfold balanced, rows_sent in *. simpl. done.
Qed.

Lemma balanced_feed_channels clock channels : forall f,
  balanced f ->
  balanced (feed_channels clock channels f) /\
  ingest_rate (feed_channels clock channels f) = ingest_rate f.
Proof.
  induction channels as [|ch channels IH]; intros f Hf; simpl; [done|].
  destruct (balanced_feed_channel clock ch f Hf) as [H1 Hi].
  destruct (feed_channel clock ch f) as [[|] f']; simpl in *; [done|].
  destruct (IH f' H1) as [H2 Hi2]. split; [done|congruence].
Qed.

Lemma balanced_feed_rounds clock rounds num_channels : forall f,
  balanced f ->
  balanced (feed_rounds clock rounds num_channels f) /\
  ingest_rate (feed_rounds clock rounds num_channels f) = ingest_rate f.
Proof.
  induction rounds as [|n IH]; intros f Hf; simpl; [done|].
  destruct (reader_exhausted (the_reader f)); [done|].
  destruct (balanced_feed_channels clock (seq 0 num_channels) f Hf) as [H1 Hi].
  destruct (IH _ H1) as [H2 Hi2]. split; [done|congruence].
Qed.

Lemma balanced_new rd ingest : balanced (new_feeder rd ingest).
Proof. unfold balanced, rows_sent. simpl. lia. Qed.

(** X6. When the feeder's run ends normally, the last message it sends is
    the [FeedingProcessResult] whose [sent] is the number of rows in all the
    chunks it has put on the worker channels, which is also what its meter
    has counted; and the reader is exhausted. *)
Theorem feeder_reports_rows_sent clock rounds num_channels rd ingest f :
  inner_run clock rounds num_channels (new_feeder rd ingest) = Some (Ok f) ->
  last (outmsg f) =
    Some (FeedingProcessResult (rows_sent f) (reader_num_sources (the_reader f))
                               (reader_skip_rows (the_reader f))) /\
  RateMeter.current_record (send_meter f) + RateMeter.total_records (send_meter f)
    = rows_sent f /\
  reader_exhausted (the_reader f) = true.
Proof.
  unfold inner_run. simpl.
  destruct (reader_start rd) as [[ok|e m] rd0]; [|discriminate].
  change (mkFeeder rd0 (RateMeter.mkMeter 0 0) ingest 0 0 [] [] 0%nat)
    with (new_feeder rd0 ingest).
  destruct (balanced_feed_rounds clock rounds num_channels _ (balanced_new rd0 ingest))
    as [(Hs & Hm & _) _].
  set (f1 := feed_rounds clock rounds num_channels (new_feeder rd0 ingest)) in *.
  destruct (reader_exhausted (the_reader f1)) eqn:Hex; [|discriminate].
  intros [= <-]. simpl. rewrite last_snoc.
  unfold rows_sent in *. simpl. rewrite Hs. done.
Qed.

(** X7. At any point of the feeder's loop the rows sent in the meter's
    current interval do not exceed the ingest rate. *)
Theorem feeder_keeps_ingest_rate clock rounds num_channels rd ingest :
  let f := feed_rounds clock rounds num_channels (new_feeder rd ingest) in
  0 <= RateMeter.current_record (send_meter f) <= Z.max 0 ingest.
Proof.
  cbv zeta.
  destruct (balanced_feed_rounds clock rounds num_channels _ (balanced_new rd ingest))
    as [(_ & _ & Hc) Hi].
  rewrite Hi in Hc. exact Hc.
Qed.

Lemma feeder_reports_rows_sent_witness :
  exists f,
    inner_run never_elapsed 5 2 (new_feeder file_abc_to_open 100) = Some (Ok f) /\
    (worker_channels f).*1 = [0%nat; 1%nat] /\
    rows_sent f = 3 /\
    outmsg f = [FeedingProcessResult 3 1 0] /\
    last (outmsg f) =
      Some (FeedingProcessResult (rows_sent f) (reader_num_sources (the_reader f))
                                 (reader_skip_rows (the_reader f))) /\
    RateMeter.current_record (send_meter f) + RateMeter.total_records (send_meter f)
      = rows_sent f /\
    reader_exhausted (the_reader f) = true.
Proof.
  eexists. split; [vm_compute; reflexivity|].
  split; [vm_compute; reflexivity|]. split; [vm_compute; reflexivity|].
  split; [vm_compute; reflexivity|].
  apply (feeder_reports_rows_sent never_elapsed 5%nat 2%nat file_abc_to_open 100).
  vm_compute. reflexivity.
Defined.

End FeederAccountsFacts.

(** ** The error handler over a run, and [receive_results] *)

Module ImportTaskFacts.
Import ErrorHandler ImportTask.

Lemma handle_errors_accounts errs : forall h,
  let h' := handle_errors errs h in
  parse_errors h' = parse_errors h + len (rows_if is_parse_error errs) /\
  insert_errors h' =
    insert_errors h + len (rows_if (fun e => negb (is_parse_error e)) errs) /\
  err_file h' = err_file h ++ rows_if (fun e => is_parse_error e || final e) errs /\
  num_rows_failed h' =
    num_rows_failed h + len (rows_if (fun e => is_parse_error e || final e) errs) /\
  max_parse_errors h' = max_parse_errors h /\
  max_insert_errors h' = max_insert_errors h.
Proof.
  induction errs as [|e errs IH]; intros h; cbv zeta.
  - unfold rows_if, len. simpl. rewrite app_nil_r. repeat split; lia.
  - cbn [handle_errors fold_left]. fold (handle_errors errs (handle_error e h)).
    destruct (IH (handle_error e h)) as (Hp & Hi & Hf & Hn & Hmp & Hmi).
    rewrite Hp, Hi, Hf, Hn, Hmp, Hmi. clear IH Hp Hi Hf Hn Hmp Hmi.
    unfold rows_if, handle_error. cbn [List.map concat].
    unfold len. rewrite !length_app.
    destruct (is_parse_error e); simpl.
    + rewrite <- app_assoc. unfold len. repeat split; lia.
    + destruct (final e); simpl; rewrite <- ?app_assoc; unfold len;
        repeat split; lia.
Qed.

(** X8. Whatever errors the import error handler is given, starting from
    an empty one: [num_rows_failed] is the number of rows added to the error
    file; [parse_errors] and [insert_errors] count the rows of all parse
    errors and of all other errors; the error file holds, in order, the rows
    of the parse errors and of the final other errors.  The rows of an
    insert error that is retried are thus counted at every attempt and
    written only when the error is final. *)
Theorem error_file_matches_counters errs max_attempts max_parse max_insert :
  let h := handle_errors errs
             (mkImportErrorHandler max_attempts max_parse max_insert [] 0 0 0) in
  num_rows_failed h = len (err_file h) /\
  parse_errors h = len (rows_if is_parse_error errs) /\
  insert_errors h = len (rows_if (fun e => negb (is_parse_error e)) errs) /\
  err_file h = rows_if (fun e => is_parse_error e || final e) errs /\
  len (err_file h) <= parse_errors h + insert_errors h.
Proof.
  cbv zeta.
  destruct (handle_errors_accounts errs
              (mkImportErrorHandler max_attempts max_parse max_insert [] 0 0 0))
    as (Hp & Hi & Hf & Hn & _). simpl in *.
  rewrite Hp, Hi, Hf, Hn. repeat split; try done.
  clear. unfold rows_if, len.
  induction errs as [|e errs IH]; simpl; [lia|].
  rewrite !length_app.
  destruct (is_parse_error e), (final e); simpl; lia.
Qed.

Lemma receive_loop_spec results : forall aggregate t,
  let pre := expected_prefix results in
  receive_loop results aggregate t =
  (match first_unexpected results with
   | Some repr => Raise "ValueError" ("Unexpected result: " ++ repr)%string
   | None => Ok tt
   end,
   (aggregate + sum_list (List.map imported_of pre),
    mkTask (feeding_after pre (feeding_result t))
           (receive_meter t)
           (handle_errors (errors_of pre) (error_handler t)))).
Proof.
  induction results as [|r results IH]; intros aggregate t; cbv zeta.
  - cbn. rewrite Z.add_0_r. by destruct t.
  - destruct r as [n|err|s ns k|repr]; cbn [receive_loop expected_prefix first_unexpected].
    + rewrite IH. cbn. do 2 f_equal. unfold sum_list. lia.
    + rewrite IH. cbn. done.
    + rewrite IH. cbn. done.
    + cbn. rewrite Z.add_0_r. by destruct t.
Qed.

(** X9. [receive_results] handles the results that come before the first
    unexpected one: the meter grows by the sum of their [imported], their
    errors go to the error handler in order, and the last feeder result among
    them is kept.  It raises [ValueError] exactly when there is an unexpected
    result, and the meter is incremented also then. *)
Theorem receive_results_counts_what_precedes elapsed results t :
  let pre := expected_prefix results in
  let t' := (receive_results elapsed results t).2 in
  (receive_results elapsed results t).1 =
    match first_unexpected results with
    | Some repr => Raise "ValueError" ("Unexpected result: " ++ repr)%string
    | None => Ok tt
    end /\
  RateMeter.current_record (receive_meter t') + RateMeter.total_records (receive_meter t')
    = RateMeter.current_record (receive_meter t) + RateMeter.total_records (receive_meter t)
      + sum_list (List.map imported_of pre) /\
  error_handler t' = handle_errors (errors_of pre) (error_handler t) /\
  feeding_result t' = feeding_after pre (feeding_result t).
Proof.
  cbv zeta. unfold receive_results. rewrite receive_loop_spec. simpl.
  split; [done|]. split; [|done].
  unfold RateMeter.increment, RateMeter.maybe_update, RateMeter.update. simpl.
  destruct (_ =? 0); [|destruct elapsed]; simpl; lia.
Qed.

Lemma import_loop_done received t :
  more_to_receive t = false -> import_loop received t = (Ok tt, t).
Proof. intros H. destruct received as [|[[results elapsed] running] rest]; simpl; by rewrite ?H. Qed.

(** X21. Once the feeder has reported and the rows counted by the meter
    reach the number it has sent, the loop of [import_records] ends with the
    next call of [receive_results] that finds the update interval elapsed,
    even if nothing is received: the meter moves its current count into
    [total_records], which is what the loop compares with [sent]. *)
Theorem import_loop_ends_after_update rest running t sent num_sources skip_rows :
  feeding_result t = Some (sent, num_sources, skip_rows) ->
  sent <= RateMeter.current_record (receive_meter t)
          + RateMeter.total_records (receive_meter t) ->
  exists t',
    import_loop (([], true, running) :: rest) t = (Ok tt, t') /\
    more_to_receive t' = false /\
    feeding_result t' = feeding_result t /\
    error_handler t' = error_handler t /\
    RateMeter.current_record (receive_meter t') + RateMeter.total_records (receive_meter t')
    = RateMeter.current_record (receive_meter t) + RateMeter.total_records (receive_meter t).
Proof.
  intros Hf Hsent. cbn [import_loop].
  destruct (more_to_receive t) eqn:Hmore; [|by exists t].
  unfold receive_results. cbn [receive_loop].
  unfold RateMeter.increment, RateMeter.maybe_update, RateMeter.update.
  cbn [RateMeter.current_record RateMeter.total_records].
  unfold more_to_receive in Hmore. rewrite Hf in Hmore. apply Z.ltb_lt in Hmore.
  destruct (Z.eqb_spec (RateMeter.current_record (receive_meter t) + 0) 0) as [H0|_];
    [lia|].
  set (t' := mkTask _ _ _).
  assert (Hdone : more_to_receive t' = false).
  { unfold more_to_receive. subst t'. cbn [feeding_result receive_meter]. rewrite Hf.
    cbn [RateMeter.total_records]. apply Z.ltb_ge. lia. }
  exists t'. split.
  - destruct (_ || _); [done|]. by apply import_loop_done.
  - split; [done|]. subst t'. cbn. repeat split; lia.
Qed.

Lemma import_loop_ends_after_update_witness :
  exists t',
    import_loop (([], true, true) :: [([ProcessResult 1], false, true)])
                (mkTask (Some (3, 1, 0)) (RateMeter.mkMeter 3 0)
                        (ErrorHandler.mkImportErrorHandler 5 (-1) (-1) [] 0 0 0))
      = (Ok tt, t') /\
    more_to_receive t' = false /\
    feeding_result t' = Some (3, 1, 0) /\
    error_handler t' = ErrorHandler.mkImportErrorHandler 5 (-1) (-1) [] 0 0 0 /\
    RateMeter.current_record (receive_meter t') + RateMeter.total_records (receive_meter t')
    = 3 + 0.
Proof.
  apply (import_loop_ends_after_update [([ProcessResult 1], false, true)] true
           (mkTask (Some (3, 1, 0)) (RateMeter.mkMeter 3 0)
                   (ErrorHandler.mkImportErrorHandler 5 (-1) (-1) [] 0 0 0)) 3 1 0).
  - reflexivity.
  - simpl. lia.
Defined.

End ImportTaskFacts.

(** ** ImportProcess: batches *)

Module ImportBatchFacts.
Import ImportProcess ImportProcessFacts SlicesFacts ImportBatches.

#[local] Existing Instance M_ret.
#[local] Existing Instance M_bind.

Lemma group_append_perm {K A} `{EqDecision K} (k : K) (a : A) d :
  concat (group_append k a d).*2 ≡ₚ a :: concat d.*2.
Proof.
  induction d as [|[k' l] d IH]; simpl; [done|].
  destruct (decide (k = k')); simpl.
  - rewrite <- app_assoc. simpl. symmetry. apply Permutation_middle.
  - rewrite IH. symmetry. apply Permutation_middle.
Qed.

Lemma group_extend_perm {K A} `{EqDecision K} (k : K) (l0 : list A) d :
  concat (group_extend k l0 d).*2 ≡ₚ l0 ++ concat d.*2.
Proof.
  induction d as [|[k' l] d IH]; simpl; [by rewrite app_nil_r|].
  destruct (decide (k = k')); simpl.
  - rewrite !app_assoc. apply Permutation_app_tail, Permutation_app_comm.
  - rewrite IH, !app_assoc. apply Permutation_app_tail, Permutation_app_comm.
Qed.

Lemma group_append_nonempty {K A} `{EqDecision K} (k : K) (a : A) d :
  Forall (fun g => g.2 <> []) d -> Forall (fun g => g.2 <> []) (group_append k a d).
Proof.
  induction 1 as [|[k' l] d Hl Hd IH]; simpl.
  - by repeat constructor.
  - destruct (decide (k = k')); constructor; simpl; auto.
    by destruct l.
Qed.

Lemma group_extend_nonempty {K A} `{EqDecision K} (k : K) (l0 : list A) d :
  l0 <> [] ->
  Forall (fun g => g.2 <> []) d -> Forall (fun g => g.2 <> []) (group_extend k l0 d).
Proof.
  intros Hl0. induction 1 as [|[k' l] d Hl Hd IH]; simpl.
  - by repeat constructor.
  - destruct (decide (k = k')); constructor; simpl; auto.
    by destruct l.
Qed.

Lemma route_rows_spec ring_pos rows : forall groups errors,
  let out := route_rows ring_pos rows groups errors in
  concat out.1.*2 ≡ₚ concat groups.*2 ++ List.filter (routable ring_pos) rows /\
  concat out.2.*2 ≡ₚ
    concat errors.*2 ++ List.filter (fun r => negb (routable ring_pos r)) rows /\
  (Forall (fun g => g.2 <> []) groups -> Forall (fun g => g.2 <> []) out.1) /\
  (Forall (fun g => g.2 <> []) errors -> Forall (fun g => g.2 <> []) out.2).
Proof.
  induction rows as [|r rows IH]; intros groups errors; cbv zeta.
  - simpl. rewrite !app_nil_r. done.
  - cbn [route_rows List.filter].
    destruct (ring_pos r) as [pos|e t] eqn:Hr.
    + assert (Hb : routable ring_pos r = true) by (unfold routable; by rewrite Hr).
      rewrite Hb. cbn [negb].
      destruct (IH (group_append pos r groups) errors) as (H1 & H2 & H3 & H4).
      split; [|split; [|split]]; [|done| |done].
      * rewrite H1, group_append_perm. simpl. apply Permutation_middle.
      * intros Hg. by apply H3, group_append_nonempty.
    + assert (Hb : routable ring_pos r = false) by (unfold routable; by rewrite Hr).
      rewrite Hb. cbn [negb].
      destruct (IH groups (group_append t r errors)) as (H1 & H2 & H3 & H4).
      split; [|split; [|split]]; [done| |done|].
      * rewrite H2, group_append_perm. simpl. apply Permutation_middle.
      * intros Hg. by apply H4, group_append_nonempty.
Qed.

Lemma slices_positive {A} step (rows : list A) w :
  0 < step ->
  slices step rows w = (Ok (slices_aux (length rows) (Z.to_nat step) rows), w).
Proof.
  intros Hs. unfold slices.
  destruct (Z.eqb_spec step 0); [lia|]. destruct (Z.ltb_spec step 0); [lia|]. done.
Qed.

Lemma sliced_batches {R} id max_batch_size (replicas : R) (rows : list (list cqlval)) :
  0 < max_batch_size ->
  let bs := List.map (fun part => (replicas, make_batch id part))
                     (slices_aux (length rows) (Z.to_nat max_batch_size) rows) in
  Forall (fun rb => well_formed_batch id max_batch_size rb.2) bs /\
  concat (List.map (fun rb => batch_rows rb.2) bs) = rows.
Proof.
  intros Hs. cbv zeta. split.
  - apply Forall_map.
    eapply Forall_impl; [apply slices_aux_sizes; lia|].
    intros part Hp. cbv beta in Hp. unfold well_formed_batch, make_batch, len.
    cbn [snd batch_id batch_attempts batch_rows]. repeat split; lia.
  - rewrite map_map. simpl. rewrite map_id. apply slices_aux_concat; [lia|done].
Qed.

Lemma batches_by_replica_spec id max_batch_size groups w :
  0 < max_batch_size ->
  exists bs,
    batches_by_replica max_batch_size id groups w = (Ok bs, w) /\
    Forall (fun rb => well_formed_batch id max_batch_size rb.2) bs /\
    rows_of_batches bs = concat groups.*2.
Proof.
  intros Hs. induction groups as [|[replicas rows] groups (bs & IH & Hwf & Hrows)].
  - exists []. by repeat split.
  - cbn [batches_by_replica]. unfold mbind, M_bind, bind.
    rewrite slices_positive by done. rewrite IH.
    destruct (sliced_batches id max_batch_size replicas rows Hs) as [Hwf1 Hrows1].
    eexists. split; [reflexivity|]. split.
    + by apply Forall_app.
    + unfold rows_of_batches in *. rewrite map_app, concat_app, Hrows1, Hrows. done.
Qed.

Lemma batches_by_ring_pos_spec filter_replicas min_batch_size max_batch_size id groups w :
  0 < max_batch_size ->
  forall by_replica,
  exists bs by_replica',
    batches_by_ring_pos filter_replicas min_batch_size max_batch_size id groups by_replica w
      = (Ok (bs, by_replica'), w) /\
    Forall (fun rb => well_formed_batch id max_batch_size rb.2) bs /\
    rows_of_batches bs ++ concat by_replica'.*2 ≡ₚ concat groups.*2 ++ concat by_replica.*2.
Proof.
  intros Hs. induction groups as [|[pos rows] groups IH]; intros by_replica.
  - exists [], by_replica. by repeat split.
  - cbn [batches_by_ring_pos]. destruct (min_batch_size <? len rows).
    + destruct (IH by_replica) as (bs & by_replica' & Heq & Hwf & Hrows).
      unfold mbind, M_bind, bind. rewrite slices_positive by done. rewrite Heq.
      destruct (sliced_batches id max_batch_size (filter_replicas pos) rows Hs)
        as [Hwf1 Hrows1].
      eexists _, _. split; [reflexivity|]. split; [by apply Forall_app|].
      unfold rows_of_batches in *. rewrite map_app, concat_app, Hrows1.
      simpl. rewrite <- !app_assoc. by apply Permutation_app_head.
    + destruct (IH (group_extend (take 1 (filter_replicas pos)) rows by_replica))
        as (bs & by_replica' & Heq & Hwf & Hrows).
      exists bs, by_replica'. split; [done|]. split; [done|].
      rewrite Hrows, group_extend_perm. simpl.
      rewrite <- !app_assoc. rewrite (Permutation_app_swap_app (concat groups.*2) rows).
      done.
Qed.

Lemma for_each_app {A} (l1 l2 : list A) body w :
  for_each (l1 ++ l2) body w =
  match for_each l1 body w with
  | (Ok _, w') => for_each l2 body w'
  | (Raise e t, w') => (Raise e t, w')
  end.
Proof.
  revert w. induction l1 as [|a l1 IH]; intros w; simpl; [done|].
  unfold mbind, M_bind, bind. destruct (body a w) as [[[]|e t] w1]; [|done].
  apply IH.
Qed.

(** The loop that reports the rows that could not be placed. *)
Lemma report_unroutable_spec ref v n errors : forall w c imported,
  (forall w', py_len v w' = (Ok n, w')) ->
  chunks w !! ref = Some c ->
  c !! "rows" = Some v ->
  c !! "imported" = Some (PInt imported) ->
  exists w' c',
    for_each errors (fun '(msg, rows) =>
      send (ImportTaskError "ParseError" msg (ConvertedRows rows) 1 true);;
      update_chunk (ConvertedRows rows) ref) w = (Ok tt, w') /\
    inflight w' = inflight w /\
    chunks w' !! ref = Some c' /\
    c' !! "rows" = Some v /\
    c' !! "imported" = Some (PInt (imported + len (concat errors.*2))).
Proof.
  intros w c imported Hlen. revert w c imported.
  induction errors as [|[msg rows] errors IH]; intros w c imported Hc Hr Hi.
  - exists w, c. simpl. rewrite Z.add_0_r. done.
  - cbn [for_each]. unfold mbind at 1, M_bind at 1, bind at 1.
    unfold mbind at 1, M_bind at 1, bind at 1. unfold send at 1.
    set (w1 := mkWorker _ _ _).
    rewrite (update_chunk_spec _ ref w1 c v n imported) by done.
    set (w2 := mkWorker _ _ _).
    destruct (IH w2 (<["imported" := PInt (imported + payload_len (ConvertedRows rows))]> c)
                 (imported + payload_len (ConvertedRows rows)))
      as (w' & c' & Hrun & Hfl & Hc' & Hr' & Hi').
    + subst w2. simpl. apply list_lookup_insert_eq. by eapply lookup_lt_Some.
    + by rewrite lookup_insert_ne.
    + by rewrite lookup_insert_eq.
    + exists w', c'. split; [exact Hrun|]. split; [by rewrite Hfl|]. split; [done|].
      split; [done|]. rewrite Hi'. do 2 f_equal. cbn [fmap list_fmap concat snd payload_len]. unfold len.
      rewrite length_app. lia.
Qed.

(** X10. For a chunk of converted rows and a positive [maxbatchsize],
    [split_into_batches] puts every row whose ring position can be found
    into exactly one batch: the rows of the batches are those rows, up to
    their order.  Every batch carries the chunk's id, is a first attempt and
    has between one and [maxbatchsize] rows.  The rows that cannot be placed
    are added to the chunk's [imported] count. *)
Theorem split_into_batches_partitions_rows ring_pos filter_replicas
    min_batch_size max_batch_size ref w c converted id imported :
  chunks w !! ref = Some c ->
  c !! "rows" = Some (PRows converted) ->
  c !! "id" = Some id ->
  c !! "imported" = Some (PInt imported) ->
  0 < max_batch_size ->
  exists batches w' c',
    split_into_batches ring_pos filter_replicas min_batch_size max_batch_size ref w
      = (Ok batches, w') /\
    Forall (fun rb => well_formed_batch id max_batch_size rb.2) batches /\
    rows_of_batches batches ≡ₚ List.filter (routable ring_pos) converted /\
    chunks w' !! ref = Some c' /\
    c' !! "imported" =
      Some (PInt (imported
                  + len (List.filter (fun r => negb (routable ring_pos r)) converted))).
Proof.
  intros Hc Hr Hid Hi Hmax.
  unfold split_into_batches.
  unfold mbind at 1, M_bind at 1, bind at 1. unfold get_chunk at 1. rewrite Hc.
  unfold mbind at 1, M_bind at 1, bind at 1. unfold getitem at 1. rewrite Hr.
  unfold ret at 1.
  unfold mbind at 1, M_bind at 1, bind at 1. unfold mret at 1, M_ret at 1, ret at 1.
  destruct (route_rows_spec ring_pos converted [] []) as (Hg & He & _ & _).
  destruct (route_rows ring_pos converted [] []) as [groups errors].
  cbn [fst snd] in Hg, He. simpl in Hg, He.
  destruct (report_unroutable_spec ref (PRows converted) (len converted) errors
              w c imported) as (w1 & c1 & Hrun & _ & Hc1 & _ & Hi1); try done.
  unfold mbind at 1, M_bind at 1, bind at 1. rewrite Hrun.
  unfold mbind at 1, M_bind at 1, bind at 1. unfold getitem at 1. rewrite Hid.
  unfold ret at 1.
  destruct (batches_by_ring_pos_spec filter_replicas min_batch_size max_batch_size
              id groups w1 Hmax []) as (first & by_replica & Hfirst & Hwf1 & Hrows1).
  unfold mbind at 1, M_bind at 1, bind at 1. rewrite Hfirst.
  destruct (batches_by_replica_spec id max_batch_size by_replica w1 Hmax)
    as (second & Hsecond & Hwf2 & Hrows2).
  unfold mbind at 1, M_bind at 1, bind at 1. rewrite Hsecond.
  exists (first ++ second), w1, c1. split; [done|]. split; [by apply Forall_app|].
  split; [|split; [done|]].
  - unfold rows_of_batches in *. rewrite map_app, concat_app, Hrows2, Hrows1.
    simpl. by rewrite app_nil_r.
  - rewrite Hi1. do 3 f_equal. unfold len. f_equal. by apply Permutation_length.
Qed.

Lemma Forall_sum_nonneg payloads :
  Forall (fun p => 0 < payload_len p) payloads -> 0 <= sum_payloads payloads.
Proof. induction 1; simpl; lia. Qed.

Lemma credit_below ref v n payloads : forall w c imported,
  (forall w', py_len v w' = (Ok n, w')) ->
  chunks w !! ref = Some c ->
  c !! "rows" = Some v ->
  c !! "imported" = Some (PInt imported) ->
  Forall (fun p => 0 < payload_len p) payloads ->
  imported + sum_payloads payloads < n ->
  exists w' c',
    credit ref payloads w = (Ok tt, w') /\
    outmsg w' = outmsg w /\
    chunks w' !! ref = Some c' /\
    c' !! "rows" = Some v /\
    c' !! "imported" = Some (PInt (imported + sum_payloads payloads)).
Proof.
  intros w c imported Hlen. revert w c imported.
  induction payloads as [|p payloads IH]; intros w c imported Hc Hr Hi Hpos Hsum.
  - exists w, c. simpl. rewrite Z.add_0_r. done.
  - apply Forall_cons in Hpos as [Hp Hpos]. simpl in Hsum.
    pose proof (Forall_sum_nonneg payloads Hpos) as Hnn.
    unfold credit. cbn [for_each]. unfold mbind at 1, M_bind at 1, bind at 1.
    rewrite (update_chunk_spec _ ref w c v n imported) by done.
    destruct (Z.eqb_spec (imported + payload_len p) n) as [Heq|_]; [lia|].
    set (w2 := mkWorker _ _ _).
    destruct (IH w2 (<["imported" := PInt (imported + payload_len p)]> c)
                 (imported + payload_len p)) as (w' & c' & Hrun & Hout & Hc' & Hr' & Hi').
    + subst w2. simpl. apply list_lookup_insert_eq. by eapply lookup_lt_Some.
    + by rewrite lookup_insert_ne.
    + by rewrite lookup_insert_eq.
    + done.
    + lia.
    + exists w', c'. split; [exact Hrun|]. split.
      { rewrite Hout. subst w2. simpl. by rewrite app_nil_r. }
      split; [done|]. split; [done|]. rewrite Hi'. simpl. do 2 f_equal. lia.
Qed.

Lemma sum_payloads_app l1 l2 :
  sum_payloads (l1 ++ l2) = sum_payloads l1 + sum_payloads l2.
Proof. induction l1 as [|p l1 IH]; simpl; [done|]. rewrite IH. lia. Qed.

Lemma credit_reports_once ref converted payloads w c :
  chunks w !! ref = Some c ->
  c !! "rows" = Some (PRows converted) ->
  c !! "imported" = Some (PInt 0) ->
  Forall (fun p => 0 < payload_len p) payloads ->
  payloads <> [] ->
  sum_payloads payloads = len converted ->
  (exists w', credit ref payloads w = (Ok tt, w') /\
              outmsg w' = outmsg w ++ [ImportProcessResult (len converted)]) /\
  (forall pre post, payloads = pre ++ post -> post <> [] ->
     exists w1, credit ref pre w = (Ok tt, w1) /\ outmsg w1 = outmsg w).
Proof.
  intros Hc Hr Hi Hpos Hne Hsum.
  assert (Hpre : forall pre post, payloads = pre ++ post -> post <> [] ->
     exists w1 c1, credit ref pre w = (Ok tt, w1) /\ outmsg w1 = outmsg w /\
       chunks w1 !! ref = Some c1 /\ c1 !! "rows" = Some (PRows converted) /\
       c1 !! "imported" = Some (PInt (0 + sum_payloads pre))).
  { intros pre post -> Hpost.
    apply Forall_app in Hpos as [Hpos1 Hpos2].
    rewrite sum_payloads_app in Hsum.
    assert (0 < sum_payloads post).
    { destruct post as [|p post]; [done|]. apply Forall_cons in Hpos2 as [Hp Hpos2].
      pose proof (Forall_sum_nonneg post Hpos2). simpl. lia. }
    apply (credit_below ref (PRows converted) (len converted) pre w c 0); try done.
    lia. }
  split.
  - destruct (exists_last Hne) as (pre & p & ->).
    destruct (Hpre pre [p] eq_refl) as (w1 & c1 & Hrun & Hout & Hc1 & Hr1 & Hi1); [done|].
    unfold credit in *. rewrite for_each_app, Hrun. cbn [for_each].
    unfold mbind, M_bind, bind.
    rewrite (update_chunk_spec _ ref w1 c1 (PRows converted) (len converted)
               (0 + sum_payloads pre)) by done.
    rewrite sum_payloads_app in Hsum. simpl in Hsum.
    destruct (Z.eqb_spec (0 + sum_payloads pre + payload_len p) (len converted)); [|lia].
    eexists. split; [reflexivity|]. simpl. by rewrite Hout.
  - intros pre post Heq Hpost.
    destruct (Hpre pre post Heq Hpost) as (w1 & c1 & Hrun & Hout & _). eauto.
Qed.

(** X11. When the payloads credited to a chunk that starts at
    [imported = 0] are not empty and their sizes add up to the number of the
    chunk's rows, [update_chunk] sends the [ImportProcessResult] of the chunk
    once, with the last payload, and nothing before it. *)
Theorem chunk_reported_once_when_rows_add_up ref converted payloads w c :
  chunks w !! ref = Some c ->
  c !! "rows" = Some (PRows converted) ->
  c !! "imported" = Some (PInt 0) ->
  Forall (fun p => 0 < payload_len p) payloads ->
  payloads <> [] ->
  sum_payloads payloads = len converted ->
  (exists w', credit ref payloads w = (Ok tt, w') /\
              outmsg w' = outmsg w ++ [ImportProcessResult (len converted)]) /\
  (forall pre post, payloads = pre ++ post -> post <> [] ->
     exists w1, credit ref pre w = (Ok tt, w1) /\ outmsg w1 = outmsg w).
Proof. apply credit_reports_once. Qed.

Lemma complete_failed max_attempts name msg others b ref replicas w :
  inflight w = others ++ [mkRequest b ref replicas] ->
  complete max_attempts (Failed (length others) name msg) w =
  let w1 := mkWorker (chunks w) others
              (outmsg w ++ [ImportTaskError name msg (ConvertedRows (batch_rows b))
                              (batch_attempts b) (max_attempts <=? batch_attempts b)]) in
  if max_attempts <=? batch_attempts b
  then update_chunk (ConvertedRows (batch_rows b)) ref w1
  else (Ok tt, mkWorker (chunks w)
                 (others ++ [mkRequest (mkBatch (batch_id b) (batch_rows b)
                                                (batch_attempts b + 1)) ref replicas])
                 (outmsg w1)).
Proof.
  intros Hfl. unfold complete, take_request, err_callback, report_error, execute_async,
    send, mbind, M_bind, bind, mret, M_ret, ret.
  rewrite Hfl, list_lookup_middle by done. rewrite delete_middle.
  cbn [req_batch req_chunk req_replicas inflight chunks outmsg]. rewrite app_nil_r.
  destruct (max_attempts <=? batch_attempts b); cbn [inflight chunks outmsg].
  - by destruct (update_chunk _ _ _) as [[[]|] ?].
  - done.
Qed.

Lemma failures_before_last max_attempts name msg others id rows ref replicas :
  forall (k : nat) a w,
  a + Z.of_nat k <= max_attempts ->
  inflight w = others ++ [mkRequest (mkBatch id rows a) ref replicas] ->
  exists w',
    for_each (replicate k (Failed (length others) name msg)) (complete max_attempts) w
      = (Ok tt, w') /\
    inflight w' = others ++ [mkRequest (mkBatch id rows (a + Z.of_nat k)) ref replicas] /\
    chunks w' = chunks w /\
    outmsg w' = outmsg w ++
      List.map (fun i => ImportTaskError name msg (ConvertedRows rows) i false)
               (seqZ a (Z.of_nat k)).
Proof.
  induction k as [|k IH]; intros a w Hk Hfl.
  - exists w. simpl. rewrite Z.add_0_r, app_nil_r. done.
  - cbn [replicate for_each]. unfold mbind at 1, M_bind at 1, bind at 1.
    rewrite (complete_failed _ _ _ others (mkBatch id rows a) ref replicas) by done.
    cbv zeta. cbn [batch_attempts batch_rows batch_id outmsg].
    destruct (Z.leb_spec max_attempts a) as [|_]; [lia|].
    match goal with |- context [for_each _ _ ?w0] => set (w1 := w0) end.
    destruct (IH (a + 1) w1) as (w' & Hrun & Hfl' & Hch & Hout); [lia|done|].
    exists w'. split; [exact Hrun|].
    split; [rewrite Hfl'; do 4 f_equal; lia|]. split; [done|].
    rewrite Hout. subst w1. cbn [outmsg]. rewrite <- app_assoc. f_equal.
    rewrite (seqZ_cons a) by lia. simpl. do 3 f_equal; lia.
Qed.

(** X12. A batch on its first attempt whose request fails every time is
    retried until [maxattempts] attempts have been made: each of the first
    [maxattempts - 1] failures reports a non-final error and submits the
    batch again with one attempt more, leaving the chunk as it is; the
    [maxattempts]-th failure reports a final error, submits nothing and
    credits the rows of the batch to the chunk once. *)
Theorem failing_batch_gives_up_after_max_attempts max_attempts name msg others id rows
    ref replicas w c converted imported :
  1 <= max_attempts ->
  inflight w = others ++ [mkRequest (mkBatch id rows 1) ref replicas] ->
  chunks w !! ref = Some c ->
  c !! "rows" = Some (PRows converted) ->
  c !! "imported" = Some (PInt imported) ->
  let failures k := for_each (replicate k (Failed (length others) name msg))
                             (complete max_attempts) w in
  let report final i := ImportTaskError name msg (ConvertedRows rows) i final in
  (forall k : nat, Z.of_nat k < max_attempts ->
     exists w', failures k = (Ok tt, w') /\
       inflight w' =
         others ++ [mkRequest (mkBatch id rows (1 + Z.of_nat k)) ref replicas] /\
       chunks w' = chunks w /\
       outmsg w' = outmsg w ++ List.map (report false) (seqZ 1 (Z.of_nat k))) /\
  (exists w' c', failures (Z.to_nat max_attempts) = (Ok tt, w') /\
     inflight w' = others /\
     chunks w' !! ref = Some c' /\
     c' !! "imported" = Some (PInt (imported + len rows)) /\
     outmsg w' = outmsg w ++ List.map (report false) (seqZ 1 (max_attempts - 1))
                 ++ [report true max_attempts]
                 ++ (if imported + len rows =? len converted
                     then [ImportProcessResult (len converted)] else [])).
Proof.
  intros Hmax Hfl Hc Hr Hi. cbv zeta. split.
  - intros k Hk.
    apply (failures_before_last max_attempts name msg others id rows ref replicas k 1 w);
      [lia|done].
  - destruct (failures_before_last max_attempts name msg others id rows ref replicas
                (Z.to_nat (max_attempts - 1)) 1 w) as (w1 & Hrun & Hfl1 & Hch & Hout);
      [lia|done|].
    replace (Z.to_nat max_attempts) with (Z.to_nat (max_attempts - 1) + 1)%nat by lia.
    rewrite replicate_add, for_each_app, Hrun.
    cbn [replicate for_each]. unfold mbind at 1, M_bind at 1, bind at 1.
    rewrite (complete_failed _ _ _ others _ ref replicas w1 Hfl1).
    cbv zeta. cbn [batch_attempts batch_rows batch_id outmsg].
    rewrite Z2Nat.id by lia. replace (1 + (max_attempts - 1)) with max_attempts by lia.
    rewrite Z.leb_refl.
    rewrite (update_chunk_spec _ ref _ c (PRows converted) (len converted) imported);
      [|by cbn [chunks]; rewrite Hch|done|done|done].
    unfold mret, M_ret, ret. cbn [payload_len].
    eexists _, _. split; [reflexivity|]. cbn [inflight chunks outmsg].
    split; [done|]. split.
    { apply list_lookup_insert_eq. rewrite Hch. by eapply lookup_lt_Some. }
    split; [by rewrite lookup_insert_eq|].
    rewrite Hout, <- !app_assoc. by rewrite Z2Nat.id by lia.
Qed.

Lemma split_into_batches_partitions_rows_witness :
  exists batches w' c',
    split_into_batches demo_ring_pos demo_filter_replicas 10 20 0 worker_two_rows
      = (Ok batches, w') /\
    Forall (fun rb => well_formed_batch (PInt 1) 20 rb.2) batches /\
    rows_of_batches batches ≡ₚ List.filter (routable demo_ring_pos) two_rows /\
    chunks w' !! 0%nat = Some c' /\
    c' !! "imported" =
      Some (PInt (0 + len (List.filter (fun r => negb (routable demo_ring_pos r))
                                       two_rows))).
Proof.
  apply (split_into_batches_partitions_rows demo_ring_pos demo_filter_replicas 10 20
           0%nat worker_two_rows chunk_two_rows two_rows (PInt 1) 0).
  - reflexivity.
  - vm_compute. reflexivity.
  - vm_compute. reflexivity.
  - vm_compute. reflexivity.
  - lia.
Defined.

Lemma chunk_reported_once_when_rows_add_up_witness :
  exists w', credit 0 [ConvertedRows [[VInt 1; VText "a"]]; ConvertedRows [[VInt 2; VText "b"]]]
                    worker_two_rows = (Ok tt, w') /\
             outmsg w' = outmsg worker_two_rows ++ [ImportProcessResult (len two_rows)].
Proof.
  apply (chunk_reported_once_when_rows_add_up 0%nat two_rows
           [ConvertedRows [[VInt 1; VText "a"]]; ConvertedRows [[VInt 2; VText "b"]]]
           worker_two_rows chunk_two_rows).
  - reflexivity.
  - vm_compute. reflexivity.
  - vm_compute. reflexivity.
  - repeat constructor.
  - discriminate.
  - reflexivity.
Defined.

Lemma failing_batch_gives_up_after_max_attempts_witness :
  exists w' c',
    for_each (replicate (Z.to_nat 2) (Failed (length (@nil request)) "Timeout" "timed out"))
             (complete 2) worker_in_flight = (Ok tt, w') /\
    inflight w' = [] /\
    chunks w' !! 0%nat = Some c' /\
    c' !! "imported" = Some (PInt (0 + len two_rows)) /\
    outmsg w' =
      outmsg worker_in_flight
      ++ List.map (fun i => ImportTaskError "Timeout" "timed out" (ConvertedRows two_rows)
                                            i false) (seqZ 1 (2 - 1))
      ++ [ImportTaskError "Timeout" "timed out" (ConvertedRows two_rows) 2 true]
      ++ (if 0 + len two_rows =? len two_rows
          then [ImportProcessResult (len two_rows)] else []).
Proof.
  apply (failing_batch_gives_up_after_max_attempts 2 "Timeout" "timed out" [] (PInt 1)
           two_rows 0%nat ["10.0.0.1"] worker_in_flight chunk_two_rows two_rows 0).
  - lia.
  - reflexivity.
  - reflexivity.
  - vm_compute. reflexivity.
  - vm_compute. reflexivity.
Defined.

End ImportBatchFacts.

(** ** ImportProcess: a chunk from its arrival to its report *)

Module ImportChunkFacts.
Import ImportProcess ImportProcessFacts SlicesFacts ImportBatches ImportBatchFacts.

#[local] Existing Instance M_ret.
#[local] Existing Instance M_bind.













End ImportChunkFacts.

(** ** sorted, bisect_right and the token map *)

Module TokenMapFacts.
Import ExportTask TokenMap.

Lemma insert_by_perm {A} (key : A -> Z) x l : insert_by key x l ≡ₚ x :: l.
Proof.
  induction l as [|y l IH]; simpl; [done|].
  destruct (key x <=? key y); [done|]. rewrite IH. apply perm_swap.
Qed.

Lemma py_sorted_perm {A} (key : A -> Z) l : py_sorted key l ≡ₚ l.
Proof.
  induction l as [|x l IH]; simpl; [done|]. by rewrite insert_by_perm, IH.
Qed.

Lemma bisect_loop_spec a x : ascending a ->
  forall fuel lo hi,
  (hi - lo <= fuel)%nat -> (lo <= hi <= length a)%nat ->
  (forall i y, (i < lo)%nat -> a !! i = Some y -> y <= x) ->
  (forall i y, (hi <= i)%nat -> a !! i = Some y -> x < y) ->
  let r := bisect_loop fuel a x lo hi in
  (r <= length a)%nat /\
  (forall i y, (i < r)%nat -> a !! i = Some y -> y <= x) /\
  (forall i y, (r <= i)%nat -> a !! i = Some y -> x < y).
Proof.
  intros Hasc. induction fuel as [|fuel IH]; intros lo hi Hf Hb Hlo Hhi; cbv zeta.
  - simpl. assert (lo = hi) as -> by lia. split; [lia|]. split; done.
  - cbn [bisect_loop]. destruct (Nat.ltb_spec lo hi) as [Hlt|Hge].
    + pose proof (Nat.div_mod_eq (lo + hi) 2) as Hdm.
      pose proof (Nat.mod_upper_bound (lo + hi) 2 ltac:(lia)) as Hmod.
      set (mid := ((lo + hi) / 2)%nat) in *.
      assert (Hmid : (lo <= mid < hi)%nat) by lia.
      destruct (lookup_lt_is_Some_2 a mid ltac:(lia)) as [y Hy]. rewrite Hy.
      destruct (Z.ltb_spec x y) as [Hxy|Hxy].
      * apply IH; [lia|lia|done|].
        intros i z Hi Hz. pose proof (Hasc mid i y z Hi Hy Hz). lia.
      * apply IH; [lia|lia| |done].
        intros i z Hi Hz. pose proof (Hasc i mid z y ltac:(lia) Hz Hy). lia.
    + assert (lo = hi) as -> by lia. split; [lia|]. split; done.
Qed.

Lemma bisect_right_spec a x : ascending a ->
  let r := bisect_right a x in
  (r <= length a)%nat /\
  (forall i y, (i < r)%nat -> a !! i = Some y -> y <= x) /\
  (forall i y, (r <= i)%nat -> a !! i = Some y -> x < y).
Proof.
  intros Hasc. apply bisect_loop_spec; [done|lia|lia|intros; lia|].
  intros i y Hi Hy. apply lookup_lt_Some in Hy. lia.
Qed.

Lemma sorted_by_ascending (ring : list Z) : sorted_by (fun t => t) ring -> ascending ring.
Proof.
  induction ring as [|t ring IH]; intros Hs i j x y Hij Hi Hj.
  - done.
  - destruct Hs as [Ht Hs]. destruct i as [|i], j as [|j]; simpl in *.
    + injection Hi as <-. injection Hj as <-. lia.
    + injection Hi as <-. rewrite Forall_forall in Ht.
      apply Ht. by eapply list_elem_of_lookup_2.
    + lia.
    + apply (IH Hs i j); [lia|done|done].
Qed.

(** X13. On a ring in ascending order that is not empty, [get_ring_pos]
    returns a valid index: the position of the first token strictly above
    the value, all tokens before it being at or below the value, or 0 when no
    token is above the value.  A value equal to a token is thus placed at the
    position after that token. *)
Theorem get_ring_pos_first_token_above ring val :
  ascending ring ->
  ring <> [] ->
  let pos := get_ring_pos ring val in
  (pos < length ring)%nat /\
  ((exists token, ring !! pos = Some token /\ val < token /\
                  forall i t, (i < pos)%nat -> ring !! i = Some t -> t <= val) \/
   (pos = 0%nat /\ forall t, t ∈ ring -> t <= val)).
Proof.
  intros Hasc Hne. cbv zeta. unfold get_ring_pos.
  destruct (bisect_right_spec ring val Hasc) as (Hle & Hbelow & Habove).
  assert (0 < length ring)%nat by (destruct ring; [done|simpl; lia]).
  destruct (Nat.ltb_spec (bisect_right ring val) (length ring)) as [Hlt|Hge].
  - split; [done|]. left.
    destruct (lookup_lt_is_Some_2 ring _ Hlt) as [token Ht].
    exists token. split; [done|]. split; [exact (Habove _ _ (Nat.le_refl _) Ht)|done].
  - split; [done|]. right. split; [done|].
    intros t Ht. apply list_elem_of_lookup in Ht as [i Hi].
    apply (Hbelow i); [|done]. apply lookup_lt_Some in Hi. lia.
Qed.

Lemma get_ring_pos_first_token_above_witness :
  let pos := get_ring_pos [5; 10; 20] 10 in
  (pos < length [5; 10; 20])%nat /\
  ((exists token, [5; 10; 20] !! pos = Some token /\ 10 < token /\
                  forall i t, (i < pos)%nat -> [5; 10; 20] !! i = Some t -> t <= 10) \/
   (pos = 0%nat /\ forall t, t ∈ [5; 10; 20] -> t <= 10)).
Proof.
  apply (get_ring_pos_first_token_above [5; 10; 20] 10).
  - apply sorted_by_ascending. simpl. repeat constructor; lia.
  - discriminate.
Defined.

(** X14. Whatever numbers the shuffle draws, [filter_replicas] returns the
    hosts that are up and in the local data centre, each as often as it
    occurs in [hosts] and no other host. *)
Theorem filter_replicas_keeps_live_local_hosts local_dc random_key hosts :
  filter_replicas local_dc random_key hosts ≡ₚ List.filter (live_local local_dc) hosts.
Proof.
  unfold filter_replicas. destruct hosts as [|h hosts]; [done|].
  set (l := h :: hosts). cbv zeta.
  assert (Hp : List.map snd (py_sorted fst (imap (fun i h0 => (random_key i, h0)) l)) ≡ₚ l).
  { rewrite py_sorted_perm. clear. revert random_key.
    induction l as [|x l IH]; intros random_key; simpl; [done|].
    f_equiv. apply (IH (random_key ∘ S)). }
  revert Hp. generalize (List.map snd (py_sorted fst (imap (fun i h0 => (random_key i, h0)) l))).
  intros l' Hp. induction Hp; simpl; try done.
  - destruct (live_local local_dc x); by rewrite ?IHHp.
  - destruct (live_local local_dc x), (live_local local_dc y); try done. apply perm_swap.
  - by rewrite IHHp1.
Qed.

End TokenMapFacts.

(** ** ExportProcess: sessions and requests *)

Module ExportProcessFacts.
Import ExportTask ExportProcess.

Lemma insert_by_sorted {A} (key : A -> Z) x l :
  sorted_by key l -> sorted_by key (insert_by key x l).
Proof.
  induction l as [|y l IH]; simpl; [done|]. intros [Hy Hl].
  destruct (Z.leb_spec (key x) (key y)) as [Hxy|Hxy]; simpl.
  - split; [|done]. constructor; [done|].
    eapply Forall_impl; [exact Hy|]. intros z Hz. simpl in Hz. lia.
  - split; [|by apply IH].
    assert (Hp : insert_by key x l ≡ₚ x :: l).
    { clear. induction l as [|z l IH]; simpl; [done|].
      destruct (key x <=? key z); [done|]. rewrite IH. apply perm_swap. }
    rewrite Hp. constructor; [lia|done].
Qed.

Lemma py_sorted_sorted {A} (key : A -> Z) l : sorted_by key (py_sorted key l).
Proof. induction l as [|x l IH]; simpl; [done|]. by apply insert_by_sorted. Qed.

Lemma py_sorted_elem {A} (key : A -> Z) l x : x ∈ py_sorted key l <-> x ∈ l.
Proof.
  induction l as [|y l IH]; simpl; [done|].
  assert (Hp : forall l', insert_by key y l' ≡ₚ y :: l').
  { clear. induction l' as [|z l IH]; simpl; [done|].
    destruct (key y <=? key z); [done|]. rewrite IH. apply perm_swap. }
  rewrite Hp, !elem_of_cons, IH. done.
Qed.

Lemma sorted_by_middle {A} (key : A -> Z) pre x post y :
  sorted_by key (pre ++ x :: post) -> y ∈ x :: post -> key x <= key y.
Proof.
  induction pre as [|z pre IH]; simpl.
  - intros [Hx _] [->|Hy]%elem_of_cons; [lia|].
    rewrite Forall_forall in Hx. by apply Hx.
  - intros [_ Hs]. by apply IH.
Qed.

Section Facts.

Variable new_session : string -> res unit.
Variable R : Type.
Variable format_rows : list R -> res string.
Variable max_requests : Z.

Lemma connect_spec host p :
  match connect new_session host p with
  | (Ok session, p') =>
      session = host /\ connectable new_session p host /\
      p' = set_sessions (<[host := session_requests p host + 1]> (hosts_to_sessions p)) p
  | (Raise _ _, p') => p' = p /\ ~ connectable new_session p host
  end.
Proof.
  unfold connect, connectable, session_requests.
  destruct (hosts_to_sessions p !! host) as [n|] eqn:Hh.
  - split; [done|]. split; [left; eauto|done].
  - destruct (new_session host) as [[]|e m] eqn:Hn.
    + split; [done|]. split; [by right|done].
    + split; [done|]. intros [[? [=]]|[=]].
Qed.

Lemma try_hosts_spec hosts : forall errors p,
  match try_hosts new_session hosts errors p with
  | (Some session, _, p') =>
      (exists pre post, hosts = pre ++ session :: post /\
                        forall h, h ∈ pre -> ~ connectable new_session p h) /\
      connectable new_session p session /\
      p' = set_sessions (<[session := session_requests p session + 1]>
                           (hosts_to_sessions p)) p
  | (None, _, p') => p' = p /\ forall h, h ∈ hosts -> ~ connectable new_session p h
  end.
Proof.
  induction hosts as [|host hosts IH]; intros errors p; cbn [try_hosts].
  - split; [done|]. intros h Hh. by apply elem_of_nil in Hh.
  - pose proof (connect_spec host p) as Hc.
    destruct (connect new_session host p) as [[session|e m] p1].
    + destruct Hc as (-> & Hconn & ->). split; [|done].
      exists [], hosts. split; [done|]. intros h Hh. by apply elem_of_nil in Hh.
    + destruct Hc as [-> Hno].
      specialize (IH (errors ++ [get_error_message e m]) p).
      destruct (try_hosts new_session hosts _ p) as [[[session|] errs] p'].
      * destruct IH as ((pre & post & -> & Hpre) & Hconn & ->). split; [|done].
        exists (host :: pre), post. split; [done|].
        intros h [->|Hh]%elem_of_cons; auto.
      * destruct IH as [-> Hnone]. split; [done|].
        intros h [->|Hh]%elem_of_cons; auto.
Qed.

Lemma get_session_spec hosts r p :
  match get_session new_session hosts r p with
  | (Some session, p') =>
      session ∈ hosts /\ connectable new_session p session /\
      (forall h, h ∈ hosts -> connectable new_session p h ->
                 session_requests p session <= session_requests p h) /\
      hosts_to_sessions p' =
        <[session := session_requests p session + 1]> (hosts_to_sessions p) /\
      outmsg p' = outmsg p
  | (None, p') =>
      (forall h, h ∈ hosts -> ~ connectable new_session p h) /\
      hosts_to_sessions p' = hosts_to_sessions p /\
      exists err, outmsg p' = outmsg p ++ [RangeError None err]
  end.
Proof.
  unfold get_session.
  pose proof (try_hosts_spec (py_sorted (session_requests p) hosts) [] p) as Ht.
  pose proof (py_sorted_sorted (session_requests p) hosts) as Hs.
  destruct (try_hosts _ _ _ p) as [[[session|] errs] p'].
  - destruct Ht as ((pre & post & Heq & Hpre) & Hconn & ->).
    split; [|split; [done|split; [|done]]].
    + apply (py_sorted_elem (session_requests p)). rewrite Heq.
      apply elem_of_app. right. by left.
    + intros h Hh Hc. apply (py_sorted_elem (session_requests p)) in Hh.
      rewrite Heq in Hh, Hs. apply elem_of_app in Hh as [Hh|Hh].
      * by destruct (Hpre h Hh).
      * by eapply sorted_by_middle.
  - destruct Ht as [-> Hnone]. split; [|split; [done|by eexists]].
    intros h Hh. by apply Hnone, py_sorted_elem.
Qed.

(** X15. [get_session] returns a session for one of the hosts given, one
    that can be connected and that has the fewest requests among those that
    can, and counts one more request for it; no message is sent.  When none
    of the hosts can be connected it returns no session, leaves the sessions
    as they are and sends one error message, which carries no token range. *)
Theorem get_session_least_loaded_replica hosts r p :
  match get_session new_session hosts r p with
  | (Some session, p') =>
      session ∈ hosts /\ connectable new_session p session /\
      (forall h, h ∈ hosts -> connectable new_session p h ->
                 session_requests p session <= session_requests p h) /\
      hosts_to_sessions p' =
        <[session := session_requests p session + 1]> (hosts_to_sessions p) /\
      outmsg p' = outmsg p
  | (None, p') =>
      (forall h, h ∈ hosts -> ~ connectable new_session p h) /\
      hosts_to_sessions p' = hosts_to_sessions p /\
      exists err, outmsg p' = outmsg p ++ [RangeError None err]
  end.
Proof. apply get_session_spec. Qed.

Lemma sum_comm (m : gmap string Z) :
  forall (j1 j2 : string) (z1 z2 y : Z),
    j1 <> j2 -> m !! j1 = Some z1 -> m !! j2 = Some z2 ->
    z1 + (z2 + y) = z2 + (z1 + y).
Proof. intros. lia. Qed.

Lemma num_requests_insert host v p :
  num_requests (set_sessions (<[host := v]> (hosts_to_sessions p)) p) =
  num_requests p - session_requests p host + v.
Proof.
  unfold num_requests, session_requests. cbn [set_sessions hosts_to_sessions].
  destruct (hosts_to_sessions p !! host) as [n|] eqn:Hh.
  - rewrite (map_fold_delete_L _ _ host n (hosts_to_sessions p) (sum_comm _) Hh).
    rewrite <- insert_delete_eq.
    rewrite (map_fold_insert_L _ _ host v (delete host (hosts_to_sessions p)) (sum_comm _))
      by apply lookup_delete_eq.
    lia.
  - rewrite (map_fold_insert_L _ _ host v (hosts_to_sessions p) (sum_comm _) Hh). lia.
Qed.

Lemma accounted_start_request r info p :
  accounted p ->
  let p' := start_request new_session r info p in
  accounted p' /\ len (pending p') <= len (pending p) + 1.
Proof.
  intros [Hn Hs]. cbv zeta. unfold start_request.
  pose proof (get_session_spec (hosts info) r p) as Hg.
  assert (Hpend : forall q, pending (get_session new_session (hosts info) r q).2 = pending q).
  { intros q. unfold get_session.
    pose proof (try_hosts_spec (py_sorted (session_requests q) (hosts info)) [] q) as Ht.
    destruct (try_hosts _ _ _ q) as [[[session|] errs] q'].
    - by destruct Ht as (_ & _ & ->).
    - by destruct Ht as [-> _]. }
  specialize (Hpend p).
  destruct (get_session new_session (hosts info) r p) as [[session|] p1];
    cbn [snd] in Hpend.
  - destruct Hg as (_ & _ & _ & Hsess & _).
    unfold accounted, len. cbn [pending hosts_to_sessions]. rewrite Hpend.
    rewrite length_app. cbn [length]. split; [split|lia].
    + pose proof (num_requests_insert session (session_requests p session + 1) p) as Hi.
      unfold num_requests in *. cbn [set_sessions hosts_to_sessions] in Hi |- *.
      rewrite Hsess, Hi. unfold len in Hn. lia.
    + intros r0 s0 [Hin|Hin]%elem_of_app.
      * rewrite Hsess. destruct (decide (session = s0)) as [->|Hne].
        -- rewrite lookup_insert_eq. eauto.
        -- rewrite lookup_insert_ne by done. eauto.
      * apply list_elem_of_singleton in Hin as [= -> ->].
        rewrite Hsess, lookup_insert_eq. eauto.
  - destruct Hg as (_ & Hsess & _). unfold accounted. rewrite Hpend.
    unfold num_requests. rewrite Hsess. split; [split; [done|]|lia].
    intros r0 s0 Hin. eauto.
Qed.

Lemma write_rows_keeps r rows p :
  hosts_to_sessions (write_rows_to_csv R format_rows r rows p) = hosts_to_sessions p /\
  pending (write_rows_to_csv R format_rows r rows p) = pending p.
Proof.
  unfold write_rows_to_csv. destruct rows; [done|]. by destruct (format_rows _).
Qed.

Lemma accounted_finish i r session p q :
  accounted p ->
  pending p !! i = Some (r, session) ->
  hosts_to_sessions q = hosts_to_sessions p ->
  pending q = pending p ->
  let p' := forget i (complete_request session q) in
  accounted p' /\ len (pending p') <= len (pending p).
Proof.
  intros [Hn Hs] Hi Hq1 Hq2. cbv zeta.
  destruct (Hs r session) as [n Hsome]; [by eapply list_elem_of_lookup_2|].
  unfold accounted, forget, complete_request, len.
  cbn [pending hosts_to_sessions set_sessions]. rewrite Hq1, Hq2.
  rewrite length_delete by eauto.
  pose proof (lookup_lt_Some _ _ _ Hi) as Hlt.
  split; [split|lia].
  - rewrite (alter_alt_Some _ _ _ _ Hsome).
    pose proof (num_requests_insert session (n - 1) p) as Hins.
    unfold num_requests, session_requests in *.
    cbn [set_sessions hosts_to_sessions] in Hins |- *. rewrite Hsome in Hins.
    rewrite Hins. unfold len in Hn. lia.
  - intros r0 s0 Hin. apply list_elem_of_delete_inv in Hin.
    destruct (Hs _ _ Hin) as [n0 Hn0].
    rewrite (alter_alt_Some _ _ _ _ Hsome).
    destruct (decide (session = s0)) as [->|Hne].
    + rewrite lookup_insert_eq. eauto.
    + rewrite lookup_insert_ne by done. eauto.
Qed.

Lemma accounted_step ev p :
  accounted p ->
  len (pending p) <= Z.max 0 (max_requests + 1) ->
  let p' := step new_session R format_rows max_requests ev p in
  accounted p' /\ len (pending p') <= Z.max 0 (max_requests + 1).
Proof.
  intros Hacc Hb. cbv zeta. destruct ev as [|i rows more|i name msg]; cbn [step].
  - destruct (Z.ltb_spec max_requests (num_requests p)) as [|Hle]; [done|].
    destruct (inmsg p) as [|[r info] rest]; [done|].
    set (p0 := mkProcess _ _ rest _).
    destruct (accounted_start_request r info p0) as [Hacc' Hlen]; [done|].
    split; [done|]. destruct Hacc as [Hn _]. subst p0. cbn [pending] in Hlen. lia.
  - destruct (pending p !! i) as [[r session]|] eqn:Hi; [|done].
    destruct (write_rows_keeps r rows p) as [Hw1 Hw2].
    destruct more.
    + unfold accounted, num_requests in *. rewrite Hw1, Hw2. done.
    + destruct (accounted_finish i r session p
                  (send RequestDone (write_rows_to_csv R format_rows r rows p)))
        as [Hacc' Hlen]; try done. split; [done|lia].
  - destruct (pending p !! i) as [[r session]|] eqn:Hi; [|done].
    destruct (accounted_finish i r session p
                (report_error (ErrorMessage (get_error_message name msg)) (Some r) p))
      as [Hacc' Hlen]; try done. split; [done|lia].
Qed.

(** X16. Whatever the order of the turns of [inner_run] and of the
    callbacks, the requests counted by the sessions are the requests whose
    callbacks are still to run, and there are never more than
    [maxrequests + 1] of them. *)
Theorem requests_in_flight_bounded events incoming :
  let p := run new_session R format_rows max_requests events (new_process incoming) in
  num_requests p = len (pending p) /\
  len (pending p) <= Z.max 0 (max_requests + 1).
Proof.
  cbv zeta.
  assert (H : forall p, accounted p -> len (pending p) <= Z.max 0 (max_requests + 1) ->
    let p' := run new_session R format_rows max_requests events p in
    accounted p' /\ len (pending p') <= Z.max 0 (max_requests + 1)).
  { induction events as [|ev events IH]; intros p Hacc Hb; [done|].
    cbn [run fold_left]. destruct (accounted_step ev p Hacc Hb) as [Hacc' Hb'].
    by apply IH. }
  destruct (H (new_process incoming)) as [[Hn _] Hb].
  - split; [done|]. intros r s Hin. by apply elem_of_nil in Hin.
  - unfold len. simpl. lia.
  - done.
Qed.

End Facts.

End ExportProcessFacts.

(** ** The routing key of a row *)

Module RoutingKeyFacts.
Import RoutingKey.

Lemma byte_of_Z_inj a b :
  0 <= a < 256 -> 0 <= b < 256 -> byte_of_Z a = byte_of_Z b -> a = b.
Proof.
  intros Ha Hb. unfold byte_of_Z.
  destruct (Byte.of_N (Z.to_N a)) as [x|] eqn:Hx.
  2:{ apply Byte.of_N_None_iff in Hx. lia. }
  destruct (Byte.of_N (Z.to_N b)) as [y|] eqn:Hy.
  2:{ apply Byte.of_N_None_iff in Hy. lia. }
  intros ->. apply Byte.to_of_N in Hx, Hy. lia.
Qed.

Lemma pack_inj (v1 v2 r1 r2 : bytes) p1 p2 :
  pack_H_s_B (len v1) v1 = Ok p1 ->
  pack_H_s_B (len v2) v2 = Ok p2 ->
  p1 ++ r1 = p2 ++ r2 ->
  v1 = v2 /\ r1 = r2.
Proof.
  unfold pack_H_s_B.
  destruct ((0 <=? len v1) && (len v1 <=? 65535)) eqn:Hb1; [|done].
  destruct ((0 <=? len v2) && (len v2 <=? 65535)) eqn:Hb2; [|done].
  apply andb_true_iff in Hb1 as [H1 H1'], Hb2 as [H2 H2'].
  apply Z.leb_le in H1, H1', H2, H2'.
  intros [= <-] [= <-]. cbn [app]. intros [= Hhi Hlo Hrest].
  apply byte_of_Z_inj in Hhi; [|split; [apply Z.div_pos; lia|apply Z.div_lt_upper_bound; lia]..].
  apply byte_of_Z_inj in Hlo; [|apply Z.mod_pos_bound; lia..].
  assert (Hlen : length v1 = length v2).
  { pose proof (Z.div_mod (len v1) 256 ltac:(lia)).
    pose proof (Z.div_mod (len v2) 256 ltac:(lia)). unfold len in *. lia. }
  rewrite <- !app_assoc in Hrest.
  apply app_inj_1 in Hrest as [-> Hrest]; [|done].
  by injection Hrest as ->.
Qed.

Section Facts.

Variable V : Type.
Variable serialize : nat -> V -> res bytes.

Lemma pack_loop_spec indexes : forall row acc pk_values,
  pack_loop V serialize indexes row acc = Ok pk_values ->
  exists vals packed,
    pk_values = acc ++ packed /\
    Forall2 (fun i val => serialized V serialize row i = Some val) indexes vals /\
    Forall2 (fun val p => pack_H_s_B (len val) val = Ok p) vals packed.
Proof.
  induction indexes as [|i indexes IH]; intros row acc pk_values; cbn [pack_loop].
  - intros [= <-]. exists [], []. rewrite app_nil_r. by repeat constructor.
  - destruct (row !! i) as [v|] eqn:Hv; [|done].
    destruct (serialize i v) as [val|] eqn:Hs; [|done].
    destruct (pack_H_s_B (len val) val) as [p|] eqn:Hp; [|done].
    intros H. apply IH in H as (vals & packed & -> & Hvals & Hpacked).
    exists (val :: vals), (p :: packed). rewrite <- app_assoc. split; [done|].
    split; constructor; try done. unfold serialized. by rewrite Hv, Hs.
Qed.

Lemma packed_inj vals1 : forall vals2 packed1 packed2,
  Forall2 (fun val p => pack_H_s_B (len val) val = Ok p) vals1 packed1 ->
  Forall2 (fun val p => pack_H_s_B (len val) val = Ok p) vals2 packed2 ->
  length vals1 = length vals2 ->
  concat packed1 = concat packed2 ->
  vals1 = vals2.
Proof.
  induction vals1 as [|v1 vals1 IH]; intros vals2 packed1 packed2 H1 H2 Hlen Hcat.
  - by destruct vals2.
  - destruct vals2 as [|v2 vals2]; [done|].
    apply Forall2_cons_inv_l in H1 as (p1 & packed1' & Hp1 & H1 & ->).
    apply Forall2_cons_inv_l in H2 as (p2 & packed2' & Hp2 & H2 & ->).
    simpl in Hcat. destruct (pack_inj _ _ _ _ _ _ Hp1 Hp2 Hcat) as [-> Hrest].
    f_equal. eapply IH; eauto.
Qed.

(** X18. When the partition key has not exactly one column, the routing
    key of a row determines the serialized values of its partition key
    columns: two rows with the same routing key have the same serialized
    value in each of these columns. *)
Theorem composite_routing_key_determines_values indexes row1 row2 key :
  length indexes <> 1%nat ->
  get_row_partition_key_values V serialize indexes row1 = Ok key ->
  get_row_partition_key_values V serialize indexes row2 = Ok key ->
  forall i, i ∈ indexes ->
    exists val, serialized V serialize row1 i = Some val /\
                serialized V serialize row2 i = Some val.
Proof.
  intros Hn. unfold get_row_partition_key_values.
  destruct (Nat.eqb_spec (length indexes) 1) as [|_]; [done|].
  unfold serialize_row_multiple.
  destruct (pack_loop V serialize indexes row1 []) as [pk1|] eqn:H1; [|done].
  destruct (pack_loop V serialize indexes row2 []) as [pk2|] eqn:H2; [|done].
  intros [= <-] [= Hcat].
  apply pack_loop_spec in H1 as (vals1 & packed1 & -> & Hv1 & Hp1).
  apply pack_loop_spec in H2 as (vals2 & packed2 & -> & Hv2 & Hp2).
  simpl in Hcat.
  assert (vals1 = vals2) as <-.
  { apply (packed_inj vals1 vals2 packed1 packed2); [done|done| |done].
    pose proof (Forall2_length _ _ _ Hv1). pose proof (Forall2_length _ _ _ Hv2).
    etransitivity; [symmetry; exact H|exact H0]. }
  intros i Hi. apply list_elem_of_lookup in Hi as [k Hk].
  destruct (Forall2_lookup_l _ _ _ _ _ Hv1 Hk) as (val & Hval & Hs1).
  destruct (Forall2_lookup_l _ _ _ _ _ Hv2 Hk) as (val' & Hval' & Hs2).
  exists val. split; [done|]. congruence.
Qed.

End Facts.

Lemma composite_routing_key_determines_values_witness :
  exists val,
    serialized bytes (fun _ v => Ok v)
               [[Byte.x01]; [Byte.x02; Byte.x03]; [Byte.x09]] 1 = Some val /\
    serialized bytes (fun _ v => Ok v)
               [[Byte.x01]; [Byte.x02; Byte.x03]; [Byte.x0a]] 1 = Some val.
Proof.
  apply (composite_routing_key_determines_values bytes (fun _ v => Ok v)
           [0%nat; 1%nat]
           [[Byte.x01]; [Byte.x02; Byte.x03]; [Byte.x09]]
           [[Byte.x01]; [Byte.x02; Byte.x03]; [Byte.x0a]]
           [Byte.x00; Byte.x01; Byte.x01; Byte.x00;
            Byte.x00; Byte.x02; Byte.x02; Byte.x03; Byte.x00]).
  - simpl. lia.
  - vm_compute. reflexivity.
  - vm_compute. reflexivity.
  - apply elem_of_cons. right. apply elem_of_cons. by left.
Defined.

End RoutingKeyFacts.

(** ** Splitting a collection literal *)

Module SplitValueFacts.
Import SplitValue.

Lemma slice_middle (pre p rest : chars) :
  slice (pre ++ p ++ rest) (length pre) (length pre + length p) = p.
Proof.
  unfold slice. rewrite drop_app_length.
  replace (length pre + length p - length pre)%nat with (length p) by lia.
  apply take_app_length.
Qed.

Lemma split_loop_element val sep p : forall i st rest l q,
  scan sep p (level st) (quote st) = Some (l, q) ->
  split_loop val sep i (p ++ rest) st =
  split_loop val sep (i + length p) rest (mkSplit (ret st) (last_start st) l q).
Proof.
  induction p as [|c p IH]; intros i st rest l q Hscan.
  - simpl in *. injection Hscan as <- <-. rewrite Nat.add_0_r. by destruct st.
  - cbn [scan] in Hscan. cbn [app split_loop length].
    replace (i + S (length p))%nat with (S i + length p)%nat by lia.
    unfold split_char.
    destruct (is_open c); [by rewrite (IH _ _ _ l q)|].
    destruct (is_close c); [by rewrite (IH _ _ _ l q)|].
    destruct (is_quote c); [by rewrite (IH _ _ _ l q)|].
    destruct (Ascii.eqb c sep && (level st =? 1) && negb (quote st)); [done|].
    rewrite (IH _ _ _ l q) by done. done.
Qed.

Lemma join_cons sep p ps : ps <> [] -> join sep (p :: ps) = p ++ sep :: join sep ps.
Proof. by destruct ps. Qed.

Lemma split_loop_join val sep tail lastp :
  is_open sep = false -> is_close sep = false -> is_quote sep = false ->
  forall init pre acc,
  Forall (element sep) (init ++ [lastp]) ->
  val = pre ++ join sep (init ++ [lastp]) ++ tail ->
  exists front,
    pre ++ join sep (init ++ [lastp]) = front ++ lastp /\
    split_loop val sep (length pre) (join sep (init ++ [lastp]) ++ tail)
               (mkSplit acc (length pre) 1 false) =
    split_loop val sep (length front + length lastp) tail
               (mkSplit (acc ++ init) (length front) 1 false).
Proof.
  intros Ho Hc Hq. induction init as [|p init IH]; intros pre acc Hel Hval.
  - exists pre. cbn [app join] in *. split; [done|].
    apply Forall_cons in Hel as [Hel _]. rewrite app_nil_r.
    by rewrite (split_loop_element val sep lastp _ _ tail 1 false) by exact Hel.
  - apply Forall_cons in Hel as [Hp Hel]. cbn [app] in *.
    rewrite join_cons in * by (by destruct init).
    set (body := join sep (init ++ [lastp])) in *.
    rewrite <- app_assoc. cbn [app].
    rewrite (split_loop_element val sep p _ _ _ 1 false) by exact Hp.
    cbn [split_loop ret last_start]. unfold split_char. rewrite Ho, Hc, Hq.
    cbn [level quote ret last_start]. rewrite Ascii.eqb_refl. cbn [andb Z.eqb negb].
    assert (Hslice : slice val (length pre) (length pre + length p) = p).
    { rewrite Hval, <- app_assoc. apply slice_middle. }
    rewrite Hslice.
    destruct (IH (pre ++ p ++ [sep]) (acc ++ [p])) as (front & Hfront & Hloop).
    + done.
    + rewrite Hval. rewrite <- !app_assoc. done.
    + exists front. split.
      { rewrite <- Hfront. rewrite <- !app_assoc. done. }
      rewrite !length_app in Hloop. cbn [length] in Hloop.
      replace (S (length pre + length p)) with (length pre + (length p + 1))%nat by lia.
      replace (length pre + length p + 1)%nat with (length pre + (length p + 1))%nat by lia.
      change ((1 =? 1)%positive && true) with true. cbv iota.
      rewrite Hloop. by rewrite <- app_assoc.
Qed.

Lemma split_loop_collection val sep opening closing parts :
  is_open opening = true ->
  is_close closing = true ->
  is_open sep || is_close sep || is_quote sep = false ->
  Forall (element sep) parts ->
  val = opening :: join sep parts ++ [closing] ->
  let st := split_loop val sep 0 (opening :: join sep parts ++ [closing])
                       (mkSplit [] 1 0 false) in
  (if Z.of_nat (last_start st) <? len val - 1
   then ret st ++ [slice val (last_start st) (length val - 1)]
   else ret st) = without_empty_last parts.
Proof.
  intros Hopen Hclose Hsep Hel Hv. cbv zeta.
  apply orb_false_iff in Hsep as [Hsep Hq]. apply orb_false_iff in Hsep as [Ho Hc].
  assert (Hnc : is_open closing = false).
  { unfold is_open, is_close in *.
    destruct (Ascii.eqb_spec closing "}") as [->|]; [done|].
    destruct (Ascii.eqb_spec closing "]") as [->|]; [done|].
    destruct (Ascii.eqb_spec closing ")") as [->|]; done. }
  cbn [split_loop]. unfold split_char. rewrite Hopen.
  cbn [ret last_start level quote]. change (0 + 1) with 1.
  destruct (decide (parts = [])) as [->|Hne];
    [|destruct (exists_last Hne) as (init & lastp & ->)].
  - cbn [join app split_loop]. unfold split_char. rewrite Hnc, Hclose.
    cbn [ret last_start]. rewrite Hv. done.
  - destruct (split_loop_join val sep [closing] lastp Ho Hc Hq init [opening] [] Hel)
      as (front & Hfront & Hloop); [done|].
    cbn [length] in Hloop. rewrite Hloop.
    cbn [split_loop]. unfold split_char. rewrite Hnc, Hclose.
    cbn [ret last_start level quote app].
    assert (Hval : val = front ++ lastp ++ [closing]).
    { rewrite Hv. change (opening :: ?l ++ [closing]) with (([opening] ++ l) ++ [closing]).
      rewrite Hfront. by rewrite <- app_assoc. }
    assert (Hlen : length val = (length front + length lastp + 1)%nat).
    { rewrite Hval, !length_app. simpl. lia. }
    unfold without_empty_last. rewrite last_snoc. unfold len. rewrite Hlen.
    destruct lastp as [|c lastp].
    + destruct (Z.ltb_spec (Z.of_nat (length front))
                  (Z.of_nat (length front + length (@nil ascii) + 1) - 1)) as [Hlt|_];
        [simpl in Hlt; lia|].
      by rewrite removelast_last.
    + destruct (Z.ltb_spec (Z.of_nat (length front))
                  (Z.of_nat (length front + length (c :: lastp) + 1) - 1)) as [_|Hge];
        [|simpl in Hge; lia].
      do 2 f_equal.
      replace (length front + length (c :: lastp) + 1 - 1)%nat
        with (length front + length (c :: lastp))%nat by lia.
      rewrite Hval. apply slice_middle.
Qed.

Lemma plain_is_element sep s : forallb (plain_char sep) s = true -> element sep s.
Proof.
  unfold element. generalize 1 false. induction s as [|c s IH]; intros l q H; [done|].
  cbn [forallb] in H. apply andb_true_iff in H as [Hc Hs]. unfold plain_char in Hc.
  repeat (apply andb_true_iff in Hc as [Hc ?]).
  cbn [scan].
  destruct (is_open c); [done|]. destruct (is_close c); [done|].
  destruct (is_quote c); [done|]. destruct (Ascii.eqb c sep); [done|].
  by apply IH.
Qed.

(** X17. [split] undoes the joining of elements: for a collection literal
    made of an opening bracket, elements joined by the separator, and a
    closing bracket, where every element has its own brackets and quotes
    closed and separators only inside them, [split] returns the elements,
    except that an empty last element is left out.  The separator must not
    itself be a bracket or the quote. *)
Theorem split_returns_joined_elements sep opening closing parts :
  is_open opening = true ->
  is_close closing = true ->
  is_open sep || is_close sep || is_quote sep = false ->
  Forall (element sep) parts ->
  split (opening :: join sep parts ++ [closing]) sep = without_empty_last parts.
Proof.
  intros Hopen Hclose Hsep Hel. unfold split.
  by apply (split_loop_collection _ sep opening closing parts).
Qed.

Lemma split_returns_joined_elements_witness :
  split (list_ascii_of_string "{1,{2,3},'a,b'}") "," =
  List.map list_ascii_of_string ["1"; "{2,3}"; "'a,b'"].
Proof.
  apply (split_returns_joined_elements "," "{" "}"
           (List.map list_ascii_of_string ["1"; "{2,3}"; "'a,b'"])).
  - reflexivity.
  - reflexivity.
  - reflexivity.
  - repeat constructor.
Defined.

End SplitValueFacts.

(** ** Skipped columns *)

Module SkipColumnsFacts.
Import ImportProcess SkipColumns.

Lemma elem_of_skip_column_indexes columns skip_columns i :
  i ∈ skip_column_indexes columns skip_columns <->
  exists c, columns !! i = Some c /\ c ∈ skip_columns.
Proof.
  unfold skip_column_indexes. rewrite list_elem_of_In, in_map_iff. split.
  - intros ([j c] & <- & Hin). apply filter_In in Hin as [Hin Hc].
    apply list_elem_of_In, list_elem_of_lookup in Hin as [k Hk].
    rewrite list_lookup_imap in Hk.
    destruct (columns !! k) as [c'|] eqn:Hck; [|done]. injection Hk as <- <-.
    exists c'. split; [done|]. by apply bool_decide_eq_true_1 in Hc.
  - intros (c & Hc & Hs). exists (i, c). split; [done|].
    apply filter_In. split; [|by apply bool_decide_eq_true_2].
    apply list_elem_of_In, list_elem_of_lookup. exists i.
    by rewrite list_lookup_imap, Hc.
Qed.

Lemma filter_row_values_aligned skip_columns all_columns columns : forall pre (r : row),
  all_columns = pre ++ columns ->
  length r = length columns ->
  zip (valid_columns columns skip_columns)
      (List.map snd
         (List.filter
            (fun iv => negb (bool_decide
                               (iv.1 ∈ skip_column_indexes all_columns skip_columns)))
            (imap (fun i v => ((length pre + i)%nat, v)) r)))
  = kept_fields columns skip_columns r.
Proof.
  induction columns as [|c columns IH]; intros pre r Hall Hlen.
  - by destruct r.
  - destruct r as [|v r]; [done|]. injection Hlen as Hlen.
    cbn [imap List.filter zip zip_with]. unfold valid_columns, kept_fields.
    cbn [List.filter zip zip_with fst]. rewrite Nat.add_0_r.
    assert (Hi : bool_decide (length pre ∈ skip_column_indexes all_columns skip_columns)
                 = bool_decide (c ∈ skip_columns)).
    { apply bool_decide_ext. rewrite elem_of_skip_column_indexes, Hall.
      rewrite list_lookup_middle by done. split.
      - by intros (c' & [= <-] & Hc).
      - intros Hc. by exists c. }
    cbn [fst]. rewrite Hi.
    specialize (IH (pre ++ [c]) r).
    rewrite length_app in IH. cbn [length] in IH.
    assert (Himap : imap ((fun i v => ((length pre + i)%nat, v)) ∘ S) r
                    = imap (fun i v => ((length pre + 1 + i)%nat, v)) r).
    { apply imap_ext. intros i x _. simpl. f_equal. lia. }
    rewrite Himap.
    fold (valid_columns columns skip_columns). fold (kept_fields columns skip_columns r).
    rewrite <- IH; [|by rewrite Hall, <- app_assoc|done].
    by destruct (bool_decide (c ∈ skip_columns)).
Qed.

(** X19. For a row with one field for each column, the fields that
    [filter_row_values] keeps line up with the valid columns: pairing the
    valid columns with the filtered row gives the pairs of a column and its
    field for the columns that are not skipped, so the filtered row has as
    many fields as there are valid columns. *)
Theorem skipped_columns_stay_aligned columns skip_columns (r : row) :
  length r = length columns ->
  zip (valid_columns columns skip_columns)
      (filter_row_values (skip_column_indexes columns skip_columns) r)
  = kept_fields columns skip_columns r /\
  length (filter_row_values (skip_column_indexes columns skip_columns) r)
  = length (valid_columns columns skip_columns).
Proof.
  intros Hlen.
  pose proof (filter_row_values_aligned skip_columns columns columns [] r eq_refl Hlen)
    as H.
  cbn [length Nat.add] in H. split; [exact H|].
  clear H. unfold filter_row_values, valid_columns.
  assert (Hg : forall pre all_columns (r : row) columns,
    all_columns = pre ++ columns -> length r = length columns ->
    length (List.map snd (List.filter
       (fun iv => negb (bool_decide (iv.1 ∈ skip_column_indexes all_columns skip_columns)))
       (imap (fun i v => ((length pre + i)%nat, v)) r)))
    = length (List.filter (fun c => negb (bool_decide (c ∈ skip_columns))) columns)).
  { clear. intros pre all_columns r columns. revert pre r.
    induction columns as [|c columns IH]; intros pre r Hall Hlen.
    - by destruct r.
    - destruct r as [|v r]; [done|]. injection Hlen as Hlen.
      cbn [imap List.filter fst]. rewrite Nat.add_0_r.
      assert (Hi : bool_decide (length pre ∈ skip_column_indexes all_columns skip_columns)
                   = bool_decide (c ∈ skip_columns)).
      { apply bool_decide_ext. rewrite elem_of_skip_column_indexes, Hall.
        rewrite list_lookup_middle by done. split.
        - by intros (c' & [= <-] & Hc).
        - intros Hc. by exists c. }
      rewrite Hi.
      specialize (IH (pre ++ [c]) r).
      rewrite length_app in IH. cbn [length] in IH.
      assert (Himap : imap ((fun i v => ((length pre + i)%nat, v)) ∘ S) r
                      = imap (fun i v => ((length pre + 1 + i)%nat, v)) r).
      { apply imap_ext. intros i x _. simpl. f_equal. lia. }
      rewrite Himap.
      destruct (bool_decide (c ∈ skip_columns)); cbn [negb List.map length];
        rewrite IH; try done; by rewrite Hall, <- app_assoc. }
  exact (Hg [] columns r columns eq_refl Hlen).
Qed.

Lemma skipped_columns_stay_aligned_witness :
  zip (valid_columns ["a"; "b"; "c"] ["b"])
      (filter_row_values (skip_column_indexes ["a"; "b"; "c"] ["b"]) ["1"; "2"; "3"])
  = kept_fields ["a"; "b"; "c"] ["b"] ["1"; "2"; "3"] /\
  length (filter_row_values (skip_column_indexes ["a"; "b"; "c"] ["b"]) ["1"; "2"; "3"])
  = length (valid_columns ["a"; "b"; "c"] ["b"]).
Proof.
  apply (skipped_columns_stay_aligned ["a"; "b"; "c"] ["b"] ["1"; "2"; "3"]).
  reflexivity.
Defined.

End SkipColumnsFacts.
